(** * orpyus: intervals, chord factors, the naming registry and the matcher

    A shallow embedding of [src/src/intervals.py] and [src/src/chords.py].
    Python exceptions are values of [result]; Python dictionaries, whose
    iteration order is their insertion order, are association lists; Python
    sets of integers are [gset Z].  The modules [qualities], [util], [notes]
    and [parsing] are not part of the sources at hand: what the embedded
    functions use of them is collected in the record [qualities_module] or
    in a definition whose comment says that it is modelled from the spec. *)

From Stdlib Require Import Ascii ZArith Lia QArith Qround Qabs Lqa Permutation Sorted.
From stdpp Require Import base list strings pretty gmap.

Local Close Scope Q_scope.
Local Open Scope Z_scope.

(** ** Exceptions and results *)

Inductive exception : Type :=
| AssertionError (message : string)
| ValueError (message : string)
| KeyError
| IndexError
| AttributeError (attribute : string)
| NameError (name : string)
| TypeError
| ZeroDivisionError
| OverflowError.

Inductive result (A : Type) : Type :=
| Ok (a : A)
| Raise (e : exception).

Arguments Ok {A} a.
Arguments Raise {A} e.

Definition bind {A B : Type} (r : result A) (k : A -> result B) : result B :=
  match r with
  | Ok a => k a
  | Raise e => Raise e
  end.

Notation "'let*' x ':=' r 'in' k" := (bind r (fun x => k))
  (at level 10, x binder, r at level 100, k at level 200).
Notation "'check' r 'in' k" := (bind r (fun _ => k))
  (at level 10, r at level 100, k at level 200).

Definition assert (b : bool) (message : string) : result unit :=
  if b then Ok tt else Raise (AssertionError message).

Definition raises {A : Type} (r : result A) : Prop :=
  match r with
  | Ok _ => False
  | Raise _ => True
  end.

Definition is_Ok {A : Type} (r : result A) : Prop :=
  match r with
  | Ok _ => True
  | Raise _ => False
  end.

Fixpoint mapM {A B : Type} (f : A -> result B) (l : list A) : result (list B) :=
  match l with
  | [] => Ok []
  | a :: l' => let* b := f a in let* bs := mapM f l' in Ok (b :: bs)
  end.

Fixpoint foldM {A S : Type} (f : S -> A -> result S) (l : list A) (s : S) : result S :=
  match l with
  | [] => Ok s
  | a :: l' => let* s' := f s a in foldM f l' s'
  end.

(** ** Python built-ins *)

(** [sorted(l)] and [sorted(l, reverse=True)]: a stable sort.  [before y x]
    says that [y] goes strictly before [x]; an element is moved past those
    only, so equal elements keep their order, as Python's sort does in both
    directions. *)
Fixpoint sorted_insert {A : Type} (before : A -> A -> bool) (x : A) (l : list A) : list A :=
  match l with
  | [] => [x]
  | y :: ys => if before y x then y :: sorted_insert before x ys else x :: y :: ys
  end.

Definition sorted {A : Type} (before : A -> A -> bool) (l : list A) : list A :=
  foldr (sorted_insert before) [] l.

(** [l[:stop]] for a list and an integer [stop]. *)
Definition slice_to {A : Type} (l : list A) (stop : Z) : list A :=
  if stop <? 0
  then take (Z.to_nat (Z.of_nat (length l) + stop)) l
  else take (Z.to_nat stop) l.

(** [l[start:]]. *)
Definition slice_from {A : Type} (l : list A) (start : Z) : list A :=
  if start <? 0
  then drop (Z.to_nat (Z.of_nat (length l) + start)) l
  else drop (Z.to_nat start) l.

(** [l[i]] for a non-negative index and [l[-1]]. *)
Definition getitem {A : Type} (l : list A) (i : nat) : result A :=
  match l !! i with
  | Some a => Ok a
  | None => Raise IndexError
  end.

Definition getitem_last {A : Type} (l : list A) : result A :=
  match last l with
  | Some a => Ok a
  | None => Raise IndexError
  end.

(** ** Floats

    Python's [float] is the IEEE 754 binary64 format.  A finite float is a
    rational number and is written as that number, in [Q]; floats compare
    as those rationals do.  [binary64 q] is the float nearest to [q], ties
    going to the even significand: the value of a float literal, and of an
    operation of float arithmetic on its exact result. *)

Definition round_half_even (q : Q) : Z :=
  let f := Qfloor q in
  match Qcompare (q - inject_Z f) (1 # 2) with
  | Lt => f
  | Gt => f + 1
  | Eq => if Z.even f then f else f + 1
  end.

(** For [a > 0], the [e] with [2^e <= a < 2^(e+1)]. *)
Definition binary_exponent (a : Q) : Z :=
  let e := Z.log2 (Qnum a) - Z.log2 (Zpos (Qden a)) in
  if Qle_bool (Qpower 2 e) a then e else e - 1.

(** 53 bits of significand; below [2^-1022] the spacing stays [2^-1074]. *)
Definition binary64 (q : Q) : Q :=
  if Qeq_bool q 0 then 0%Q
  else let a := Qabs q in
       let ulp := Qpower 2 (Z.max (binary_exponent a) (-1022) - 52) in
       let significand := round_half_even (a / ulp) in
       Qred ((if Qle_bool 0 q then 1 else -1) * inject_Z significand * ulp).

(** The largest finite float. *)
Definition float_max : Q := Qpower 2 1024 - Qpower 2 971.

(** [a / b] for two integers: the quotient rounded once, to the nearest
    float. *)
Definition int_truediv (a b : Z) : result Q :=
  if b =? 0 then Raise ZeroDivisionError
  else let q := binary64 (inject_Z a / inject_Z b) in
       if Qle_bool (Qabs q) float_max then Ok q else Raise OverflowError.

(** [x - y] for two floats whose difference stays in the range of the
    finite floats. *)
Definition float_sub (x y : Q) : Q := binary64 (x - y).

(** [str(n)] for an integer. *)
Definition str (n : Z) : string := pretty n.

(** String methods used on chord names: [c in s], [s.replace('\\', '/')],
    [s.split('/')], [s.isnumeric()] and [int(s)] on ASCII names. *)
Definition slash : ascii := "/"%char.
Definition backslash : ascii := "\"%char.

Fixpoint contains_char (c : ascii) (s : string) : bool :=
  match s with
  | EmptyString => false
  | String c' s' => bool_decide (c = c') || contains_char c s'
  end.

Fixpoint replace_char (old new : ascii) (s : string) : string :=
  match s with
  | EmptyString => EmptyString
  | String c s' => String (if bool_decide (c = old) then new else c) (replace_char old new s')
  end.

Fixpoint split_char (sep : ascii) (s : string) : list string :=
  match s with
  | EmptyString => [EmptyString]
  | String c s' =>
      if bool_decide (c = sep) then EmptyString :: split_char sep s'
      else match split_char sep s' with
           | [] => [String c EmptyString]
           | part :: parts => String c part :: parts
           end
  end.

Definition is_digit (c : ascii) : bool :=
  let n := nat_of_ascii c in (48 <=? n)%nat && (n <=? 57)%nat.

Fixpoint all_digits (s : string) : bool :=
  match s with
  | EmptyString => true
  | String c s' => is_digit c && all_digits s'
  end.

Definition isnumeric (s : string) : bool :=
  match s with
  | EmptyString => false
  | _ => all_digits s
  end.

Fixpoint int_of_digits (acc : Z) (s : string) : Z :=
  match s with
  | EmptyString => acc
  | String c s' => int_of_digits (10 * acc + (Z.of_nat (nat_of_ascii c) - 48)) s'
  end.

Definition int (s : string) : Z := int_of_digits 0 s.

(** [x in names] for a list (or set) of strings. *)
Definition str_in (x : string) (names : list string) : bool := bool_decide (x ∈ names).

(** ** Dictionaries

    A [dict] lists its items in insertion order.  A key is found by
    [key_match], which stands for "same hash and [==]": assignment to a
    present key replaces the value where it stands, assignment to an absent
    key appends. *)

Definition dict (K V : Type) : Type := list (K * V).

Section Dict.

Context {K V : Type} (key_match : K -> K -> bool).

Fixpoint dict_get (d : dict K V) (k : K) : option V :=
  match d with
  | [] => None
  | (k', v) :: d' => if key_match k' k then Some v else dict_get d' k
  end.

Definition dict_contains (d : dict K V) (k : K) : bool :=
  match dict_get d k with
  | Some _ => true
  | None => false
  end.

Definition dict_getitem (d : dict K V) (k : K) : result V :=
  match dict_get d k with
  | Some v => Ok v
  | None => Raise KeyError
  end.

Fixpoint dict_set (d : dict K V) (k : K) (v : V) : dict K V :=
  match d with
  | [] => [(k, v)]
  | (k', v') :: d' =>
      if key_match k' k then (k', v) :: d' else (k', v') :: dict_set d' k v
  end.

Fixpoint dict_del (d : dict K V) (k : K) : result (dict K V) :=
  match d with
  | [] => Raise KeyError
  | (k', v') :: d' =>
      if key_match k' k then Ok d'
      else let* d'' := dict_del d' k in Ok ((k', v') :: d'')
  end.

End Dict.

Definition keys {K V : Type} (d : dict K V) : list K := map fst d.
Definition values {K V : Type} (d : dict K V) : list V := map snd d.

(** [a == b] for dictionaries with integer keys and values: the same number
    of items, and every item of [a] is an item of [b]. *)
Definition dict_eq (a b : dict Z Z) : bool :=
  (length a =? length b)%nat
  && forallb (fun kv => match dict_get Z.eqb b (fst kv) with
                        | Some v => snd kv =? v
                        | None => false
                        end) a.

(** ** The part of [qualities] that intervals and chords use

    [qualities.py] is absent.  A [Quality] is taken with the two constructors
    [from_offset_wrt_perfect] and [from_offset_wrt_major] that
    [Interval._detect_quality] calls, the flags that
    [AbstractChord._determine_quality] reads and the module constants it
    returns. *)

Record qualities_module : Type := {
  Quality : Type;
  from_offset_wrt_perfect : Z -> result Quality;
  from_offset_wrt_major : Z -> result Quality;
  major : Quality -> bool;
  minor : Quality -> bool;
  augmented : Quality -> bool;
  diminished : Quality -> bool;
  Perfect : Quality;
  Major : Quality;
  Minor : Quality;
  Augmented : Quality;
  Diminished : Quality
}.

(** ** intervals.py *)

Module Intervals.

(** [default_interval_degrees]: the degree each semitone value within an
    octave corresponds to by default. *)
Definition default_interval_degrees (m : Z) : result Z :=
  if m =? 0 then Ok 1
  else if (m =? 1) || (m =? 2) then Ok 2
  else if (m =? 3) || (m =? 4) then Ok 3
  else if m =? 5 then Ok 4
  else if (m =? 6) || (m =? 7) then Ok 5
  else if (m =? 8) || (m =? 9) then Ok 6
  else if (m =? 10) || (m =? 11) then Ok 7
  else Raise KeyError.

(** [default_degree_intervals]: the reverse mapping. *)
Definition default_degree_intervals (d : Z) : result Z :=
  if d =? 1 then Ok 0
  else if d =? 2 then Ok 2
  else if d =? 3 then Ok 4
  else if d =? 4 then Ok 5
  else if d =? 5 then Ok 7
  else if d =? 6 then Ok 9
  else if d =? 7 then Ok 11
  else Raise KeyError.

Definition perfect_degrees (d : Z) : bool := (d =? 1) || (d =? 4) || (d =? 5).

Section WithQualities.

Context (qualities : qualities_module).

Record Interval : Type := {
  value : Z;
  width : Z;
  octave_span : Z;
  imod : Z;
  sign : Z;
  degree : Z;
  extended_degree : Z;
  quality : Quality qualities
}.

Definition unison (i : Interval) : bool := imod i =? 0.

(** [Interval._detect_quality], on the mod-value and mod-degree. *)
Definition _detect_quality (imod degree : Z) : result (Quality qualities) :=
  let* default_value := default_degree_intervals degree in
  let offset := imod - default_value in
  if perfect_degrees degree
  then from_offset_wrt_perfect qualities offset
  else from_offset_wrt_major qualities offset.

Definition octave_off (distance : Z) : bool :=
  (distance =? 8) || (distance =? 9) || (distance =? 10).

(** The validation of a supplied degree in [Interval.__init__]
    (the [else] branch of [if degree is None]); it returns [self.degree]. *)
Definition validate_degree (value degree : Z) : result Z :=
  let width := Z.abs value in
  let octave_span := width / 12 in
  let imod := width mod 12 in
  check assert (0 <? degree) "Interval degree must be non-negative" in
  let* d := default_interval_degrees imod in
  let default_degree := d + 7 * octave_span in
  let extended_degree := degree in
  let self_degree := extended_degree - 7 * octave_span in
  check (if imod =? 0
        then check assert (self_degree =? 1)
                    "Degree of a unison (mod12) interval can never be anything but 1" in
             assert ((extended_degree - 1) mod 7 =? 0)
                    "Extended degree of a unison (mod12) interval must (-1) mod to 0"
        else Ok tt) in
  check assert ((0 <? self_degree) && (self_degree <? 8)) "" in
  let degree_distance_from_default := Z.abs (degree - default_degree) in
  if degree_distance_from_default <=? 2 then Ok self_degree
  else if octave_off degree_distance_from_default
  then Raise (ValueError "an octave up or down from default degree")
  else Raise (ValueError "too far from default degree").

(** [Interval.__init__(value, degree=None)] for an integer [value]. *)
Definition Interval_init (value : Z) (degree : option Z) : result Interval :=
  let width := Z.abs value in
  let octave_span := width / 12 in
  let imod := width mod 12 in
  let sign := if value <? 0 then -1 else 1 in
  let* degrees := match degree with
             | None =>
                 let* d := default_interval_degrees imod in
                 Ok (d, d + 7 * octave_span)
             | Some degree =>
                 let* d := validate_degree value degree in
                 Ok (d, degree)
             end in
  let* q := _detect_quality imod (fst degrees) in
  Ok {| value := value; width := width; octave_span := octave_span;
        imod := imod; sign := sign; degree := fst degrees;
        extended_degree := snd degrees; quality := q |}.

(** [Interval.from_degree(degree, offset=offset)]. *)
Definition from_degree (degree offset : Z) : result Interval :=
  let extended_degree := degree in
  let '(octave_span, degree) :=
    if 8 <=? degree then ((degree - 1) / 7, (degree - 1) mod 7 + 1) else (0, degree) in
  let* d := default_degree_intervals degree in
  let default_value := d + 12 * octave_span in
  let interval_value := default_value + offset in
  Interval_init interval_value (Some extended_degree).


(** [Interval.from_cache(value)].  Every cached interval is [Interval(v)]
    with the degree [Interval(v)] infers ([d5 = Interval(6, degree=5)]
    included), so a cache hit and a fresh interval are the same record. *)
Definition from_cache (value : Z) : result Interval := Interval_init value None.

(** [Interval.__neg__]. *)
Definition Interval_neg (self : Interval) : result Interval :=
  if value self =? 0 then Ok self
  else Interval_init (- value self) (Some (extended_degree self)).

(** [Interval.__add__(self, other)] where [other] is [int(other)]. *)
Definition Interval_add (self : Interval) (other : Z) : result Interval :=
  let new_value := value self + other in
  if imod self =? 0 then from_cache new_value
  else if other mod 12 =? 0 then
    let new_sign := if new_value <? 0 then -1 else 1 in
    let new_degree := if new_sign =? sign self then degree self else 9 - degree self in
    let new_ext_degree := new_degree + 7 * (Z.abs new_value / 12) in
    Interval_init new_value (Some new_ext_degree)
  else from_cache new_value.

(** [Interval.__invert__], the operator [~]. *)
Definition Interval_invert (self : Interval) : result Interval :=
  let new_mod := (- (12 - imod self)) * sign self in
  let new_value := new_mod + (12 * octave_span self) * - sign self in
  let new_degree := (9 - degree self) + 7 * octave_span self in
  Interval_init new_value (Some new_degree).

(** [Interval.flatten].  The recursive call is on [~self] for a negative
    [self]; it is unfolded [depth] times. *)
Fixpoint Interval_flatten_rec (depth : nat) (self : Interval) : result Interval :=
  if value self <? 0 then
    match depth with
    | O => Raise TypeError
    | S depth' => let* inverted := Interval_invert self in Interval_flatten_rec depth' inverted
    end
  else Interval_init (imod self) (Some (degree self)).

Definition Interval_flatten (self : Interval) : result Interval :=
  Interval_flatten_rec 2 self.

(** [IntervalList]: a list with the attribute [value_set]. *)
Record IntervalList : Type := {
  items : list Interval;
  value_set : gset Z
}.

Definition values_of (l : list Interval) : list Z := map value l.

(** [IntervalList(items)] for a list of [Interval] objects. *)
Definition IntervalList_init (l : list Interval) : IntervalList :=
  {| items := l; value_set := list_to_set (values_of l) |}.

(** [IntervalList(items)] for a list of integers: each is cast through the cache. *)
Definition IntervalList_of_ints (l : list Z) : result IntervalList :=
  let* intervals := mapM from_cache l in Ok (IntervalList_init intervals).

(** [IntervalList.pop(item)].  The method has no [return]: its result is
    Python's [None], written [None] here, where [Some i] would be a returned
    interval. *)
Definition pop {A : Type} (self : IntervalList) (item : A)
  : result (IntervalList * option Interval) :=
  let* popped_item := getitem_last (items self) in
  let remaining := removelast (items self) in
  Ok ({| items := remaining; value_set := list_to_set (values_of remaining) |}, None).

(** [IntervalList.sorted]: intervals order by value ([Interval.__lt__]). *)
Definition Interval_lt (a b : Interval) : bool := value a <? value b.

Definition IntervalList_sorted (self : IntervalList) : IntervalList :=
  IntervalList_init (sorted Interval_lt (items self)).

(** [IntervalList.unique]: repeats (by value, as intervals hash and compare)
    are dropped after the first. *)
Fixpoint unique_from (seen : list Z) (l : list Interval) : list Interval :=
  match l with
  | [] => []
  | i :: l' =>
      if bool_decide (value i ∈ seen) then unique_from seen l'
      else i :: unique_from (value i :: seen) l'
  end.

Definition IntervalList_unique (self : IntervalList) : IntervalList :=
  IntervalList_init (unique_from [] (items self)).

(** Modelled from the spec: [util.rotate_list], which is absent ("rotate the
    list so element p becomes first"), as the slices [l[p:] + l[:p]]. *)
Definition rotate_list {A : Type} (l : list A) (num_places : Z) : list A :=
  slice_from l num_places ++ slice_to l num_places.

Definition IntervalList_rotate (self : IntervalList) (num_places : Z) : IntervalList :=
  IntervalList_init (rotate_list (items self) num_places).

(** [IntervalList.__sub__(other)] for an [Interval]: [self + (-other)]. *)
Definition IntervalList_sub (self : IntervalList) (other : Interval) : result IntervalList :=
  let* negated := Interval_neg other in
  let* shifted := mapM (fun i => Interval_add i (value negated)) (items self) in
  Ok (IntervalList_init shifted).

(** [IntervalList.__abs__]. *)
Definition IntervalList_abs (self : IntervalList) : result IntervalList :=
  let* positive := mapM (fun i => if value i <? 0 then Interval_invert i else Ok i)
                        (items self) in
  Ok (IntervalList_init positive).

(** [IntervalList.invert(position)]. *)
Definition IntervalList_invert (self : IntervalList) (position : Z) : result IntervalList :=
  let rotated := IntervalList_rotate self position in
  let* first := getitem (items rotated) 0 in
  let* recentred := IntervalList_sub rotated first in
  let* positive := IntervalList_abs recentred in
  Ok (IntervalList_sorted (IntervalList_unique positive)).

(** [IntervalList.flatten()]: the set built from the flattened intervals
    keeps one interval per value, and the result is sorted by value. *)
Definition IntervalList_flatten (self : IntervalList) : result IntervalList :=
  let* new_intervals := mapM Interval_flatten (items self) in
  Ok (IntervalList_init (sorted Interval_lt (unique_from [] new_intervals))).

(** An [IntervalList] used as a dictionary key: [__hash__] hashes the sorted
    tuple of its intervals, each by its value, and [==] is the list's,
    element by element with [Interval.__eq__] (values).  Lists with the same
    values in the same order have the same sorted values, so two keys match
    exactly when their value lists agree. *)
Definition IntervalList_key_match (a b : IntervalList) : bool :=
  bool_decide (values_of (items a) = values_of (items b)).

(** [P5 = Interval(7)]. *)
Definition P5 : result Interval := Interval_init 7 None.

End WithQualities.

Arguments value {qualities} _.
Arguments width {qualities} _.
Arguments octave_span {qualities} _.
Arguments imod {qualities} _.
Arguments sign {qualities} _.
Arguments degree {qualities} _.
Arguments extended_degree {qualities} _.
Arguments quality {qualities} _.
Arguments items {qualities} _.
Arguments value_set {qualities} _.

End Intervals.

(** ** chords.py: chord factors and qualifiers *)

Module Chords.

(** Modelled from the spec: the class [ChordQualifier] of [qualities.py],
    which is absent.  "A ChordQualifier declares: degrees to add (with
    offsets), degrees to modify (by delta), degrees to remove"; these are
    the three keywords [ChordFactors.distance] builds one from. *)
Record ChordQualifier : Type := {
  add : dict Z Z;
  modify : dict Z Z;
  remove : list Z
}.

(** [ChordFactors]: a dictionary from degrees to offsets, with the history
    of the qualifiers applied to it. *)
Record ChordFactors : Type := {
  items : dict Z Z;
  qualifiers : list ChordQualifier
}.

(** [ChordFactors(arg)] for a dictionary and [ChordFactors()], the major triad. *)
Definition ChordFactors_init (arg : dict Z Z) (qualifiers : list ChordQualifier) : ChordFactors :=
  {| items := arg; qualifiers := qualifiers |}.

Definition ChordFactors_default : ChordFactors :=
  ChordFactors_init [(1, 0); (3, 0); (5, 0)] [].

Definition _major_triad : ChordFactors := ChordFactors_init [(1, 0); (3, 0); (5, 0)] [].

(** [degree in factors] and [factors[degree]]. *)
Definition has_degree (self : ChordFactors) (degree : Z) : bool :=
  dict_contains Z.eqb (items self) degree.

Definition degrees (self : ChordFactors) : list Z := keys (items self).
Definition offsets (self : ChordFactors) : list Z := values (items self).

(** [len(factors)]. *)
Definition order (self : ChordFactors) : Z := Z.of_nat (length (items self)).

Definition copy (self : ChordFactors) : ChordFactors :=
  ChordFactors_init (items self) (qualifiers self).

(** Modelled from the spec: [ChordQualifier.apply], which is absent.
    "Applying a qualifier to factors yields a new ... ChordFactors whose
    qualifier-history is the prior history plus this qualifier": the degrees
    to add are assigned, the degrees to modify are changed by their delta,
    the degrees to remove are deleted, each as the dictionary operation of
    that name (a degree to modify or remove that is absent is a
    [KeyError]). *)
Definition apply (q : ChordQualifier) (factors : ChordFactors) : result ChordFactors :=
  let added := fold_left (fun d kv => dict_set Z.eqb d (fst kv) (snd kv)) (add q) (items factors) in
  let* modified :=
    foldM (fun d kv => let* v := dict_getitem Z.eqb d (fst kv) in
                       Ok (dict_set Z.eqb d (fst kv) (v + snd kv)))
          (modify q) added in
  let* removed := foldM (fun d k => dict_del Z.eqb d k) (remove q) modified in
  Ok (ChordFactors_init removed (qualifiers factors ++ [q])).

(** The end of [ChordFactors.__add__]: the items rebuilt in the order of
    [sorted(keys)]. *)
Definition sort_by_degree (d : dict Z Z) : dict Z Z :=
  sorted (fun a b : Z * Z => fst a <? fst b) d.

(** [ChordFactors.__add__(other)] for a single [ChordQualifier]. *)
Definition ChordFactors_add (self : ChordFactors) (other : ChordQualifier) : result ChordFactors :=
  let* output_factors := apply other self in
  Ok (ChordFactors_init (sort_by_degree (items output_factors)) (qualifiers output_factors)).

(** [ChordFactors.__add__(other)] for a list of them. *)
Definition ChordFactors_add_list (self : ChordFactors) (other : list ChordQualifier)
  : result ChordFactors :=
  let* output_factors := foldM (fun out qual => apply qual out) other (copy self) in
  Ok (ChordFactors_init (sort_by_degree (items output_factors)) (qualifiers output_factors)).

(** [ChordFactors.distance(other)]: what must be done to [other] to make it [self]. *)
Definition distance_step (other : ChordFactors) (acc : dict Z Z * dict Z Z) (item : Z * Z)
  : dict Z Z * dict Z Z :=
  let '(degree, offset) := item in
  match dict_get Z.eqb (items other) degree with
  | None => (dict_set Z.eqb (fst acc) degree offset, snd acc)
  | Some other_offset =>
      if negb (offset =? other_offset)
      then (fst acc, dict_set Z.eqb (snd acc) degree (offset - other_offset))
      else acc
  end.

Definition distance (self other : ChordFactors) : ChordQualifier :=
  let '(add, modify) := fold_left (distance_step other) (items self) ([], []) in
  let remove := filter (fun degree => has_degree self degree = false) (degrees other) in
  {| add := add; modify := modify; remove := remove |}.

(** [ChordFactors.__eq__] is the dictionary's: the qualifier history plays no part. *)
Definition ChordFactors_eq (a b : ChordFactors) : bool := dict_eq (items a) (items b).

(** [ChordFactors.__hash__]: [hash(tuple(self))].  Iterating a dictionary
    yields its keys, so the tuple is the tuple of degrees.  [hash] is
    Python's built-in on tuples of integers. *)
Definition ChordFactors_hash (hash : list Z -> Z) (self : ChordFactors) : Z :=
  hash (degrees self).

(** Modelled from the claim's words: hashing "by the tuple of its (degree,
    offset) items", for comparison with [ChordFactors_hash]. *)
Definition hash_by_items (hash_items : list (Z * Z) -> Z) (self : ChordFactors) : Z :=
  hash_items (items self).

(** A [ChordFactors] used as a dictionary key: same hash and [==]. *)
Definition ChordFactors_key_match (hash : list Z -> Z) (a b : ChordFactors) : bool :=
  (ChordFactors_hash hash a =? ChordFactors_hash hash b) && ChordFactors_eq a b.

(** The vocabulary of [chords.py]: [chord_names_by_rarity] as written,
    [ordered_modifier_names], [modifier_names_by_rarity], [ind_modifiers]
    and [unmodifiable_chords]. *)
Definition base_chord_names_by_rarity : dict Z (list string) :=
  [ (0, [""; "m"; "7"; "5"]);
    (1, ["m7"; "maj7"; "dim"; "sus4"; "sus2"; "add9"]);
    (2, ["mmaj7"; "dim7"; "hdim7"; "6"; "m6"; "aug7"; "9"; "maj9"; "m9"; "aug"]);
    (3, ["7b5"; "7#9"; "add4"; "7b9"; "dim9"; "dmin9"; "mmaj9"; "hdmin9"; "dimM7"; "augM7";
         "11"; "13"; "m11"; "m13"; "maj11"; "maj13"]);
    (4, ["add11"; "add13"; "dim11"; "dim13"; "mmaj11"; "mmaj13"]);
    (5, []); (6, []); (7, []) ].

Definition ordered_modifier_names : list string := ["sus4"; "sus2"; "add9"; "add11"; "add13"].

Definition modifier_names_by_rarity : dict Z (list string) :=
  [ (1, ["sus4"; "sus2"]); (2, ["add9"]); (3, ["add11"]); (4, ["add13"]) ].

Definition ind_modifiers : list string := ["sus4"; "sus2"; "5"].

Definition unmodifiable_chords : list string :=
  [""; "5"; "(no5)"; "add4"; "add9"; "add11"; "add13"].

Definition str_eqb (a b : string) : bool := bool_decide (a = b).

(** Modelled from the spec: [util.unpack_and_reverse_dict], which is absent:
    of a dictionary from tiers to lists of names, the dictionary from each
    name to its tier ("a rarity tier per name"). *)
Definition unpack_and_reverse_dict (by_rarity : dict Z (list string)) : dict string Z :=
  fold_left (fun d entry =>
               fold_left (fun d name => dict_set str_eqb d name (fst entry)) (snd entry) d)
            by_rarity [].

(** Modelled from the spec: [util.reverse_dict], which is absent: the
    dictionary read from values to keys ("bidirectional name-structure
    lookup"). *)
Definition reverse_dict {K : Type} (d : dict K string) : dict string K :=
  fold_left (fun r entry => dict_set str_eqb r (snd entry) (fst entry)) d [].

(** An object held by a module-level dictionary of [qualities.py]: Python's
    [is] compares the [address]. *)
Record qualifier_object : Type := {
  address : positive;
  referent : ChordQualifier
}.

(** The rest of what [chords.py] uses of the absent [qualities.py]:
    [parse_chord_qualifiers], the list [qualifier_aliases['maj']], the
    dictionary [chord_modifiers] (read by name; [None] is a missing key),
    the method [ChordQualifier.valid_on], and the test [q in names] of a
    qualifier against a set of strings, which [ChordQualifier.__hash__] and
    [__eq__] decide. *)
Record qualifiers_module : Type := {
  parse_chord_qualifiers : string -> result (list ChordQualifier);
  qualifier_aliases_maj : list string;
  chord_modifiers : string -> option qualifier_object;
  valid_on : ChordQualifier -> ChordFactors -> bool;
  qualifier_in : ChordQualifier -> list string -> bool
}.

Section WithCollaborators.

Context (qualities : qualities_module) (qualifiers_api : qualifiers_module).
Context (hash : list Z -> Z).

Local Abbreviation Interval := (Intervals.Interval qualities).
Local Abbreviation IntervalList := (Intervals.IntervalList qualities).

(** [ChordFactors.to_intervals()] without [.sorted()], as [_parse_input] builds them. *)
Definition intervals_from_factors (factors : ChordFactors) : result IntervalList :=
  let* intervals := mapM (fun kv => Intervals.from_degree qualities (fst kv) (snd kv))
                         (items factors) in
  Ok (Intervals.IntervalList_init qualities intervals).

(** [ChordFactors.to_intervals()]. *)
Definition to_intervals (factors : ChordFactors) : result IntervalList :=
  let* intervals := intervals_from_factors factors in
  Ok (Intervals.IntervalList_sorted qualities intervals).

(** [AbstractChord]: the attributes [__init__] sets ([interval_factors],
    the [util.reverse_dict] of [factor_intervals], apart). *)
Record AbstractChord : Type := {
  factors : ChordFactors;
  root_intervals : IntervalList;
  inversion : Z;
  factor_intervals : dict Z Interval;
  intervals : IntervalList;
  quality : Quality qualities
}.

(** The slash of a chord name, in [_parse_input] with [_allow_note_name=False]:
    the name and the inversion it gives. *)
Definition parse_slash (name : string) (inversion inversion_degree : option Z)
  : result (string * option Z) :=
  if contains_char slash name || contains_char backslash name then
    check assert (bool_decide (inversion = None) && bool_decide (inversion_degree = None))
                 "Parsed slash chord as denoting inversion, but received mutually exclusive inversion arg" in
    match split_char slash (replace_char backslash slash name) with
    | [name; inversion_str] =>
        if isnumeric inversion_str then Ok (name, Some (int inversion_str))
        else Raise (AssertionError "String inversions only allowed for non-AbstractChords")
    | _ => Raise (ValueError "too many values to unpack")
    end
  else Ok (name, inversion).

(** The factors a chord name stands for: the major triad for [''], ['maj']
    and its aliases, else the major triad plus the qualifiers parsed from
    the name. *)
Definition factors_from_name (name : string) : result ChordFactors :=
  if bool_decide (name = "") || str_in name (qualifier_aliases_maj qualifiers_api ++ ["maj"])
  then Ok ChordFactors_default
  else let* qualifiers_from_name := parse_chord_qualifiers qualifiers_api name in
       ChordFactors_add_list ChordFactors_default qualifiers_from_name.

(** [for x, deg in enumerate(sorted(factors.keys())): if inversion_degree == deg: ...]. *)
Fixpoint index_of (x : Z) (l : list Z) (at_ : nat) : option nat :=
  match l with
  | [] => None
  | y :: l' => if x =? y then Some at_ else index_of x l' (S at_)
  end.

(** [AbstractChord._parse_input(name, factors, None, inversion,
    inversion_degree, None)]: the chord is given by name or by factors, with
    an integer inversion.  (The [intervals] and [qualifiers] keywords are
    [None].) *)
Definition _parse_input (name : option string) (factors : option ChordFactors)
    (inversion inversion_degree : option Z) : result (ChordFactors * IntervalList * Z) :=
  let* resolved :=
    match name, factors with
    | None, None => Ok (ChordFactors_default, inversion)
    | Some _, Some _ => Raise (AssertionError "")
    | Some name, None =>
        let* split := parse_slash name inversion inversion_degree in
        let* factors := factors_from_name (fst split) in
        Ok (factors, snd split)
    | None, Some factors => Ok (factors, inversion)
    end in
  let factors := fst resolved in
  let inversion := snd resolved in
  let* intervals := intervals_from_factors factors in
  let inversion :=
    match inversion_degree with
    | Some inversion_degree =>
        match index_of inversion_degree (sorted Z.ltb (degrees factors)) 0 with
        | Some x => Some (Z.of_nat x)
        | None => inversion
        end
    | None => inversion
    end in
  let* inversion :=
    match inversion with
    | Some inversion =>
        if negb (inversion =? 0) then
          check assert ((0 <? inversion) && (inversion <=? order factors - 1))
                       "invalid inversion number" in
          Ok inversion
        else Ok 0
    | None => Ok 0
    end in
  Ok (factors, Intervals.IntervalList_sorted qualities intervals, inversion).

(** [AbstractChord._determine_quality], on [self.factors] and [self.factor_intervals]. *)
Definition _determine_quality (factors : ChordFactors) (factor_intervals : dict Z Interval)
  : result (Quality qualities) :=
  if negb (has_degree factors 3) then
    let* fifth := dict_getitem Z.eqb factor_intervals 5 in
    Ok (Intervals.quality fifth)
  else
    let* third := dict_getitem Z.eqb factor_intervals 3 in
    if major qualities (Intervals.quality third) then
      if has_degree factors 5 then
        let* fifth := dict_getitem Z.eqb factor_intervals 5 in
        Ok (if augmented qualities (Intervals.quality fifth)
            then Augmented qualities else Major qualities)
      else Ok (Major qualities)
    else if minor qualities (Intervals.quality third) then
      if has_degree factors 5 then
        let* fifth := dict_getitem Z.eqb factor_intervals 5 in
        Ok (if diminished qualities (Intervals.quality fifth)
            then Diminished qualities else Minor qualities)
      else Ok (Minor qualities)
    else Ok (Intervals.quality third).

(** [{i.extended_degree: i for i in self.root_intervals}]. *)
Definition factor_intervals_of (root_intervals : IntervalList) : dict Z Interval :=
  fold_left (fun d i => dict_set Z.eqb d (Intervals.extended_degree i) i)
            (Intervals.items root_intervals) [].

(** [AbstractChord.__init__(name, factors, inversion=, inversion_degree=)]. *)
Definition AbstractChord_init (name : option string) (factors : option ChordFactors)
    (inversion inversion_degree : option Z) : result AbstractChord :=
  let* parsed := _parse_input name factors inversion inversion_degree in
  let '(factors, root_intervals, inversion) := parsed in
  let factor_intervals := factor_intervals_of root_intervals in
  let* intervals :=
    if negb (inversion =? 0)
    then Intervals.IntervalList_invert qualities root_intervals inversion
    else Ok root_intervals in
  let* quality := _determine_quality factors factor_intervals in
  Ok {| factors := factors; root_intervals := root_intervals; inversion := inversion;
        factor_intervals := factor_intervals; intervals := intervals; quality := quality |}.

(** [Chord]: what [Chord.__init__] derives from the factors.  The notes, the
    bass and the spelling preference need [notes.py] and are left out; the
    root is kept as the caller gave it. *)
Record Chord : Type := {
  root : string;
  chord_factors : ChordFactors;
  chord_root_intervals : IntervalList;
  chord_factor_intervals : dict Z Interval;
  chord_inversion : Z;
  chord_quality : Quality qualities
}.

(** The assignment to [self.quality] in [Chord.__init__]. *)
Definition Chord_quality (factors : ChordFactors) (factor_intervals : dict Z Interval)
  : result (Quality qualities) :=
  if negb (has_degree factors 3) then Ok (Perfect qualities)
  else let* third := dict_getitem Z.eqb factor_intervals 3 in
       Ok (Intervals.quality third).

(** [Chord(root=root, factors=factors)]: [Chord.__init__] does not call
    [AbstractChord.__init__]; it calls [_parse_input] and sets the attributes
    itself. *)
Definition Chord_init (root : string) (factors : ChordFactors) : result Chord :=
  let* parsed := _parse_input None (Some factors) None None in
  let '(factors, root_intervals, inversion) := parsed in
  let factor_intervals := factor_intervals_of root_intervals in
  let* quality := Chord_quality factors factor_intervals in
  Ok {| root := root; chord_factors := factors; chord_root_intervals := root_intervals;
        chord_factor_intervals := factor_intervals; chord_inversion := inversion;
        chord_quality := quality |}.

(** *** The naming registry *)

Definition factors_key : ChordFactors -> ChordFactors -> bool := ChordFactors_key_match hash.
Definition intervals_key : IntervalList -> IntervalList -> bool :=
  Intervals.IntervalList_key_match qualities.

(** The module-level state of [chords.py] once it is imported. *)
Record registry : Type := {
  factors_to_chord_names : dict ChordFactors string;
  intervals_to_chord_names : dict IntervalList string;
  chord_names_by_rarity : dict Z (list string);
  chord_name_rarities : dict string Z;
  chord_names_to_factors : dict string ChordFactors;
  chord_names_to_intervals : dict string IntervalList
}.

(** The three dictionaries the two loops write. *)
Record build_state : Type := {
  f2n : dict ChordFactors string;
  i2n : dict IntervalList string;
  new_rarities : dict Z (list string)
}.

Definition initial_state : build_state :=
  {| f2n := []; i2n := [];
     new_rarities := map (fun i => (i, [])) [0; 1; 2; 3; 4; 5; 6; 7] |}.

(** The body of the first loop, for one [chord_name]. *)
Definition register_base (state : build_state) (chord_name : string) : result build_state :=
  let* base_chord := AbstractChord_init (Some chord_name) None None None in
  if dict_contains factors_key (f2n state) (factors base_chord)
     || dict_contains intervals_key (i2n state) (intervals base_chord)
  then
    (* the clash is logged: the message reads intervals_to_chord_names[base_chord.intervals] *)
    check dict_getitem intervals_key (i2n state) (intervals base_chord) in
    Ok state
  else
    Ok {| f2n := dict_set factors_key (f2n state) (factors base_chord) chord_name;
          i2n := dict_set intervals_key (i2n state) (intervals base_chord) chord_name;
          new_rarities := new_rarities state |}.

Definition lookup_modifier (mod_name : string) : result qualifier_object :=
  match chord_modifiers qualifiers_api mod_name with
  | Some modifier => Ok modifier
  | None => Raise KeyError
  end.

(** The body of the innermost loop, for one [mod_name2].  [modifier2] is
    fetched under [mod_name], as the source has it; past the three tests the
    next statement reads [mod2_name], a name that is never bound. *)
Definition register_second_modifier (base_chord : AbstractChord) (mod_name : string)
    (modifier : qualifier_object) (altered_factors : ChordFactors)
    (state : build_state) (mod_name2 : string) : result build_state :=
  let* modifier2 := lookup_modifier mod_name in
  if negb (address modifier2 =? address modifier)%positive
     && valid_on qualifiers_api (referent modifier2) altered_factors then
    if negb (qualifier_in qualifiers_api (referent modifier2) ind_modifiers
             && minor qualities (quality base_chord)) then
      if negb (str_eqb mod_name "(no5)") then Raise (NameError "mod2_name")
      else Ok state
    else Ok state
  else Ok state.

(** The body of the loop over [ordered_modifier_names], for one [mod_name].
    [rarities] is [chord_name_rarities] as first built. *)
Definition register_modifier (rarities : dict string Z) (chord_name : string)
    (base_chord : AbstractChord) (state : build_state) (mod_name : string)
  : result build_state :=
  let* modifier := lookup_modifier mod_name in
  if valid_on qualifiers_api (referent modifier) (factors base_chord) then
    if negb (qualifier_in qualifiers_api (referent modifier) ind_modifiers
             && minor qualities (quality base_chord)) then
      let altered_name := chord_name +:+ mod_name in
      let* altered_factors := ChordFactors_add (factors base_chord) (referent modifier) in
      let* altered_intervals := to_intervals altered_factors in
      if negb (dict_contains factors_key (f2n state) altered_factors)
         && negb (dict_contains intervals_key (i2n state) altered_intervals) then
        let f2n' := dict_set factors_key (f2n state) altered_factors altered_name in
        let i2n' := dict_set intervals_key (i2n state) altered_intervals altered_name in
        let* mod_rarity :=
          dict_getitem str_eqb (unpack_and_reverse_dict modifier_names_by_rarity) mod_name in
        let* base_rarity := dict_getitem str_eqb rarities chord_name in
        let altered_rarity := base_rarity + mod_rarity in
        let* names := dict_getitem Z.eqb (new_rarities state) altered_rarity in
        let state' :=
          {| f2n := f2n'; i2n := i2n';
             new_rarities := dict_set Z.eqb (new_rarities state) altered_rarity
                                      (names ++ [altered_name]) |} in
        foldM (register_second_modifier base_chord mod_name modifier altered_factors)
              ordered_modifier_names state'
      else Ok state
    else Ok state
  else Ok state.

(** The body of the second loop, for one [chord_name]. *)
Definition register_modifiers (rarities : dict string Z) (state : build_state)
    (chord_name : string) : result build_state :=
  if negb (str_in chord_name unmodifiable_chords) then
    let* base_chord := AbstractChord_init (Some chord_name) None None None in
    foldM (register_modifier rarities chord_name base_chord) ordered_modifier_names state
  else Ok state.

Definition all_base_names : list string := concat (values base_chord_names_by_rarity).

(** [chord_names_by_rarity[r].extend(names)] for every item of [new_rarities]. *)
Definition extend_rarities (by_rarity : dict Z (list string)) (entry : Z * list string)
  : result (dict Z (list string)) :=
  let* names := dict_getitem Z.eqb by_rarity (fst entry) in
  Ok (dict_set Z.eqb by_rarity (fst entry) (names ++ snd entry)).

(** The module-level code of [chords.py] from [chord_names_by_rarity] to
    [chord_names_to_intervals]. *)
Definition build_registry : result registry :=
  let rarities := unpack_and_reverse_dict base_chord_names_by_rarity in
  let* state := foldM register_base all_base_names initial_state in
  let* state := foldM (register_modifiers rarities) all_base_names state in
  let* by_rarity := foldM extend_rarities (new_rarities state) base_chord_names_by_rarity in
  Ok {| factors_to_chord_names := f2n state;
        intervals_to_chord_names := i2n state;
        chord_names_by_rarity := by_rarity;
        chord_name_rarities := unpack_and_reverse_dict by_rarity;
        chord_names_to_factors := reverse_dict (f2n state);
        chord_names_to_intervals := reverse_dict (i2n state) |}.

(** *** Suffix, rarity and likelihood of an [AbstractChord] *)

Definition _inv_string (self : AbstractChord) : string :=
  if negb (inversion self =? 0) then "/" +:+ str (inversion self) else "".

(** [AbstractChord.get_suffix(inversion)].  An [AbstractChord] has neither a
    [root] nor an [assigned_name] attribute: no method of the class sets
    one.  (The third branch first stops in the debugger, [pdb.set_trace()].) *)
Definition get_suffix (reg : registry) (self : AbstractChord) (inversion : bool)
  : result string :=
  let inv_string := if inversion then _inv_string self else "" in
  match dict_get factors_key (factors_to_chord_names reg) (factors self) with
  | Some name => Ok (name +:+ inv_string)
  | None =>
  match dict_get intervals_key (intervals_to_chord_names reg) (root_intervals self) with
  | Some name => Ok (name +:+ inv_string)
  | None =>
  match dict_get intervals_key (intervals_to_chord_names reg) (intervals self) with
  | Some name => Raise (AttributeError "root")
  | None =>
      let* no5 :=
        if negb (has_degree (factors self) 5) then
          let* p5 := Intervals.P5 qualities in
          let intervals_with_5 :=
            Intervals.IntervalList_init qualities
              (sorted (Intervals.Interval_lt qualities)
                      (Intervals.items (root_intervals self) ++ [p5])) in
          match dict_get intervals_key (intervals_to_chord_names reg) intervals_with_5 with
          | Some name => Ok (Some (name +:+ "(no5)" +:+ inv_string))
          | None => Ok None
          end
        else Ok None in
      match no5 with
      | Some suffix => Ok suffix
      | None =>
          let* flattened := Intervals.IntervalList_flatten qualities (intervals self) in
          match dict_get intervals_key (intervals_to_chord_names reg) flattened with
          | Some name => Ok name
          | None =>
              if ChordFactors_eq (factors self) _major_triad then Ok ""
              else Raise (AttributeError "assigned_name")
          end
      end
  end end end.

(** The property [AbstractChord.suffix]. *)
Definition suffix (reg : registry) (self : AbstractChord) : result string :=
  get_suffix reg self true.

(** The property [AbstractChord.rarity]. *)
Definition rarity (reg : registry) (self : AbstractChord) : result Z :=
  let* name := dict_getitem factors_key (factors_to_chord_names reg) (factors self) in
  dict_getitem str_eqb (chord_name_rarities reg) name.

(** The property [AbstractChord.likelihood], a float. *)
Definition likelihood (reg : registry) (self : AbstractChord) : result Q :=
  let* r := rarity reg self in
  let* l_score := int_truediv (10 - r) 10 in
  Ok (if negb (inversion self =? 0) then float_sub l_score (binary64 (15 # 100))
      else l_score).

End WithCollaborators.

(** *** The matcher *)

(** The four scores kept for a candidate, floats. *)
Record match_stats : Type := {
  recall : Q;
  precision : Q;
  likelihood_score : Q;
  consonance : Q
}.

Record match_flags : Type := {
  assume_root : bool;
  require_root : bool;
  invert : bool;
  upweight_third : bool;
  downweight_fifth : bool
}.

Definition Qge_bool (a b : Q) : bool := Qle_bool b a.
Definition Qlt_bool (a b : Q) : bool := negb (Qle_bool b a).

(** [a < b] on the key tuples [(recall, precision, likelihood, consonance)]:
    the first pair of unequal components decides. *)
Definition key_lt (a b : match_stats) : bool :=
  if negb (Qeq_bool (recall a) (recall b)) then Qlt_bool (recall a) (recall b)
  else if negb (Qeq_bool (precision a) (precision b)) then Qlt_bool (precision a) (precision b)
  else if negb (Qeq_bool (likelihood_score a) (likelihood_score b))
       then Qlt_bool (likelihood_score a) (likelihood_score b)
  else Qlt_bool (consonance a) (consonance b).

Section Matcher.

(** What the loop of [matching_chords] takes from [notes.py], [util.py] and
    the [Chord] methods that need them: the type of notes with
    [NoteList.unique]; the candidate [Chord] for a root and a factor-set,
    after the inversion over [note_list[0]] when there is one, with its
    likelihood after the penalty; the test [candidate.bass == note_list[0]];
    [util.precision_recall] under the weights the flags ask for;
    [candidate.consonance]; the key a [Chord] is found by in a dictionary
    ([Chord.__hash__] and [__eq__]); and [round]. *)
Context {Note candidate : Type}.
Context (unique : list Note -> list Note).
Context (candidate_for : match_flags -> list Note -> Note -> ChordFactors -> result (candidate * Q)).
Context (bass_is_first : candidate -> list Note -> bool).
Context (precision_recall : match_flags -> list Note -> candidate -> result (Q * Q)).
Context (consonance_of : candidate -> result Q).
Context (candidate_key : candidate -> candidate -> bool).
Context (round : Q -> Z -> Q).

(** The body of the innermost loop, for the root [n] and one [chord_name]. *)
Definition try_candidate (names_to_factors : dict string ChordFactors)
    (flags : match_flags) (min_recall min_precision min_likelihood : Q)
    (note_list : list Note) (n : Note)
    (candidates : dict candidate match_stats) (chord_name : string)
  : result (dict candidate match_stats) :=
  let* cand_factors := dict_getitem str_eqb names_to_factors chord_name in
  let* built := candidate_for flags note_list n cand_factors in
  let '(cand, likelihood) := built in
  if negb (require_root flags) || bass_is_first cand note_list then
    let* scores := precision_recall flags (unique note_list) cand in
    let '(precision, recall) := scores in
    let* consonance := consonance_of cand in
    if Qge_bool recall min_recall && Qge_bool precision min_precision
       && Qge_bool likelihood min_likelihood
    then Ok (dict_set candidate_key candidates cand
               {| recall := round recall 2; precision := round precision 2;
                  likelihood_score := round likelihood 2;
                  consonance := round consonance 3 |})
    else Ok candidates
  else Ok candidates.

(** The three loops of [matching_chords]. *)
Definition collect_candidates (names_by_rarity : dict Z (list string))
    (names_to_factors : dict string ChordFactors)
    (flags : match_flags) (min_recall min_precision min_likelihood : Q)
    (note_list : list Note) : result (dict candidate match_stats) :=
  foldM (fun candidates n =>
           foldM (fun candidates entry =>
                    foldM (try_candidate names_to_factors flags
                             min_recall min_precision min_likelihood note_list n)
                          (snd entry) candidates)
                 names_by_rarity candidates)
        (unique note_list) [].

(** [sorted(candidates, key=..., reverse=True)[:max_results]], each
    candidate with its scores. *)
Definition sorted_cands (candidates : dict candidate match_stats) (max_results : Z)
  : dict candidate match_stats :=
  slice_to (sorted (fun y x : candidate * match_stats => key_lt (snd x) (snd y)) candidates)
           max_results.

(** [matching_chords(note_list, display, ...)]: with [display] the table is
    printed and nothing is returned, written [None]. *)
Definition matching_chords (names_by_rarity : dict Z (list string))
    (names_to_factors : dict string ChordFactors)
    (note_list : list Note) (display : bool) (flags : match_flags)
    (min_recall min_precision min_likelihood : Q) (max_results : Z)
  : result (option (dict candidate match_stats)) :=
  let* candidates := collect_candidates names_by_rarity names_to_factors flags
                       min_recall min_precision min_likelihood note_list in
  let ranked := sorted_cands candidates max_results in
  if display then Ok None else Ok (Some ranked).

(** The keyword arguments a caller may pass on to [matching_chords]. *)
Record kwargs : Type := {
  kw_assume_root : option bool;
  kw_require_root : option bool;
  kw_invert : option bool;
  kw_upweight_third : option bool;
  kw_downweight_fifth : option bool;
  kw_min_recall : option Q;
  kw_min_precision : option Q;
  kw_min_likelihood : option Q;
  kw_max_results : option Z
}.

(** [matching_chords(note_list, display=display, **kwargs)]: a keyword left
    out takes the default of the signature. *)
Definition matching_chords_kw (names_by_rarity : dict Z (list string))
    (names_to_factors : dict string ChordFactors)
    (note_list : list Note) (display : bool) (kw : kwargs)
  : result (option (dict candidate match_stats)) :=
  matching_chords names_by_rarity names_to_factors note_list display
    {| assume_root := default true (kw_assume_root kw);
       require_root := default true (kw_require_root kw);
       invert := default true (kw_invert kw);
       upweight_third := default true (kw_upweight_third kw);
       downweight_fifth := default true (kw_downweight_fifth kw) |}
    (default (binary64 (8 # 10)) (kw_min_recall kw))
    (default (binary64 (7 # 10)) (kw_min_precision kw))
    (default (binary64 (5 # 10)) (kw_min_likelihood kw))
    (default 8 (kw_max_results kw)).

(** The loop of [most_likely_chord] over the three threshold keywords. *)
Definition relax_thresholds (kw : kwargs) : kwargs :=
  {| kw_assume_root := kw_assume_root kw;
     kw_require_root := kw_require_root kw;
     kw_invert := kw_invert kw;
     kw_upweight_third := kw_upweight_third kw;
     kw_downweight_fifth := kw_downweight_fifth kw;
     kw_min_recall := Some (default 0%Q (kw_min_recall kw));
     kw_min_precision := Some (default 0%Q (kw_min_precision kw));
     kw_min_likelihood := Some (default 0%Q (kw_min_likelihood kw));
     kw_max_results := kw_max_results kw |}.

(** [most_likely_chord(note_list, stats, **kwargs)]. *)
Definition most_likely_chord (names_by_rarity : dict Z (list string))
    (names_to_factors : dict string ChordFactors)
    (note_list : list Note) (stats : bool) (kw : kwargs)
  : result (candidate * option match_stats) :=
  let* returned := matching_chords_kw names_by_rarity names_to_factors note_list false
                     (relax_thresholds kw) in
  match returned with
  | Some candidates =>
      let* best := getitem candidates 0 in
      Ok (fst best, if stats then Some (snd best) else None)
  | None => Raise TypeError
  end.

End Matcher.

End Chords.

(** ** Further methods of [intervals.py] *)

Module IntervalMethods.

Section WithQualities.

Context (qualities : qualities_module).

Local Abbreviation Interval := (Intervals.Interval qualities).
Local Abbreviation IntervalList := (Intervals.IntervalList qualities).

(** [Interval(other, degree=degree)] for an [Interval] object [other]: the
    first lines of [Interval.__init__], which read the value and, unless a
    degree is given, the extended degree of [other]. *)
Definition Interval_recast (other : Interval) (degree : option Z) : result Interval :=
  let degree := match degree with
                | None => Intervals.extended_degree other
                | Some degree => degree
                end in
  Intervals.Interval_init qualities (Intervals.value other) (Some degree).

(** [Interval.__sub__(other)] for an [Interval]: [self + (-other)]. *)
Definition Interval_sub (self other : Interval) : result Interval :=
  let* negated := Intervals.Interval_neg qualities other in
  Intervals.Interval_add qualities self (Intervals.value negated).

(** [Interval.offset_from_degree(degree)]. *)
Definition offset_from_degree (self : Interval) (degree : Z) : result Z :=
  check assert (0 <? degree) "" in
  let deg_oct := (degree - 1) / 7 in
  let mod_degree := (degree - 1) mod 7 + 1 in
  let* d := Intervals.default_degree_intervals mod_degree in
  let default_value := d + 12 * deg_oct in
  Ok (Intervals.width self - default_value).

(** [a == b] for two lists of intervals: the lists' lengths agree and the
    items are equal one by one, by [Interval.__eq__] (their values). *)
Definition list_eq (a b : list Interval) : bool :=
  bool_decide (Intervals.values_of qualities a = Intervals.values_of qualities b).

(** [IntervalList.strip]. *)
Definition strip (self : IntervalList) : result IntervalList :=
  let* first := getitem (Intervals.items self) 0 in
  let new_intervals :=
    if Intervals.imod first =? 0 then slice_from (Intervals.items self) 1
    else Intervals.items self in
  let* last := getitem_last (Intervals.items self) in
  let new_intervals :=
    if Intervals.imod last =? 0 then slice_to new_intervals (-1) else new_intervals in
  Ok (Intervals.IntervalList_init qualities new_intervals).

(** [IntervalList.pad(left, right)]. *)
Definition pad (self : IntervalList) (left right : bool) : result IntervalList :=
  check assert (list_eq (Intervals.items self)
                        (Intervals.items (Intervals.IntervalList_sorted qualities self)))
               "non-sorted IntervalLists should NOT be padded" in
  let* first := getitem (Intervals.items self) 0 in
  let* new_intervals :=
    if negb (Intervals.imod first =? 0) && left
    then let* unison := Intervals.Interval_init qualities 0 None in
         Ok (unison :: Intervals.items self)
    else Ok (Intervals.items self) in
  let* last := getitem_last (Intervals.items self) in
  let* new_intervals :=
    if negb (Intervals.imod last =? 0) && right
    then let octave_span := Intervals.octave_span last + 1 in
         let* octave := Intervals.Interval_init qualities (12 * octave_span) None in
         Ok (new_intervals ++ [octave])
    else Ok new_intervals in
  Ok (Intervals.IntervalList_init qualities new_intervals).

(** [IntervalList.stack]: the loop appends [i + interval_stack[-1]]. *)
Fixpoint stack_from (last : Interval) (l : list Interval) : result (list Interval) :=
  match l with
  | [] => Ok []
  | i :: l' =>
      let* sum := Intervals.Interval_add qualities i (Intervals.value last) in
      let* rest := stack_from sum l' in
      Ok (sum :: rest)
  end.

Definition stack (self : IntervalList) : result IntervalList :=
  match Intervals.items self with
  | [] => Ok (Intervals.IntervalList_init qualities [])
  | first :: rest =>
      let* sums := stack_from first rest in
      Ok (Intervals.IntervalList_init qualities (first :: sums))
  end.

(** [IntervalList.unstack]: the loop appends [self[i] - self[i-1]]. *)
Fixpoint unstack_from (previous : Interval) (l : list Interval) : result (list Interval) :=
  match l with
  | [] => Ok []
  | i :: l' =>
      let* difference := Interval_sub i previous in
      let* rest := unstack_from i l' in
      Ok (difference :: rest)
  end.

Definition unstack (self : IntervalList) : result IntervalList :=
  check assert (list_eq (Intervals.items self)
                        (Intervals.items (Intervals.IntervalList_sorted qualities self)))
               "Cannot unstack an un-ordered IntervalList" in
  match Intervals.items self with
  | [] => Ok (Intervals.IntervalList_init qualities [])
  | first :: rest =>
      let* differences := unstack_from first rest in
      Ok (Intervals.IntervalList_init qualities (first :: differences))
  end.

End WithQualities.

End IntervalMethods.

(** ** Further methods of [chords.py] *)

Module ChordMethods.

Section WithCollaborators.

Context (qualities : qualities_module) (qualifiers_api : Chords.qualifiers_module).

Local Abbreviation AbstractChord := (Chords.AbstractChord qualities).

(** [AbstractChord.__eq__(other)] for an [AbstractChord] [other]. *)
Definition AbstractChord_eq (self other : AbstractChord) : bool :=
  Chords.ChordFactors_eq (Chords.factors qualities self) (Chords.factors qualities other)
  && (Chords.inversion qualities self =? Chords.inversion qualities other).

(** [AbstractChord.__hash__]: [hash((tuple(self.factors.items()), self.inversion))],
    for Python's [hash] on such pairs. *)
Definition AbstractChord_hash (hash : list (Z * Z) * Z -> Z) (self : AbstractChord) : Z :=
  hash (Chords.items (Chords.factors qualities self), Chords.inversion qualities self).

(** [AbstractChord.invert(inversion, inversion_degree)]. *)
Definition AbstractChord_invert (self : AbstractChord) (inversion inversion_degree : option Z)
  : result AbstractChord :=
  Chords.AbstractChord_init qualities qualifiers_api None
    (Some (Chords.factors qualities self)) inversion inversion_degree.

End WithCollaborators.

End ChordMethods.

(** ** An instance of the absent modules

    The theorems below hold for every [qualities_module], every
    [qualifiers_module] and every [hash].  To run the embedding on concrete
    chords, this module gives one instance of them. *)

Module Conventional.

Import Chords.

(** Modelled from the spec: the [Quality] class of [qualities.py], which is
    absent: "quality (perfect/major/minor/augmented/diminished family)";
    "perfect-family degrees (1,4,5) use a perfect-offset quality scale
    (diminished/perfect/augmented); all others use a major-offset scale
    (diminished/minor/major/augmented)".  The spec names no quality for an
    offset off these scales; such an offset is a [KeyError] here. *)
Inductive quality_name : Type :=
| diminished_quality
| minor_quality
| perfect_quality
| major_quality
| augmented_quality.

Definition quality_from_offset_wrt_perfect (offset : Z) : result quality_name :=
  if offset =? -1 then Ok diminished_quality
  else if offset =? 0 then Ok perfect_quality
  else if offset =? 1 then Ok augmented_quality
  else Raise KeyError.

Definition quality_from_offset_wrt_major (offset : Z) : result quality_name :=
  if offset =? -2 then Ok diminished_quality
  else if offset =? -1 then Ok minor_quality
  else if offset =? 0 then Ok major_quality
  else if offset =? 1 then Ok augmented_quality
  else Raise KeyError.

Definition is_quality (a b : quality_name) : bool :=
  match a, b with
  | diminished_quality, diminished_quality
  | minor_quality, minor_quality
  | perfect_quality, perfect_quality
  | major_quality, major_quality
  | augmented_quality, augmented_quality => true
  | _, _ => false
  end.

Definition qualities : qualities_module :=
  {| Quality := quality_name;
     from_offset_wrt_perfect := quality_from_offset_wrt_perfect;
     from_offset_wrt_major := quality_from_offset_wrt_major;
     major := is_quality major_quality;
     minor := is_quality minor_quality;
     augmented := is_quality augmented_quality;
     diminished := is_quality diminished_quality;
     Perfect := perfect_quality;
     Major := major_quality;
     Minor := minor_quality;
     Augmented := augmented_quality;
     Diminished := diminished_quality |}.

Definition qualifier (add modify : dict Z Z) (remove : list Z) : ChordQualifier :=
  {| add := add; modify := modify; remove := remove |}.

Definition minor3 : dict Z Z := [(3, -1)].
Definition dim35 : dict Z Z := [(3, -1); (5, -1)].

(** Modelled from the spec: the tables [chord_types] and [chord_modifiers]
    of [qualities.py], which are absent.  The spec fixes
    [AbstractChord("maj7").factors == {1:0, 3:0, 5:0, 7:0}] and the reading
    of suspensions and additions; the other names follow the usual chord
    formulas.  They serve the examples only. *)
Definition chord_tokens : dict string ChordQualifier :=
  [ ("m", qualifier [] minor3 []);
    ("7", qualifier [(7, -1)] [] []);
    ("5", qualifier [] [] [3]);
    ("m7", qualifier [(7, -1)] minor3 []);
    ("maj7", qualifier [(7, 0)] [] []);
    ("dim", qualifier [] dim35 []);
    ("sus4", qualifier [(4, 0)] [] [3]);
    ("sus2", qualifier [(2, 0)] [] [3]);
    ("add9", qualifier [(9, 0)] [] []);
    ("mmaj7", qualifier [(7, 0)] minor3 []);
    ("dim7", qualifier [(7, -2)] dim35 []);
    ("hdim7", qualifier [(7, -1)] dim35 []);
    ("6", qualifier [(6, 0)] [] []);
    ("m6", qualifier [(6, 0)] minor3 []);
    ("aug7", qualifier [(7, -1)] [(5, 1)] []);
    ("9", qualifier [(7, -1); (9, 0)] [] []);
    ("maj9", qualifier [(7, 0); (9, 0)] [] []);
    ("m9", qualifier [(7, -1); (9, 0)] minor3 []);
    ("aug", qualifier [] [(5, 1)] []);
    ("7b5", qualifier [(7, -1)] [(5, -1)] []);
    ("7#9", qualifier [(7, -1); (9, 1)] [] []);
    ("add4", qualifier [(4, 0)] [] []);
    ("7b9", qualifier [(7, -1); (9, -1)] [] []);
    ("dim9", qualifier [(7, -2); (9, 0)] dim35 []);
    ("dmin9", qualifier [(7, -1); (9, -1)] [] []);
    ("mmaj9", qualifier [(7, 0); (9, 0)] minor3 []);
    ("hdmin9", qualifier [(7, -1); (9, -1)] dim35 []);
    ("dimM7", qualifier [(7, 0)] dim35 []);
    ("augM7", qualifier [(7, 0)] [(5, 1)] []);
    ("11", qualifier [(7, -1); (9, 0); (11, 0)] [] []);
    ("13", qualifier [(7, -1); (9, 0); (11, 0); (13, 0)] [] []);
    ("m11", qualifier [(7, -1); (9, 0); (11, 0)] minor3 []);
    ("m13", qualifier [(7, -1); (9, 0); (11, 0); (13, 0)] minor3 []);
    ("maj11", qualifier [(7, 0); (9, 0); (11, 0)] [] []);
    ("maj13", qualifier [(7, 0); (9, 0); (11, 0); (13, 0)] [] []);
    ("add11", qualifier [(11, 0)] [] []);
    ("add13", qualifier [(13, 0)] [] []);
    ("dim11", qualifier [(7, -2); (9, 0); (11, 0)] dim35 []);
    ("dim13", qualifier [(7, -2); (9, 0); (11, 0); (13, 0)] dim35 []);
    ("mmaj11", qualifier [(7, 0); (9, 0); (11, 0)] minor3 []);
    ("mmaj13", qualifier [(7, 0); (9, 0); (11, 0); (13, 0)] minor3 []) ].

(** [s] without the prefix [p]. *)
Fixpoint strip_prefix (p s : string) : option string :=
  match p, s with
  | EmptyString, _ => Some s
  | String a p', String b s' => if bool_decide (a = b) then strip_prefix p' s' else None
  | String _ _, EmptyString => None
  end.

(** The longest token that starts [s], with what follows it. *)
Definition longest_token (s : string) : option (ChordQualifier * string) :=
  fold_left
    (fun best entry =>
       match strip_prefix (fst entry) s with
       | Some rest =>
           match best with
           | Some (_, rest') =>
               if (String.length rest <? String.length rest')%nat
               then Some (snd entry, rest) else best
           | None => Some (snd entry, rest)
           end
       | None => best
       end)
    chord_tokens None.

(** Modelled from the spec: [parse_chord_qualifiers], which is absent:
    "given a chord-name suffix string, return an ordered list of
    ChordQualifier objects (or fail if the suffix is unrecognized)", read
    token by token, the longest token first. *)
Fixpoint parse_tokens (fuel : nat) (s : string) : result (list ChordQualifier) :=
  match s with
  | EmptyString => Ok []
  | _ =>
      match fuel with
      | O => Raise (ValueError "unrecognized suffix")
      | S fuel' =>
          match longest_token s with
          | Some (q, rest) => let* qs := parse_tokens fuel' rest in Ok (q :: qs)
          | None => Raise (ValueError "unrecognized suffix")
          end
      end
  end.

Definition parse_chord_qualifiers (s : string) : result (list ChordQualifier) :=
  parse_tokens (String.length s) s.

Fixpoint index_of_name (name : string) (names : list string) (at_ : positive) : option positive :=
  match names with
  | [] => None
  | n :: names' => if str_eqb name n then Some at_ else index_of_name name names' (Pos.succ at_)
  end.

(** The modifier objects, each at an address of its own. *)
Definition chord_modifiers (name : string) : option qualifier_object :=
  match index_of_name name ordered_modifier_names 1, dict_get str_eqb chord_tokens name with
  | Some a, Some q => Some {| address := a; referent := q |}
  | _, _ => None
  end.

(** Modelled from the spec: the validity predicate of a qualifier ("sus4 is
    invalid on a chord that already lacks a third", "add9 is invalid if
    degree 9 is already present"): what it adds is absent, what it modifies
    or removes is present. *)
Definition valid_on (q : ChordQualifier) (factors : ChordFactors) : bool :=
  forallb (fun kv => negb (has_degree factors (fst kv))) (add q)
  && forallb (fun kv => has_degree factors (fst kv)) (modify q)
  && forallb (has_degree factors) (remove q).

Definition qualifier_eqb (a b : ChordQualifier) : bool :=
  bool_decide (add a = add b) && bool_decide (modify a = modify b)
  && bool_decide (remove a = remove b).

(** A qualifier is found among names when one of them names it. *)
Definition qualifier_in (q : ChordQualifier) (names : list string) : bool :=
  existsb (fun name => match dict_get str_eqb chord_tokens name with
                       | Some q' => qualifier_eqb q q'
                       | None => false
                       end) names.

Definition qualifiers_api : qualifiers_module :=
  {| Chords.parse_chord_qualifiers := parse_chord_qualifiers;
     qualifier_aliases_maj := ["major"; "M"];
     Chords.chord_modifiers := chord_modifiers;
     Chords.valid_on := valid_on;
     Chords.qualifier_in := qualifier_in |}.

(** A hash of integer tuples, in the manner of a polynomial digest. *)
Definition hash (xs : list Z) : Z :=
  fold_left (fun acc x => acc * 31 + x) xs 7.

End Conventional.

(** ** Predicates of the specification *)

Module Spec.

(** "The supplied degree lies within 2 of the degree implied by the value's
    default mod-12 table": the default degree counts 7 more per octave of
    the value. *)
Definition degree_within_two (value degree : Z) : bool :=
  match Intervals.default_interval_degrees (Z.abs value mod 12) with
  | Ok d => Z.abs (degree - (d + 7 * (Z.abs value / 12))) <=? 2
  | Raise _ => false
  end.

(** What [Interval.__init__] asks of a supplied degree, all checks together. *)
Definition degree_accepted (value degree : Z) : bool :=
  let self_degree := degree - 7 * (Z.abs value / 12) in
  (0 <? degree)
  && (if Z.abs value mod 12 =? 0 then self_degree =? 1 else true)
  && (0 <? self_degree) && (self_degree <? 8)
  && degree_within_two value degree.

(** The names registry construction can register: a base name, or a
    modifiable base name followed by one modifier name. *)
Definition modifiable (chord_name : string) : bool :=
  negb (str_in chord_name Chords.unmodifiable_chords).

Definition altered_names : list string :=
  flat_map (fun base => map (fun mod_name => base +:+ mod_name) Chords.ordered_modifier_names)
           (List.filter modifiable Chords.all_base_names).

Definition generated_names : list string := Chords.all_base_names ++ altered_names.

(** The compound names of the claim: a modifiable base name followed by two
    modifier names. *)
Definition compound_names : list string :=
  flat_map (fun name => map (fun mod_name2 => name +:+ mod_name2) Chords.ordered_modifier_names)
           altered_names.

(** [name.endswith(ending)]. *)
Fixpoint ends_with (ending name : string) : bool :=
  if bool_decide (name = ending) then true
  else match name with
       | EmptyString => false
       | String _ rest => ends_with ending rest
       end.

Section MatcherSpec.

Context {Note candidate : Type}.
Context (unique : list Note -> list Note).
Context (candidate_for : Chords.match_flags -> list Note -> Note -> Chords.ChordFactors
                         -> result (candidate * Q)).
Context (bass_is_first : candidate -> list Note -> bool).
Context (precision_recall : Chords.match_flags -> list Note -> candidate -> result (Q * Q)).
Context (consonance_of : candidate -> result Q).
Context (candidate_key : candidate -> candidate -> bool).
Context (round : Q -> Z -> Q).
Context (names_by_rarity : dict Z (list string)).
Context (names_to_factors : dict string Chords.ChordFactors).
Context (flags : Chords.match_flags) (note_list : list Note).

(** A candidate chord of the search, with its scores: the chord built on a
    unique note of the input for the factors of a name of some rarity tier,
    accepted for its bass when the root is required, with its recall,
    precision, likelihood and consonance. *)
Definition scored (cand : candidate) (recall precision likelihood consonance : Q) : Prop :=
  exists n tier chord_name cand_factors,
    n ∈ unique note_list
    /\ tier ∈ names_by_rarity
    /\ chord_name ∈ snd tier
    /\ dict_getitem Chords.str_eqb names_to_factors chord_name = Ok cand_factors
    /\ candidate_for flags note_list n cand_factors = Ok (cand, likelihood)
    /\ negb (Chords.require_root flags) || bass_is_first cand note_list = true
    /\ precision_recall flags (unique note_list) cand = Ok (precision, recall)
    /\ consonance_of cand = Ok consonance.

(** A candidate "retained only if its recall is at least min_recall, its
    precision at least min_precision, and its likelihood at least
    min_likelihood": the entry stands for a candidate chord of the search
    that scored at or above the three minima; its key is that chord, or an
    earlier one equal to it as a dictionary key, and its scores are that
    chord's, rounded. *)
Definition retained (min_recall min_precision min_likelihood : Q)
    (entry : candidate * Chords.match_stats) : Prop :=
  exists cand recall precision likelihood consonance,
    scored cand recall precision likelihood consonance
    /\ (min_recall <= recall)%Q
    /\ (min_precision <= precision)%Q
    /\ (min_likelihood <= likelihood)%Q
    /\ (fst entry = cand \/ candidate_key (fst entry) cand = true)
    /\ snd entry = {| Chords.recall := round recall 2;
                      Chords.precision := round precision 2;
                      Chords.likelihood_score := round likelihood 2;
                      Chords.consonance := round consonance 3 |}.

(** The chord [cand] is a key of the dictionary [candidates]. *)
Definition is_candidate (candidates : dict candidate Chords.match_stats) (cand : candidate)
  : Prop :=
  exists entry, entry ∈ candidates
                /\ (fst entry = cand \/ candidate_key (fst entry) cand = true).

End MatcherSpec.

(** "Ranked by (recall, precision, likelihood, consonance) descending": no
    entry has a smaller key tuple than an entry that comes after it. *)
Definition ranked_descending {candidate : Type}
    (l : list (candidate * Chords.match_stats)) : Prop :=
  StronglySorted (fun a b => Chords.key_lt (snd a) (snd b) = false) l.

(** The name [name] is a base name followed by a modifier name, and [tier]
    is the sum of the tier the base name is listed under and the tier of the
    modifier name. *)
Definition altered_in_tier (name : string) (tier : Z) : Prop :=
  exists chord_name mod_name base_tier mod_tier base_names mod_names,
    name = chord_name +:+ mod_name
    /\ (base_tier, base_names) ∈ Chords.base_chord_names_by_rarity
    /\ chord_name ∈ base_names
    /\ (mod_tier, mod_names) ∈ Chords.modifier_names_by_rarity
    /\ mod_name ∈ mod_names
    /\ tier = base_tier + mod_tier.

End Spec.

(** ** Invariants of registry construction *)

Module Invariants.

Section WithCollaborators.

Context (qualities : qualities_module) (qualifiers_api : Chords.qualifiers_module).
Context (hash : list Z -> Z).

(** Every name the loops have written is a generated name; the names
    collected under a tier are altered names. *)
Definition names_invariant (state : Chords.build_state qualities) : Prop :=
  Forall (fun e => snd e ∈ Spec.generated_names) (Chords.f2n qualities state)
  /\ Forall (fun e => snd e ∈ Spec.generated_names) (Chords.i2n qualities state)
  /\ Forall (fun e => Forall (fun name => name ∈ Spec.altered_names) (snd e))
            (Chords.new_rarities qualities state).

(** The parser is compositional on the generated names: a modifiable base
    name followed by the name of a modifier that is valid on the base
    chord's factors stands for those factors with that modifier applied. *)
Definition compositional : Prop :=
  forall chord_name mod_name modifier base_factors altered_factors,
    chord_name ∈ Chords.all_base_names ->
    negb (str_in chord_name Chords.unmodifiable_chords) = true ->
    mod_name ∈ Chords.ordered_modifier_names ->
    Chords.chord_modifiers qualifiers_api mod_name = Some modifier ->
    Chords.factors_from_name qualifiers_api chord_name = Ok base_factors ->
    Chords.valid_on qualifiers_api (Chords.referent modifier) base_factors = true ->
    Chords.ChordFactors_add base_factors (Chords.referent modifier) = Ok altered_factors ->
    exists factors,
      Chords.factors_from_name qualifiers_api (chord_name +:+ mod_name) = Ok factors
      /\ Chords.items factors = Chords.items altered_factors.

(** Every factor-set the loops have written is a dictionary, is what its
    name stands for, and is found again under that name. *)
Definition factors_invariant (state : Chords.build_state qualities) : Prop :=
  Forall (fun e =>
            NoDup (Chords.degrees (fst e))
            /\ exists factors,
                 Chords.factors_from_name qualifiers_api (snd e) = Ok factors
                 /\ Chords.items factors = Chords.items (fst e))
         (Chords.f2n qualities state)
  /\ Forall (fun e =>
               dict_get (Chords.factors_key hash) (Chords.f2n qualities state) (fst e)
               = Some (snd e))
            (Chords.f2n qualities state).

End WithCollaborators.

End Invariants.

(** ** Chords used in the examples *)

Module Examples.

Definition major_triad_factors : Chords.ChordFactors :=
  Chords.ChordFactors_init [(1, 0); (3, 0); (5, 0)] [].

Definition minor_triad_factors : Chords.ChordFactors :=
  Chords.ChordFactors_init [(1, 0); (3, -1); (5, 0)] [].

(** [{1:0, 3:0, 5:0, 7:-1}] and [{1:0, 3:-1, 5:0, 9:0}]. *)
Definition dominant_seventh_factors : Chords.ChordFactors :=
  Chords.ChordFactors_init [(1, 0); (3, 0); (5, 0); (7, -1)] [].

Definition minor_add9_factors : Chords.ChordFactors :=
  Chords.ChordFactors_init [(1, 0); (3, -1); (5, 0); (9, 0)] [].

(** [{1:0, 3:0, 5:1}], [{1:0, 3:-1, 5:-1}] and [{1:0, 5:-1}]. *)
Definition augmented_triad_factors : Chords.ChordFactors :=
  Chords.ChordFactors_init [(1, 0); (3, 0); (5, 1)] [].

Definition diminished_triad_factors : Chords.ChordFactors :=
  Chords.ChordFactors_init [(1, 0); (3, -1); (5, -1)] [].

Definition diminished_fifth_factors : Chords.ChordFactors :=
  Chords.ChordFactors_init [(1, 0); (5, -1)] [].

(** [AbstractChord(factors=factors).quality] and
    [Chord(root='C', factors=factors).quality] in the instance. *)
Definition abstract_quality (factors : Chords.ChordFactors)
  : result Conventional.quality_name :=
  let* chord := Chords.AbstractChord_init Conventional.qualities Conventional.qualifiers_api
                  None (Some factors) None None in
  Ok (Chords.quality Conventional.qualities chord).

Definition rooted_quality (factors : Chords.ChordFactors)
  : result Conventional.quality_name :=
  let* chord := Chords.Chord_init Conventional.qualities Conventional.qualifiers_api
                  "C" factors in
  Ok (Chords.chord_quality Conventional.qualities chord).

(** The registry of the instance. *)
Abbreviation conventional_registry :=
  (Chords.build_registry Conventional.qualities Conventional.qualifiers_api Conventional.hash).

(** A reading of the registry of the instance: [f] of it, or [otherwise]
    had its construction raised. *)
Definition of_result {A B : Type} (r : result A) (f : A -> B) (otherwise : B) : B :=
  match r with
  | Ok a => f a
  | Raise _ => otherwise
  end.

(** The registry of the instance, evaluated once. *)
Definition conventional_registry_value : option (Chords.registry Conventional.qualities) :=
  Eval vm_compute in of_result conventional_registry Some None.

Definition of_registry {A : Type}
    (f : Chords.registry Conventional.qualities -> A) (otherwise : A) : A :=
  from_option f otherwise conventional_registry_value.

(** The factors registered under a name, and the result of removing their fifth. *)
Definition factors_named (reg : Chords.registry Conventional.qualities) (name : string)
  : option Chords.ChordFactors :=
  dict_get Chords.str_eqb (Chords.chord_names_to_factors Conventional.qualities reg) name.

Definition rarity_named (reg : Chords.registry Conventional.qualities) (name : string)
  : option Z :=
  dict_get Chords.str_eqb (Chords.chord_name_rarities Conventional.qualities reg) name.

Definition is_registered (reg : Chords.registry Conventional.qualities)
    (factors : Chords.ChordFactors) : bool :=
  dict_contains (Chords.factors_key Conventional.hash)
    (Chords.factors_to_chord_names Conventional.qualities reg) factors.

Definition with_qualifier (q : Chords.ChordQualifier) (factors : Chords.ChordFactors)
  : option Chords.ChordFactors :=
  match Chords.ChordFactors_add factors q with
  | Ok altered => Some altered
  | Raise _ => None
  end.

(** The check of [Invariants.compositional] on the instance, name by name. *)
Definition compositional_on (chord_name mod_name : string) : bool :=
  match Conventional.chord_modifiers mod_name,
        Chords.factors_from_name Conventional.qualifiers_api chord_name with
  | Some modifier, Ok base_factors =>
      match Chords.ChordFactors_add base_factors (Chords.referent modifier) with
      | Ok altered_factors =>
          match Chords.factors_from_name Conventional.qualifiers_api
                  (chord_name +:+ mod_name) with
          | Ok factors => bool_decide (Chords.items factors = Chords.items altered_factors)
          | Raise _ => false
          end
      | Raise _ => true
      end
  | _, _ => true
  end.

(** One registered name at every inversion index of its chord: the chord
    [AbstractChord(name, inversion=i)] is built and its suffix is the name
    with the marker. *)
Definition round_trips (reg : Chords.registry Conventional.qualities)
    (entry : Chords.ChordFactors * string) : bool :=
  forallb (fun i : nat =>
             match Chords.AbstractChord_init Conventional.qualities
                     Conventional.qualifiers_api (Some (snd entry)) None
                     (Some (Z.of_nat i)) None with
             | Ok chord =>
                 match Chords.suffix Conventional.qualities Conventional.hash reg chord with
                 | Ok s => bool_decide
                             (s = snd entry +:+ (if (i =? 0)%nat then ""
                                                 else "/" +:+ str (Z.of_nat i)))
                 | Raise _ => false
                 end
             | Raise _ => false
             end)
          (seq 0 (length (Chords.items (fst entry)))).

(** [AbstractChord(factors=ChordFactors({1:0, 2:-1, 5:0}))]: a root with a
    minor second and a perfect fifth above it. *)
Definition minor_second_factors : Chords.ChordFactors :=
  Chords.ChordFactors_init [(1, 0); (2, -1); (5, 0)] [].

Definition minor_second_chord : result (Chords.AbstractChord Conventional.qualities) :=
  Chords.AbstractChord_init Conventional.qualities Conventional.qualifiers_api
    None (Some minor_second_factors) None None.

(** [{1:0, 3:0}], the major triad without its fifth, and the qualifier that
    removes the fifth. *)
Definition fifthless_major_factors : Chords.ChordFactors :=
  Chords.ChordFactors_init [(1, 0); (3, 0)] [].

Definition no5_qualifier : Chords.ChordQualifier :=
  {| Chords.add := []; Chords.modify := []; Chords.remove := [5] |}.

(** A small matcher: notes are names, a candidate chord is its root with
    its factors, every candidate has the likelihood 0.9 and the consonance
    0.5, and its precision and recall are 1 for the major triad and 0.75 and
    0.9 for any other chord. *)
Definition toy_candidate : Type := string * dict Z Z.

Definition toy_candidate_for (flags : Chords.match_flags) (note_list : list string)
    (n : string) (factors : Chords.ChordFactors) : result (toy_candidate * Q) :=
  Ok ((n, Chords.items factors), (9 # 10)%Q).

Definition toy_precision_recall (flags : Chords.match_flags) (notes : list string)
    (cand : toy_candidate) : result (Q * Q) :=
  if dict_eq (snd cand) (Chords.items major_triad_factors)
  then Ok (1%Q, 1%Q) else Ok ((75 # 100)%Q, (9 # 10)%Q).

Definition toy_key (a b : toy_candidate) : bool :=
  Chords.str_eqb (fst a) (fst b) && dict_eq (snd a) (snd b).

Definition toy_flags : Chords.match_flags :=
  {| Chords.assume_root := true; Chords.require_root := true; Chords.invert := true;
     Chords.upweight_third := true; Chords.downweight_fifth := true |}.

Definition toy_matching_chords (max_results : Z)
  : result (option (dict toy_candidate Chords.match_stats)) :=
  Chords.matching_chords (fun notes : list string => notes) toy_candidate_for
    (fun _ _ => true) toy_precision_recall (fun _ => Ok (1 # 2)%Q) toy_key
    (fun (q : Q) (_ : Z) => q)
    [(0, ["m"; ""])] [("", major_triad_factors); ("m", minor_triad_factors)]
    ["C"; "G"] false toy_flags (8 # 10)%Q (7 # 10)%Q (5 # 10)%Q max_results.

(** [most_likely_chord] on the small matcher, with its scores and no keyword
    of the caller. *)
Definition toy_kwargs : Chords.kwargs :=
  {| Chords.kw_assume_root := None; Chords.kw_require_root := None;
     Chords.kw_invert := None; Chords.kw_upweight_third := None;
     Chords.kw_downweight_fifth := None; Chords.kw_min_recall := None;
     Chords.kw_min_precision := None; Chords.kw_min_likelihood := None;
     Chords.kw_max_results := None |}.

Definition toy_most_likely_chord
  : result (toy_candidate * option Chords.match_stats) :=
  Chords.most_likely_chord (fun notes : list string => notes) toy_candidate_for
    (fun _ _ => true) toy_precision_recall (fun _ => Ok (1 # 2)%Q) toy_key
    (fun (q : Q) (_ : Z) => q)
    [(0, ["m"; ""])] [("", major_triad_factors); ("m", minor_triad_factors)]
    ["C"; "G"] true toy_kwargs.

End Examples.

(** * Properties *)

Import Examples.

Lemma bind_Ok_inv {A B : Type} (r : result A) (k : A -> result B) (b : B) :
  bind r k = Ok b -> exists a, r = Ok a /\ k a = Ok b.
Proof. destruct r as [a|e]; simpl; [eauto | discriminate]. Qed.

Lemma assert_Ok_inv (b : bool) (message : string) (u : unit) :
  assert b message = Ok u -> b = true.
Proof. destruct b; simpl; [reflexivity | discriminate]. Qed.

Lemma mapM_Ok_length {A B : Type} (f : A -> result B) (l : list A) (bs : list B) :
  mapM f l = Ok bs -> length bs = length l.
Proof.
  revert bs. induction l as [|a l IH]; intros bs H; simpl in H.
  - inversion H. reflexivity.
  - apply bind_Ok_inv in H as (b & _ & H).
    apply bind_Ok_inv in H as (bs' & Hbs' & H).
    inversion H; subst. simpl. f_equal. apply IH, Hbs'.
Qed.

Ltac invert_Ok :=
  repeat match goal with
  | H : bind _ _ = Ok _ |- _ =>
      let a := fresh "a" in
      let Ha := fresh "Ha" in
      apply bind_Ok_inv in H as (a & Ha & H)
  | H : assert _ _ = Ok _ |- _ => apply assert_Ok_inv in H
  | H : Ok _ = Ok _ |- _ => inversion H; subst; clear H
  | H : Raise _ = Ok _ |- _ => discriminate H
  end.

Lemma bind_Raise {A B : Type} (r : result A) (k : A -> result B) (e : exception) :
  r = Raise e -> bind r k = Raise e.
Proof. intros ->. reflexivity. Qed.

Lemma bind_Ok {A B : Type} (r : result A) (k : A -> result B) (a : A) :
  r = Ok a -> bind r k = k a.
Proof. intros ->. reflexivity. Qed.

(** ** Intervals *)

Lemma default_interval_degrees_total (m : Z) :
  0 <= m < 12 ->
  exists d, Intervals.default_interval_degrees m = Ok d /\ 1 <= d <= 7.
Proof.
  intros Hm.
  assert (Hcases : m = 0 \/ m = 1 \/ m = 2 \/ m = 3 \/ m = 4 \/ m = 5 \/ m = 6
                   \/ m = 7 \/ m = 8 \/ m = 9 \/ m = 10 \/ m = 11) by lia.
  repeat (destruct Hcases as [-> | Hcases]); try subst m;
    (eexists; split; [reflexivity | lia]).
Qed.

Lemma validate_degree_accepted (value degree : Z) :
  Spec.degree_accepted value degree = true ->
  Intervals.validate_degree value degree = Ok (degree - 7 * (Z.abs value / 12)).
Proof.
  unfold Spec.degree_accepted, Spec.degree_within_two, Intervals.validate_degree.
  destruct (default_interval_degrees_total (Z.abs value mod 12)) as (d & -> & Hd).
  { apply Z.mod_pos_bound. lia. }
  cbn zeta. intros H.
  repeat (apply andb_prop in H as [H ?]).
  rewrite H. cbn [assert bind].
  destruct (Z.abs value mod 12 =? 0).
  - match goal with H1 : (_ =? 1) = true |- _ => rewrite H1; apply Z.eqb_eq in H1 end.
    cbn [assert bind].
    replace ((degree - 1) mod 7 =? 0) with true.
    2:{ symmetry. apply Z.eqb_eq.
        replace (degree - 1) with ((Z.abs value / 12) * 7) by lia.
        apply Z.mod_mul. lia. }
    cbn [assert bind].
    repeat match goal with Hb : _ = true |- _ => rewrite Hb; clear Hb end.
    reflexivity.
  - cbn [assert bind].
    repeat match goal with Hb : _ = true |- _ => rewrite Hb; clear Hb end.
    reflexivity.
Qed.

Ltac split_test t :=
  let E := fresh "E" in destruct t eqn:E; cbn [assert bind].

(** Every outcome of the validation: the degree the interval gets, a failed
    assertion, or the error for a degree too far from the default.  The
    error for a degree an octave off is none of them. *)
Lemma validate_degree_outcomes (value degree : Z) :
  (Intervals.validate_degree value degree = Ok (degree - 7 * (Z.abs value / 12))
   /\ Spec.degree_accepted value degree = true)
  \/ (Spec.degree_accepted value degree = false
      /\ ((exists message,
              Intervals.validate_degree value degree = Raise (AssertionError message))
          \/ (Intervals.validate_degree value degree
              = Raise (ValueError "too far from default degree")
              /\ Spec.degree_within_two value degree = false))).
Proof.
  destruct (Spec.degree_accepted value degree) eqn:Hacc.
  { left. split; [apply validate_degree_accepted, Hacc | reflexivity]. }
  right. split; [reflexivity|].
  revert Hacc.
  unfold Spec.degree_accepted, Spec.degree_within_two, Intervals.validate_degree.
  destruct (default_interval_degrees_total (Z.abs value mod 12)) as (d & -> & Hd).
  { apply Z.mod_pos_bound. lia. }
  cbn zeta. intros Hacc.
  split_test (0 <? degree); [|left; eauto].
  assert (Hunison :
    (if Z.abs value mod 12 =? 0 then degree - 7 * (Z.abs value / 12) =? 1 else true) = true ->
    (if Z.abs value mod 12 =? 0
     then check assert (degree - 7 * (Z.abs value / 12) =? 1)
                  "Degree of a unison (mod12) interval can never be anything but 1" in
          assert ((degree - 1) mod 7 =? 0)
                  "Extended degree of a unison (mod12) interval must (-1) mod to 0"
     else Ok tt) = Ok tt).
  { destruct (Z.abs value mod 12 =? 0); [|reflexivity].
    intros H1. rewrite H1. apply Z.eqb_eq in H1. cbn [assert bind].
    replace ((degree - 1) mod 7 =? 0) with true; [reflexivity|].
    symmetry. apply Z.eqb_eq.
    replace (degree - 1) with ((Z.abs value / 12) * 7) by lia.
    apply Z.mod_mul. lia. }
  destruct (if Z.abs value mod 12 =? 0 then degree - 7 * (Z.abs value / 12) =? 1 else true)
    eqn:Euni.
  2:{ left. destruct (Z.abs value mod 12 =? 0); [|discriminate].
      rewrite Euni. cbn [assert bind]. eauto. }
  rewrite (Hunison eq_refl). cbn [bind].
  cbn [andb] in Hacc.
  split_test (0 <? degree - 7 * (Z.abs value / 12)); [|left; eauto].
  split_test (degree - 7 * (Z.abs value / 12) <? 8); [|left; eauto].
  cbn [andb] in Hacc. rewrite Hacc.
  right. split; [|reflexivity].
  replace (Intervals.octave_off (Z.abs (degree - (d + 7 * (Z.abs value / 12))))) with false;
    [reflexivity|].
  symmetry. unfold Intervals.octave_off.
  apply Z.ltb_lt in E0, E1.
  repeat (apply orb_false_intro); apply Z.eqb_neq; lia.
Qed.

(** ** C5 *)

(** C5, as the code has it.  [Interval(value, degree)] with an explicit
    degree returns an interval only when the degree passes every check of
    the constructor: it is positive, it is the degree 1 for a value that is a
    multiple of 12, it falls in 1..7 once 7 per octave of the value is taken
    off, and it is within 2 of the default degree; the interval then carries
    the quality [_detect_quality] finds.  Any other degree raises: a failed
    assertion, or the [ValueError] for a degree too far from the default.
    The [ValueError] for a degree an octave off is never raised by the
    validation. *)
Theorem C5_Interval_init_explicit_degree
    (qualities : qualities_module) (value degree : Z) :
  (Spec.degree_accepted value degree = true ->
     Intervals.Interval_init qualities value (Some degree)
     = (let* q := Intervals._detect_quality qualities (Z.abs value mod 12)
                    (degree - 7 * (Z.abs value / 12)) in
        Ok {| Intervals.value := value;
              Intervals.width := Z.abs value;
              Intervals.octave_span := Z.abs value / 12;
              Intervals.imod := Z.abs value mod 12;
              Intervals.sign := if value <? 0 then -1 else 1;
              Intervals.degree := degree - 7 * (Z.abs value / 12);
              Intervals.extended_degree := degree;
              Intervals.quality := q |}))
  /\ (Spec.degree_accepted value degree = false ->
        (exists message,
           Intervals.Interval_init qualities value (Some degree)
           = Raise (AssertionError message))
        \/ Intervals.Interval_init qualities value (Some degree)
           = Raise (ValueError "too far from default degree"))
  /\ (Spec.degree_within_two value degree = false ->
        raises (Intervals.Interval_init qualities value (Some degree)))
  /\ Intervals.validate_degree value degree
     <> Raise (ValueError "an octave up or down from default degree").
Proof.
  unfold Intervals.Interval_init.
  destruct (validate_degree_outcomes value degree)
    as [[Hok Hacc] | [Hacc [[message Hfail] | [Hfar Hwithin]]]].
  - repeat split.
    + intros _. rewrite Hok. reflexivity.
    + intros H. congruence.
    + intros H. unfold Spec.degree_accepted in Hacc.
      apply andb_prop in Hacc as [_ Hacc]. congruence.
    + rewrite Hok. discriminate.
  - repeat split.
    + intros H. congruence.
    + intros _. left. exists message. rewrite Hfail. reflexivity.
    + intros _. rewrite Hfail. exact I.
    + rewrite Hfail. discriminate.
  - repeat split.
    + intros H. congruence.
    + intros _. right. rewrite Hfar. reflexivity.
    + intros _. rewrite Hfar. exact I.
    + rewrite Hfar. discriminate.
Qed.

(** C5, as the claim states it, fails: degree 2 is within 2 of the default
    degree 1 of the value 0, and [Interval(0, degree=2)] raises. *)
Lemma C5_unison_with_degree_two_raises :
  Spec.degree_within_two 0 2 = true
  /\ Intervals.Interval_init Conventional.qualities 0 (Some 2)
     = Raise (AssertionError
                "Degree of a unison (mod12) interval can never be anything but 1").
Proof. split; reflexivity. Qed.

(** ** C10 *)

Lemma getitem_last_snoc {A : Type} (l : list A) (x : A) : getitem_last (l ++ [x]) = Ok x.
Proof. unfold getitem_last. rewrite last_snoc. reflexivity. Qed.

(** C10.  On a non-empty [IntervalList], that is one whose items are
    [l ++ [x]], [pop(item)] removes the last interval [x] whatever [item] is,
    recomputes [value_set] from what is left, and returns [None], not [x]. *)
Theorem C10_pop_removes_last_returns_None
    (qualities : qualities_module) (A : Type) (item : A)
    (l : list (Intervals.Interval qualities)) (x : Intervals.Interval qualities)
    (seen : gset Z) :
  Intervals.pop qualities
    {| Intervals.items := l ++ [x]; Intervals.value_set := seen |} item
  = Ok ({| Intervals.items := l;
           Intervals.value_set := list_to_set (Intervals.values_of qualities l) |},
        None).
Proof.
  unfold Intervals.pop. cbn [Intervals.items].
  rewrite getitem_last_snoc. cbn [bind].
  rewrite removelast_last. reflexivity.
Qed.

(** ** Dictionaries with integer keys *)

Lemma dict_get_In {V : Type} (d : dict Z V) (k : Z) (v : V) :
  dict_get Z.eqb d k = Some v -> In (k, v) d.
Proof.
  induction d as [|[k' v'] d IH]; simpl; [discriminate|].
  destruct (k' =? k) eqn:E.
  - apply Z.eqb_eq in E. intros [= ->]. subst. now left.
  - intros H. right. apply IH, H.
Qed.

Lemma dict_get_None {V : Type} (d : dict Z V) (k : Z) :
  dict_get Z.eqb d k = None <-> ~ In k (keys d).
Proof.
  induction d as [|[k' v'] d IH]; simpl; [tauto|].
  destruct (k' =? k) eqn:E.
  - apply Z.eqb_eq in E. split; [discriminate | tauto].
  - apply Z.eqb_neq in E. rewrite IH. tauto.
Qed.

Lemma In_keys {V : Type} (d : dict Z V) (k : Z) (v : V) : In (k, v) d -> In k (keys d).
Proof. intros H. apply (in_map fst) in H. exact H. Qed.

Lemma dict_get_NoDup {V : Type} (d : dict Z V) (k : Z) (v : V) :
  NoDup (keys d) -> In (k, v) d -> dict_get Z.eqb d k = Some v.
Proof.
  induction d as [|[k' v'] d IH]; simpl; [tauto|].
  intros Hnd [Heq | Hin].
  - inversion Heq; subst. rewrite Z.eqb_refl. reflexivity.
  - apply NoDup_cons in Hnd as [Hk Hd].
    destruct (k' =? k) eqn:E.
    + apply Z.eqb_eq in E. subst. exfalso. apply Hk.
      apply list_elem_of_In. eapply In_keys, Hin.
    + apply IH; assumption.
Qed.

Lemma NoDup_items {V : Type} (d : dict Z V) : NoDup (keys d) -> NoDup d.
Proof. unfold keys. change (map fst d) with (fst <$> d). apply NoDup_fmap_1. Qed.

(** Dictionary equality is equality of the sets of items. *)
Lemma dict_eq_items (a b : dict Z Z) :
  NoDup (keys a) -> NoDup (keys b) ->
  dict_eq a b = true <-> (forall k v, In (k, v) a <-> In (k, v) b).
Proof.
  intros Ha Hb. unfold dict_eq. rewrite andb_true_iff, Nat.eqb_eq, forallb_forall.
  split.
  - intros [Hlen Hall].
    assert (Hincl : incl a b).
    { intros [k v] Hin. specialize (Hall _ Hin). simpl in Hall.
      destruct (dict_get Z.eqb b k) as [v'|] eqn:E; [|discriminate].
      apply Z.eqb_eq in Hall. subst. apply dict_get_In, E. }
    assert (Hperm : a ≡ₚ b).
    { apply submseteq_length_Permutation; [|lia].
      apply NoDup_submseteq; [apply NoDup_items, Ha|].
      intros x Hx. apply list_elem_of_In, Hincl, list_elem_of_In, Hx. }
    intros k v. rewrite <- !list_elem_of_In. now rewrite Hperm.
  - intros Hiff. split.
    + apply Permutation_length, NoDup_Permutation;
        [apply NoDup_items, Ha | apply NoDup_items, Hb |].
      intros [k v]. rewrite !list_elem_of_In. apply Hiff.
    + intros [k v] Hin. simpl. apply Hiff in Hin.
      rewrite (dict_get_NoDup b k v Hb Hin). apply Z.eqb_refl.
Qed.

(** ** C8 *)

(** C8, as the code has it.  Two [ChordFactors] (dictionaries: no degree
    twice) are equal exactly when they have the same (degree, offset) pairs.
    The hash of one is the hash of the tuple of its degrees, the keys:
    factor-sets with the same degrees in the same order have the same hash,
    whatever their offsets. *)
Theorem C8_ChordFactors_eq_and_hash
    (hash : list Z -> Z) (a b : Chords.ChordFactors) :
  NoDup (Chords.degrees a) -> NoDup (Chords.degrees b) ->
  (Chords.ChordFactors_eq a b = true
   <-> (forall degree offset,
          In (degree, offset) (Chords.items a) <-> In (degree, offset) (Chords.items b)))
  /\ Chords.ChordFactors_hash hash a = hash (Chords.degrees a)
  /\ (Chords.degrees a = Chords.degrees b ->
      Chords.ChordFactors_hash hash a = Chords.ChordFactors_hash hash b).
Proof.
  intros Ha Hb. split; [|split].
  - apply dict_eq_items; assumption.
  - reflexivity.
  - unfold Chords.ChordFactors_hash. intros ->. reflexivity.
Qed.

Lemma C8_witness :
  (Chords.ChordFactors_eq major_triad_factors minor_triad_factors = true
   <-> (forall degree offset,
          In (degree, offset) (Chords.items major_triad_factors)
          <-> In (degree, offset) (Chords.items minor_triad_factors)))
  /\ Chords.ChordFactors_hash Conventional.hash major_triad_factors
     = Conventional.hash (Chords.degrees major_triad_factors)
  /\ (Chords.degrees major_triad_factors = Chords.degrees minor_triad_factors ->
      Chords.ChordFactors_hash Conventional.hash major_triad_factors
      = Chords.ChordFactors_hash Conventional.hash minor_triad_factors).
Proof.
  apply (C8_ChordFactors_eq_and_hash Conventional.hash
           major_triad_factors minor_triad_factors);
    compute_done.
Defined.

(** C8, as the claim states it, fails: the major and the minor triad have
    the same degrees and different offsets, and the same hash, under every
    hash of tuples. *)
Lemma C8_same_degrees_same_hash :
  Chords.degrees major_triad_factors = Chords.degrees minor_triad_factors
  /\ Chords.offsets major_triad_factors <> Chords.offsets minor_triad_factors
  /\ Chords.ChordFactors_eq major_triad_factors minor_triad_factors = false
  /\ (forall hash : list Z -> Z,
        Chords.ChordFactors_hash hash major_triad_factors
        = Chords.ChordFactors_hash hash minor_triad_factors).
Proof.
  split; [reflexivity|]. split; [discriminate|]. split; [reflexivity|].
  intros hash. reflexivity.
Qed.

(** ** Lookups after assignment and deletion *)

Lemma dict_get_set {V : Type} (d : dict Z V) (k k' : Z) (v : V) :
  dict_get Z.eqb (dict_set Z.eqb d k v) k'
  = if k =? k' then Some v else dict_get Z.eqb d k'.
Proof.
  induction d as [|[k0 v0] d IH]; simpl.
  - reflexivity.
  - destruct (k0 =? k) eqn:E0; simpl.
    + apply Z.eqb_eq in E0. subst k0. destruct (k =? k'); reflexivity.
    + destruct (k0 =? k') eqn:E1.
      * apply Z.eqb_eq in E1. apply Z.eqb_neq in E0. subst k0.
        replace (k =? k') with false; [reflexivity|].
        symmetry. apply Z.eqb_neq. congruence.
      * apply IH.
Qed.

Lemma keys_dict_set {V : Type} (d : dict Z V) (k : Z) (v : V) :
  keys (dict_set Z.eqb d k v) = if bool_decide (k ∈ keys d) then keys d else keys d ++ [k].
Proof.
  unfold keys. induction d as [|[k0 v0] d IH]; simpl.
  - reflexivity.
  - destruct (k0 =? k) eqn:E0; simpl.
    + apply Z.eqb_eq in E0. subst k0.
      rewrite bool_decide_eq_true_2; [reflexivity | left].
    + apply Z.eqb_neq in E0. rewrite IH.
      destruct (bool_decide (k ∈ map fst d)) eqn:Ein.
      * apply bool_decide_eq_true_1 in Ein.
        rewrite bool_decide_eq_true_2; [reflexivity | now right].
      * apply bool_decide_eq_false_1 in Ein.
        rewrite bool_decide_eq_false_2; [reflexivity|].
        intros Hin. apply elem_of_cons in Hin as [Heq | Hin]; [congruence | tauto].
Qed.

Lemma NoDup_dict_set {V : Type} (d : dict Z V) (k : Z) (v : V) :
  NoDup (keys d) -> NoDup (keys (dict_set Z.eqb d k v)).
Proof.
  intros Hd. rewrite keys_dict_set.
  destruct (bool_decide (k ∈ keys d)) eqn:Ein; [exact Hd|].
  apply bool_decide_eq_false_1 in Ein.
  apply NoDup_app. split; [exact Hd|]. split.
  - intros x Hx Hx'. apply list_elem_of_singleton in Hx'. subst. tauto.
  - apply NoDup_singleton.
Qed.

Lemma dict_del_present {V : Type} (d : dict Z V) (k : Z) :
  NoDup (keys d) -> k ∈ keys d ->
  exists d', dict_del Z.eqb d k = Ok d'
    /\ NoDup (keys d')
    /\ forall k', dict_get Z.eqb d' k' = if k =? k' then None else dict_get Z.eqb d k'.
Proof.
  induction d as [|[k0 v0] d IH]; simpl; intros Hnd Hin.
  - apply elem_of_nil in Hin. tauto.
  - apply NoDup_cons in Hnd as [Hk0 Hnd].
    destruct (k0 =? k) eqn:E0.
    + apply Z.eqb_eq in E0. subst k0.
      exists d. split; [reflexivity|]. split; [exact Hnd|].
      intros k'. destruct (k =? k') eqn:E1; [|reflexivity].
      apply Z.eqb_eq in E1. subst k'.
      apply dict_get_None. rewrite <- list_elem_of_In. exact Hk0.
    + apply Z.eqb_neq in E0.
      apply elem_of_cons in Hin as [Heq | Hin]; [congruence|].
      destruct (IH Hnd Hin) as (d' & Hdel & Hnd' & Hget).
      exists ((k0, v0) :: d'). rewrite Hdel. cbn [bind].
      split; [reflexivity|]. split.
      * simpl. apply NoDup_cons. split; [|exact Hnd'].
        intros Hin'. apply Hk0.
        apply list_elem_of_In. apply list_elem_of_In in Hin'.
        destruct (dict_get Z.eqb d k0) eqn:Eg.
        -- eapply In_keys, dict_get_In, Eg.
        -- exfalso. apply dict_get_None in Hin'; [exact Hin'|].
           rewrite Hget. replace (k =? k0) with false; [exact Eg|].
           symmetry. apply Z.eqb_neq. congruence.
      * intros k'. simpl. destruct (k0 =? k') eqn:E1.
        -- apply Z.eqb_eq in E1. subst k'.
           replace (k =? k0) with false; [reflexivity|].
           symmetry. apply Z.eqb_neq. congruence.
        -- apply Hget.
Qed.

Lemma dict_get_Some_keys {V : Type} (d : dict Z V) (k : Z) (v : V) :
  dict_get Z.eqb d k = Some v -> k ∈ keys d.
Proof. intros H. apply list_elem_of_In. eapply In_keys, dict_get_In, H. Qed.

Lemma dict_get_not_keys {V : Type} (d : dict Z V) (k : Z) :
  k ∉ keys d -> dict_get Z.eqb d k = None.
Proof. intros H. apply dict_get_None. rewrite <- list_elem_of_In. exact H. Qed.

Lemma fold_dict_set_get (adds d : dict Z Z) :
  NoDup (keys adds) ->
  (forall k, dict_get Z.eqb
               (fold_left (fun d kv => dict_set Z.eqb d (fst kv) (snd kv)) adds d) k
             = match dict_get Z.eqb adds k with
               | Some v => Some v
               | None => dict_get Z.eqb d k
               end)
  /\ (NoDup (keys d) ->
      NoDup (keys (fold_left (fun d kv => dict_set Z.eqb d (fst kv) (snd kv)) adds d))).
Proof.
  revert d. induction adds as [|[k0 v0] adds IH]; intros d Hnd; simpl.
  - split; [reflexivity | tauto].
  - apply NoDup_cons in Hnd as [Hk0 Hnd].
    destruct (IH (dict_set Z.eqb d k0 v0) Hnd) as [Hget Hkeys].
    split.
    + intros k. rewrite Hget, dict_get_set.
      destruct (k0 =? k) eqn:E.
      * apply Z.eqb_eq in E. subst k0.
        rewrite (dict_get_not_keys adds k Hk0). reflexivity.
      * reflexivity.
    + intros Hd. apply Hkeys, NoDup_dict_set, Hd.
Qed.

Lemma foldM_modify_get (mods d : dict Z Z) :
  NoDup (keys mods) -> NoDup (keys d) ->
  (forall k, k ∈ keys mods -> k ∈ keys d) ->
  exists d',
    foldM (fun d kv => let* v := dict_getitem Z.eqb d (fst kv) in
                       Ok (dict_set Z.eqb d (fst kv) (v + snd kv))) mods d = Ok d'
    /\ NoDup (keys d')
    /\ forall k, dict_get Z.eqb d' k
                 = match dict_get Z.eqb mods k with
                   | Some delta => option_map (fun v => v + delta) (dict_get Z.eqb d k)
                   | None => dict_get Z.eqb d k
                   end.
Proof.
  revert d. induction mods as [|[k0 delta0] mods IH]; intros d Hnd Hd Hin; simpl.
  - exists d. split; [reflexivity|]. split; [exact Hd | reflexivity].
  - apply NoDup_cons in Hnd as [Hk0 Hnd].
    assert (Hpresent : k0 ∈ keys d) by (apply Hin; simpl; left).
    unfold dict_getitem.
    destruct (dict_get Z.eqb d k0) as [v|] eqn:Eg.
    2:{ exfalso. apply dict_get_None in Eg. apply Eg, list_elem_of_In, Hpresent. }
    cbn [bind].
    destruct (IH (dict_set Z.eqb d k0 (v + delta0)) Hnd) as (d' & Hfold & Hnd' & Hget).
    + apply NoDup_dict_set, Hd.
    + intros k Hk. rewrite keys_dict_set.
      rewrite bool_decide_eq_true_2 by exact Hpresent.
      apply Hin. simpl. now right.
    + exists d'. split; [exact Hfold|]. split; [exact Hnd'|].
      intros k. rewrite Hget, dict_get_set.
      destruct (k0 =? k) eqn:E.
      * apply Z.eqb_eq in E. subst k0.
        rewrite (dict_get_not_keys mods k Hk0), Eg. reflexivity.
      * reflexivity.
Qed.

Lemma foldM_del_get (ks : list Z) (d : dict Z Z) :
  NoDup ks -> NoDup (keys d) -> (forall k, k ∈ ks -> k ∈ keys d) ->
  exists d',
    foldM (fun d k => dict_del Z.eqb d k) ks d = Ok d'
    /\ NoDup (keys d')
    /\ forall k, dict_get Z.eqb d' k
                 = if bool_decide (k ∈ ks) then None else dict_get Z.eqb d k.
Proof.
  revert d. induction ks as [|k0 ks IH]; intros d Hnd Hd Hin; simpl.
  - exists d. split; [reflexivity|]. split; [exact Hd | reflexivity].
  - apply NoDup_cons in Hnd as [Hk0 Hnd].
    destruct (dict_del_present d k0 Hd) as (d1 & Hdel & Hnd1 & Hget1).
    { apply Hin. left. }
    rewrite Hdel. cbn [bind].
    destruct (IH d1 Hnd Hnd1) as (d' & Hfold & Hnd' & Hget).
    + intros k Hk.
      destruct (dict_get Z.eqb d1 k) as [v|] eqn:Eg;
        [eapply dict_get_Some_keys, Eg|].
      exfalso. rewrite Hget1 in Eg.
      destruct (k0 =? k) eqn:E.
      * apply Z.eqb_eq in E. subst. tauto.
      * apply dict_get_None in Eg. apply Eg, list_elem_of_In, Hin. now right.
    + exists d'. split; [exact Hfold|]. split; [exact Hnd'|].
      intros k. rewrite Hget, Hget1.
      destruct (bool_decide (k ∈ ks)) eqn:Eks.
      * apply bool_decide_eq_true_1 in Eks.
        rewrite bool_decide_eq_true_2; [reflexivity | now right].
      * apply bool_decide_eq_false_1 in Eks.
        destruct (k0 =? k) eqn:E.
        -- apply Z.eqb_eq in E. subst.
           rewrite bool_decide_eq_true_2; [reflexivity | left].
        -- apply Z.eqb_neq in E.
           rewrite bool_decide_eq_false_2; [reflexivity|].
           intros Hk. apply elem_of_cons in Hk as [Heq | Hk]; [congruence | tauto].
Qed.

(** ** The qualifier [distance] builds *)

Lemma distance_fold (other : Chords.ChordFactors) (l : dict Z Z) (acc : dict Z Z * dict Z Z) :
  NoDup (keys l) ->
  let r := fold_left (Chords.distance_step other) l acc in
  (forall k, dict_get Z.eqb (fst r) k
             = match dict_get Z.eqb l k, dict_get Z.eqb (Chords.items other) k with
               | Some o, None => Some o
               | _, _ => dict_get Z.eqb (fst acc) k
               end)
  /\ (forall k, dict_get Z.eqb (snd r) k
                = match dict_get Z.eqb l k, dict_get Z.eqb (Chords.items other) k with
                  | Some o, Some o' =>
                      if negb (o =? o') then Some (o - o') else dict_get Z.eqb (snd acc) k
                  | _, _ => dict_get Z.eqb (snd acc) k
                  end)
  /\ (NoDup (keys (fst acc)) -> NoDup (keys (fst r)))
  /\ (NoDup (keys (snd acc)) -> NoDup (keys (snd r))).
Proof.
  revert acc. induction l as [|[k0 o0] l IH]; intros acc Hnd; simpl.
  - repeat split; try tauto; intros k; destruct (dict_get _ _ k); reflexivity.
  - apply NoDup_cons in Hnd as [Hk0 Hnd].
    specialize (IH (Chords.distance_step other acc (k0, o0)) Hnd).
    cbn zeta in IH. destruct IH as (Hadd & Hmod & Hnd1 & Hnd2).
    assert (Hl : forall k, (k0 =? k) = true -> dict_get Z.eqb l k = None).
    { intros k E. apply Z.eqb_eq in E. subst. apply dict_get_not_keys, Hk0. }
    unfold Chords.distance_step in *.
    destruct (dict_get Z.eqb (Chords.items other) k0) as [other_offset|] eqn:Eother.
    + destruct (negb (o0 =? other_offset)) eqn:Eneq; cbn [fst snd] in *.
      * repeat split; [| |exact Hnd1|].
        -- intros k. rewrite Hadd. destruct (k0 =? k) eqn:E.
           ++ rewrite (Hl k E). apply Z.eqb_eq in E. subst. rewrite Eother. reflexivity.
           ++ reflexivity.
        -- intros k. rewrite Hmod, dict_get_set. destruct (k0 =? k) eqn:E.
           ++ rewrite (Hl k E). apply Z.eqb_eq in E. subst.
              rewrite Eother, Eneq. reflexivity.
           ++ reflexivity.
        -- intros H. apply Hnd2, NoDup_dict_set, H.
      * repeat split; [| |exact Hnd1|exact Hnd2].
        -- intros k. rewrite Hadd. destruct (k0 =? k) eqn:E.
           ++ rewrite (Hl k E). apply Z.eqb_eq in E. subst. rewrite Eother. reflexivity.
           ++ reflexivity.
        -- intros k. rewrite Hmod. destruct (k0 =? k) eqn:E.
           ++ rewrite (Hl k E). apply Z.eqb_eq in E. subst.
              rewrite Eother, Eneq. reflexivity.
           ++ reflexivity.
    + cbn [fst snd] in *. repeat split; [| | |exact Hnd2].
      * intros k. rewrite Hadd, dict_get_set. destruct (k0 =? k) eqn:E.
        -- rewrite (Hl k E). apply Z.eqb_eq in E. subst. rewrite Eother. reflexivity.
        -- reflexivity.
      * intros k. rewrite Hmod. destruct (k0 =? k) eqn:E.
        -- rewrite (Hl k E). apply Z.eqb_eq in E. subst. rewrite Eother. reflexivity.
        -- reflexivity.
      * intros H. apply Hnd1, NoDup_dict_set, H.
Qed.

Lemma sorted_insert_Permutation {A : Type} (before : A -> A -> bool) (x : A) (l : list A) :
  sorted_insert before x l ≡ₚ x :: l.
Proof.
  induction l as [|y l IH]; simpl; [reflexivity|].
  destruct (before y x); [|reflexivity].
  rewrite IH. apply perm_swap.
Qed.

Lemma sorted_Permutation {A : Type} (before : A -> A -> bool) (l : list A) :
  sorted before l ≡ₚ l.
Proof.
  unfold sorted. induction l as [|x l IH]; simpl; [reflexivity|].
  rewrite sorted_insert_Permutation, IH. reflexivity.
Qed.

Lemma dict_eq_lookup (a b : dict Z Z) :
  NoDup (keys a) -> NoDup (keys b) ->
  (forall k, dict_get Z.eqb a k = dict_get Z.eqb b k) ->
  dict_eq a b = true.
Proof.
  intros Ha Hb Hget. apply dict_eq_items; [assumption..|].
  intros k v. split; intros Hin.
  - apply dict_get_In. rewrite <- Hget. apply dict_get_NoDup; assumption.
  - apply dict_get_In. rewrite Hget. apply dict_get_NoDup; assumption.
Qed.

Lemma has_degree_false (f : Chords.ChordFactors) (k : Z) :
  Chords.has_degree f k = false <-> dict_get Z.eqb (Chords.items f) k = None.
Proof.
  unfold Chords.has_degree, dict_contains.
  destruct (dict_get Z.eqb (Chords.items f) k); split; congruence.
Qed.

(** Applying [distance A B] to [B] succeeds, and the result looks up every
    degree as [A] does. *)
Lemma apply_distance (A B : Chords.ChordFactors) :
  NoDup (Chords.degrees A) -> NoDup (Chords.degrees B) ->
  exists R, Chords.apply (Chords.distance A B) B = Ok R
    /\ NoDup (Chords.degrees R)
    /\ (forall k, dict_get Z.eqb (Chords.items R) k = dict_get Z.eqb (Chords.items A) k)
    /\ Chords.qualifiers R = Chords.qualifiers B ++ [Chords.distance A B].
Proof.
  intros HA HB. unfold Chords.degrees in *.
  unfold Chords.distance, Chords.apply, Chords.degrees.
  pose proof (distance_fold B (Chords.items A) ([], []) HA) as Hfold.
  cbn zeta in Hfold.
  destruct (fold_left (Chords.distance_step B) (Chords.items A) ([], [])) as [adds mods].
  cbn [fst snd] in Hfold. destruct Hfold as (Hadd & Hmod & Hnd_add & Hnd_mod).
  specialize (Hnd_add (NoDup_nil_2 (A:=Z))). specialize (Hnd_mod (NoDup_nil_2 (A:=Z))).
  cbn [Chords.add Chords.modify Chords.remove].
  destruct (fold_dict_set_get adds (Chords.items B) Hnd_add) as [Hget1 Hnd1].
  specialize (Hnd1 HB).
  set (added := fold_left (fun d kv => dict_set Z.eqb d (fst kv) (snd kv)) adds
                          (Chords.items B)) in *.
  destruct (foldM_modify_get mods added Hnd_mod Hnd1) as (modified & Hfold2 & Hnd2 & Hget2).
  { intros k Hk.
    destruct (dict_get Z.eqb mods k) as [delta|] eqn:Edelta.
    2:{ exfalso. apply dict_get_None in Edelta. apply Edelta, list_elem_of_In, Hk. }
    rewrite Hmod in Edelta. simpl in Edelta.
    destruct (dict_get Z.eqb (Chords.items A) k) as [o|]; [|discriminate].
    destruct (dict_get Z.eqb (Chords.items B) k) as [o'|] eqn:EB; [|discriminate].
    destruct (dict_get Z.eqb added k) as [v|] eqn:Eadded;
      [eapply dict_get_Some_keys, Eadded|].
    exfalso. rewrite Hget1, Hadd, EB in Eadded. simpl in Eadded.
    destruct (dict_get Z.eqb (Chords.items A) k); discriminate. }
  rewrite Hfold2. cbn [bind].
  set (removes := filter (fun degree => Chords.has_degree A degree = false)
                         (keys (Chords.items B))) in *.
  assert (Hrem : forall k, k ∈ removes <->
            dict_get Z.eqb (Chords.items A) k = None
            /\ dict_get Z.eqb (Chords.items B) k <> None).
  { intros k. unfold removes. rewrite list_elem_of_filter, has_degree_false.
    split; intros [H1 H2]; split; try exact H1.
    - intros HN. apply dict_get_None in HN. apply HN, list_elem_of_In, H2.
    - destruct (dict_get Z.eqb (Chords.items B) k) eqn:E; [|congruence].
      eapply dict_get_Some_keys, E. }
  destruct (foldM_del_get removes modified) as (removed & Hfold3 & Hnd3 & Hget3);
    [apply NoDup_filter, HB | exact Hnd2 | |].
  { intros k Hk. apply Hrem in Hk as [HAk HBk].
    destruct (dict_get Z.eqb modified k) as [v|] eqn:Em;
      [eapply dict_get_Some_keys, Em|].
    exfalso. rewrite Hget2, Hmod, HAk in Em. simpl in Em.
    rewrite Hget1, Hadd, HAk in Em. simpl in Em. congruence. }
  rewrite Hfold3. cbn [bind].
  eexists. split; [reflexivity|]. cbn [Chords.items Chords.ChordFactors_init Chords.qualifiers].
  split; [exact Hnd3|]. split; [|reflexivity].
  intros k. rewrite Hget3, Hget2, Hmod, Hget1, Hadd. simpl.
  destruct (bool_decide (k ∈ removes)) eqn:Erem.
  - apply bool_decide_eq_true_1, Hrem in Erem as [HAk _]. congruence.
  - apply bool_decide_eq_false_1 in Erem.
    destruct (dict_get Z.eqb (Chords.items A) k) as [o|] eqn:EA;
      destruct (dict_get Z.eqb (Chords.items B) k) as [o'|] eqn:EB; simpl; try reflexivity.
    + destruct (negb (o =? o')) eqn:Eneq; simpl.
      * f_equal. lia.
      * apply negb_false_iff, Z.eqb_eq in Eneq. congruence.
    + exfalso. apply Erem, Hrem. split; congruence.
Qed.

Lemma dict_get_Permutation (d d' : dict Z Z) :
  d ≡ₚ d' -> NoDup (keys d) ->
  NoDup (keys d') /\ forall k, dict_get Z.eqb d' k = dict_get Z.eqb d k.
Proof.
  intros Hperm Hnd.
  assert (Hkeys : keys d ≡ₚ keys d') by (unfold keys; now apply Permutation_map).
  assert (Hnd' : NoDup (keys d')) by (now rewrite <- Hkeys).
  split; [exact Hnd'|].
  intros k. destruct (dict_get Z.eqb d k) as [v|] eqn:E.
  - apply dict_get_NoDup; [exact Hnd'|].
    apply list_elem_of_In. rewrite <- Hperm. apply list_elem_of_In, dict_get_In, E.
  - apply dict_get_not_keys. rewrite <- Hkeys.
    intros Hin. apply dict_get_None in E. apply E, list_elem_of_In, Hin.
Qed.

(** ** C6 *)

(** C6.  For factor-sets [A] and [B] (dictionaries: no degree twice), the
    qualifier [A.distance(B)] applies to [B] without an error, both through
    [ChordQualifier.apply] and through the operator [+], and the result has
    exactly the (degree, offset) pairs of [A]: it is [==] to [A]. *)
Theorem C6_distance_applied_gives_back
    (A B : Chords.ChordFactors) :
  NoDup (Chords.degrees A) -> NoDup (Chords.degrees B) ->
  (exists R, Chords.apply (Chords.distance A B) B = Ok R
     /\ Chords.ChordFactors_eq R A = true)
  /\ (exists R, Chords.ChordFactors_add B (Chords.distance A B) = Ok R
        /\ Chords.ChordFactors_eq R A = true
        /\ forall degree offset,
             In (degree, offset) (Chords.items R) <-> In (degree, offset) (Chords.items A)).
Proof.
  intros HA HB.
  destruct (apply_distance A B HA HB) as (R & Happly & HR & Hget & _).
  split.
  - exists R. split; [exact Happly|].
    apply dict_eq_lookup; assumption.
  - unfold Chords.ChordFactors_add. rewrite Happly. cbn [bind].
    eexists. split; [reflexivity|].
    cbn [Chords.items Chords.ChordFactors_init].
    destruct (dict_get_Permutation (Chords.items R) (Chords.sort_by_degree (Chords.items R)))
      as [Hnd Hsorted]; [symmetry; apply sorted_Permutation | exact HR |].
    assert (Heq : dict_eq (Chords.sort_by_degree (Chords.items R)) (Chords.items A) = true).
    { apply dict_eq_lookup; [exact Hnd | exact HA |].
      intros k. rewrite Hsorted. apply Hget. }
    split; [exact Heq|].
    apply dict_eq_items; [exact Hnd | exact HA | exact Heq].
Qed.

Lemma C6_witness :
  (exists R, Chords.apply (Chords.distance dominant_seventh_factors minor_add9_factors)
               minor_add9_factors = Ok R
     /\ Chords.ChordFactors_eq R dominant_seventh_factors = true)
  /\ (exists R, Chords.ChordFactors_add minor_add9_factors
                  (Chords.distance dominant_seventh_factors minor_add9_factors) = Ok R
        /\ Chords.ChordFactors_eq R dominant_seventh_factors = true
        /\ forall degree offset,
             In (degree, offset) (Chords.items R)
             <-> In (degree, offset) (Chords.items dominant_seventh_factors)).
Proof.
  apply (C6_distance_applied_gives_back dominant_seventh_factors minor_add9_factors);
    compute_done.
Defined.

Example distance_of_the_examples :
  Chords.distance dominant_seventh_factors minor_add9_factors
  = {| Chords.add := [(7, -1)]; Chords.modify := [(3, 1)]; Chords.remove := [9] |}.
Proof. reflexivity. Qed.

(** ** C2 *)

(** What [AbstractChord._determine_quality] computes, case by case: without
    a third the quality of the fifth; with a major (minor) third,
    [Augmented] ([Diminished]) when the fifth is present and augmented
    (diminished), else [Major] ([Minor]); else the quality of the third. *)
Lemma determine_quality_cases (qualities : qualities_module)
    (factors : Chords.ChordFactors)
    (factor_intervals : dict Z (Intervals.Interval qualities))
    (third fifth : Intervals.Interval qualities) :
  dict_get Z.eqb factor_intervals 3 = Some third ->
  dict_get Z.eqb factor_intervals 5 = Some fifth ->
  Chords._determine_quality qualities factors factor_intervals
  = Ok (if negb (Chords.has_degree factors 3) then Intervals.quality fifth
        else if major qualities (Intervals.quality third) then
               if Chords.has_degree factors 5 && augmented qualities (Intervals.quality fifth)
               then Augmented qualities else Major qualities
        else if minor qualities (Intervals.quality third) then
               if Chords.has_degree factors 5 && diminished qualities (Intervals.quality fifth)
               then Diminished qualities else Minor qualities
        else Intervals.quality third).
Proof.
  intros H3 H5. unfold Chords._determine_quality, dict_getitem.
  rewrite H3, H5. cbn [bind].
  destruct (Chords.has_degree factors 3); cbn [negb]; [|reflexivity].
  destruct (major qualities (Intervals.quality third)).
  - destruct (Chords.has_degree factors 5); reflexivity.
  - destruct (minor qualities (Intervals.quality third)); [|reflexivity].
    destruct (Chords.has_degree factors 5); reflexivity.
Qed.

(** C2 holds of [AbstractChord] and fails of [Chord].  [Chord.__init__]
    assigns the quality of the third and never escalates it, and assigns
    [Perfect] when there is no third: the augmented triad [{1:0, 3:0, 5:1}]
    is Augmented as an [AbstractChord] and Major as a [Chord]; the diminished
    triad [{1:0, 3:-1, 5:-1}] is Diminished and Minor; [{1:0, 5:-1}], which
    has no third and a diminished fifth, is Diminished and Perfect. *)
Theorem C2_Chord_quality_is_the_third_alone :
  abstract_quality augmented_triad_factors = Ok Conventional.augmented_quality
  /\ rooted_quality augmented_triad_factors = Ok Conventional.major_quality
  /\ abstract_quality diminished_triad_factors = Ok Conventional.diminished_quality
  /\ rooted_quality diminished_triad_factors = Ok Conventional.minor_quality
  /\ abstract_quality diminished_fifth_factors = Ok Conventional.diminished_quality
  /\ rooted_quality diminished_fifth_factors = Ok Conventional.perfect_quality.
Proof. repeat split; vm_compute; reflexivity. Qed.

(** ** Loops and sorting *)

Lemma foldM_invariant {A S : Type} (f : S -> A -> result S) (I : S -> Prop)
    (l : list A) (s0 s : S) :
  (forall s a s', I s -> f s a = Ok s' -> I s') ->
  I s0 -> foldM f l s0 = Ok s -> I s.
Proof.
  intros Hstep. revert s0. induction l as [|a l IH]; intros s0 H0 Hfold; simpl in Hfold.
  - inversion Hfold; subst. exact H0.
  - apply bind_Ok_inv in Hfold as (s1 & Hs1 & Hfold).
    eapply IH; [|exact Hfold]. eapply Hstep; eassumption.
Qed.

Lemma Forall_dict_set {K V : Type} (key_match : K -> K -> bool) (P : K * V -> Prop)
    (d : dict K V) (k : K) (v : V) :
  Forall P d ->
  P (k, v) ->
  (forall k', key_match k' k = true -> P (k', v)) ->
  Forall P (dict_set key_match d k v).
Proof.
  intros Hd Hnew Hold. induction Hd as [|[k0 v0] d H0 Hd IH]; simpl.
  - constructor; [exact Hnew | constructor].
  - destruct (key_match k0 k) eqn:E.
    + constructor; [apply Hold, E | exact Hd].
    + constructor; [exact H0 | exact IH].
Qed.

Lemma Sorted_sorted_insert {A : Type} (before : A -> A -> bool) (x : A) (l : list A) :
  (forall a b, before a b = true -> before b a = false) ->
  Sorted (fun a b => before b a = false) l ->
  Sorted (fun a b => before b a = false) (sorted_insert before x l).
Proof.
  intros Hasym Hl. induction Hl as [|y l Hl IH Hhd]; simpl.
  - repeat constructor.
  - destruct (before y x) eqn:E.
    + constructor; [exact IH|].
      destruct Hhd as [|z l Hyz]; simpl.
      * constructor. apply Hasym, E.
      * destruct (before z x); constructor; [exact Hyz | apply Hasym, E].
    + constructor; [constructor; assumption | constructor; exact E].
Qed.

Lemma Sorted_sorted {A : Type} (before : A -> A -> bool) (l : list A) :
  (forall a b, before a b = true -> before b a = false) ->
  Sorted (fun a b => before b a = false) (sorted before l).
Proof.
  intros Hasym. unfold sorted. induction l as [|x l IH]; simpl.
  - constructor.
  - apply Sorted_sorted_insert; assumption.
Qed.

Lemma Sorted_take {A : Type} (R : A -> A -> Prop) (n : nat) (l : list A) :
  Sorted R l -> Sorted R (take n l).
Proof.
  intros Hl. revert n. induction Hl as [|x l Hl IH Hhd]; intros [|n]; simpl;
    try constructor.
  - apply IH.
  - destruct Hhd as [|y l Hxy]; destruct n; simpl; constructor. exact Hxy.
Qed.

Lemma Qeq_bool_comm (a b : Q) : Qeq_bool a b = Qeq_bool b a.
Proof.
  destruct (Qeq_bool a b) eqn:E1, (Qeq_bool b a) eqn:E2; try reflexivity.
  - apply Qeq_bool_iff in E1. symmetry in E1. apply Qeq_bool_iff in E1. congruence.
  - apply Qeq_bool_iff in E2. symmetry in E2. apply Qeq_bool_iff in E2. congruence.
Qed.

Lemma Qlt_bool_asym (a b : Q) :
  Chords.Qlt_bool a b = true -> Chords.Qlt_bool b a = false.
Proof.
  unfold Chords.Qlt_bool. intros H.
  apply negb_true_iff in H. apply negb_false_iff.
  apply Qle_bool_iff.
  destruct (Qlt_le_dec a b) as [Hlt | Hle].
  - apply Qlt_le_weak, Hlt.
  - apply Qle_bool_iff in Hle. congruence.
Qed.

(** The order on key tuples is asymmetric. *)
Lemma key_lt_asym (a b : Chords.match_stats) :
  Chords.key_lt a b = true -> Chords.key_lt b a = false.
Proof.
  unfold Chords.key_lt.
  rewrite (Qeq_bool_comm (Chords.recall b)), (Qeq_bool_comm (Chords.precision b)),
    (Qeq_bool_comm (Chords.likelihood_score b)).
  destruct (Qeq_bool (Chords.recall a) (Chords.recall b)); cbn [negb];
    [|apply Qlt_bool_asym].
  destruct (Qeq_bool (Chords.precision a) (Chords.precision b)); cbn [negb];
    [|apply Qlt_bool_asym].
  destruct (Qeq_bool (Chords.likelihood_score a) (Chords.likelihood_score b)); cbn [negb];
    apply Qlt_bool_asym.
Qed.

(** ** The order on key tuples *)

Lemma Qle_bool_false (x y : Q) : Qle_bool x y = false <-> (y < x)%Q.
Proof.
  split.
  - intros H. apply Qnot_le_lt. intros Hle. apply Qle_bool_iff in Hle. congruence.
  - intros H. destruct (Qle_bool x y) eqn:E; [|reflexivity].
    apply Qle_bool_iff in E. apply Qlt_not_le in H. contradiction.
Qed.

Lemma lex_layer (x y : Q) (rest : bool) :
  (if negb (Qeq_bool x y) then Chords.Qlt_bool x y else rest) = false
  <-> (y < x)%Q \/ ((x == y)%Q /\ rest = false).
Proof.
  unfold Chords.Qlt_bool. destruct (Qeq_bool x y) eqn:E; cbn [negb].
  - apply Qeq_bool_iff in E. split; [intros H; right; split; assumption|].
    intros [H | [_ H]]; [|exact H]. rewrite E in H. apply Qlt_irrefl in H. contradiction.
  - apply Qeq_bool_neq in E. rewrite negb_false_iff, Qle_bool_iff. split.
    + intros H. left. apply Qle_lt_or_eq in H as [H | H]; [exact H|].
      exfalso. apply E. symmetry. exact H.
    + intros [H | [H _]]; [apply Qlt_le_weak, H | contradiction].
Qed.

(** [key_lt a b] is false exactly when the tuple of [a] is at least that of
    [b] in the lexicographic order. *)
Lemma key_lt_false (a b : Chords.match_stats) :
  Chords.key_lt a b = false
  <-> (Chords.recall b < Chords.recall a)%Q
      \/ ((Chords.recall a == Chords.recall b)%Q
          /\ ((Chords.precision b < Chords.precision a)%Q
              \/ ((Chords.precision a == Chords.precision b)%Q
                  /\ ((Chords.likelihood_score b < Chords.likelihood_score a)%Q
                      \/ ((Chords.likelihood_score a == Chords.likelihood_score b)%Q
                          /\ (Chords.consonance b <= Chords.consonance a)%Q))))).
Proof.
  unfold Chords.key_lt. rewrite !lex_layer.
  unfold Chords.Qlt_bool. rewrite negb_false_iff, Qle_bool_iff. reflexivity.
Qed.

Ltac lexicographic :=
  first [ lra | left; lra | right; split; [lra | lexicographic] ].

Lemma key_lt_false_trans (a b c : Chords.match_stats) :
  Chords.key_lt a b = false -> Chords.key_lt b c = false -> Chords.key_lt a c = false.
Proof.
  rewrite !key_lt_false. intros Hab Hbc.
  repeat match goal with
         | H : _ \/ _ |- _ => destruct H
         | H : _ /\ _ |- _ => destruct H
         end; lexicographic.
Qed.

Lemma key_lt_irrefl (a : Chords.match_stats) : Chords.key_lt a a = false.
Proof. apply key_lt_false. lexicographic. Qed.

(** The candidates in descending order of their key tuples. *)
Lemma sorted_descending {candidate : Type} (l : list (candidate * Chords.match_stats)) :
  Spec.ranked_descending
    (sorted (fun y x : candidate * Chords.match_stats => Chords.key_lt (snd x) (snd y)) l).
Proof.
  apply Sorted_StronglySorted.
  - intros a b c. apply key_lt_false_trans.
  - apply (Sorted_sorted (fun y x : candidate * Chords.match_stats =>
                            Chords.key_lt (snd x) (snd y))).
    intros a b. apply key_lt_asym.
Qed.

Lemma StronglySorted_app_elem {A : Type} (R : A -> A -> Prop) (l1 l2 : list A) (x y : A) :
  StronglySorted R (l1 ++ l2) -> x ∈ l1 -> y ∈ l2 -> R x y.
Proof.
  induction l1 as [|a l1 IH]; intros Hsorted Hx Hy; [inversion Hx|].
  simpl in Hsorted. apply StronglySorted_inv in Hsorted as [Hrest Hall].
  apply elem_of_cons in Hx as [-> | Hx]; [|apply IH; assumption].
  rewrite Forall_forall in Hall. apply Hall, elem_of_app. right. exact Hy.
Qed.

(** ** Loops that keep and loops that establish *)

Lemma foldM_invariant_In {A S : Type} (f : S -> A -> result S) (I : S -> Prop)
    (l : list A) (s0 s : S) :
  (forall s a s', a ∈ l -> I s -> f s a = Ok s' -> I s') ->
  I s0 -> foldM f l s0 = Ok s -> I s.
Proof.
  revert s0. induction l as [|a l IH]; intros s0 Hstep H0 Hfold; simpl in Hfold.
  - inversion Hfold; subst. exact H0.
  - apply bind_Ok_inv in Hfold as (s1 & Hs1 & Hfold).
    eapply IH; [| |exact Hfold].
    + intros s2 b s3 Hb. apply Hstep. now right.
    + eapply Hstep; [left | exact H0 | exact Hs1].
Qed.

(** What the round for one element establishes, and no round undoes, holds
    when the loop ends. *)
Lemma foldM_establishes {A S : Type} (f : S -> A -> result S) (P : S -> Prop)
    (l : list A) (a : A) (s0 s : S) :
  (forall s b s', f s b = Ok s' -> P s -> P s') ->
  (forall s s', f s a = Ok s' -> P s') ->
  a ∈ l -> foldM f l s0 = Ok s -> P s.
Proof.
  intros Hkeeps Hsets. revert s0.
  induction l as [|b l IH]; intros s0 Ha Hfold; [inversion Ha|].
  simpl in Hfold. apply bind_Ok_inv in Hfold as (s1 & Hs1 & Hfold).
  apply elem_of_cons in Ha as [<- | Ha].
  - revert Hfold. apply foldM_invariant.
    + intros t b t' Ht Hstep. eapply Hkeeps; eassumption.
    + eapply Hsets, Hs1.
  - eapply IH; eassumption.
Qed.

Lemma dict_set_has_key {K V : Type} (key_match : K -> K -> bool)
    (d : dict K V) (k : K) (v : V) :
  exists entry, entry ∈ dict_set key_match d k v
                /\ (fst entry = k \/ key_match (fst entry) k = true).
Proof.
  induction d as [|[k0 v0] d IH]; simpl.
  - exists (k, v). split; [left | left; reflexivity].
  - destruct (key_match k0 k) eqn:E.
    + exists (k0, v). split; [left | right; exact E].
    + destruct IH as (entry & Hin & Hkey). exists entry. split; [right; exact Hin | exact Hkey].
Qed.

Lemma dict_set_keeps_keys {K V : Type} (key_match : K -> K -> bool)
    (d : dict K V) (k : K) (v : V) (entry : K * V) :
  entry ∈ d -> exists entry', entry' ∈ dict_set key_match d k v /\ fst entry' = fst entry.
Proof.
  induction d as [|[k0 v0] d IH]; intros Hin; [inversion Hin|]. simpl.
  apply elem_of_cons in Hin as [-> | Hin].
  - destruct (key_match k0 k).
    + exists (k0, v). split; [left | reflexivity].
    + exists (k0, v0). split; [left | reflexivity].
  - destruct (key_match k0 k).
    + exists entry. split; [right; exact Hin | reflexivity].
    + destruct (IH Hin) as (entry' & Hin' & Hfst).
      exists entry'. split; [right; exact Hin' | exact Hfst].
Qed.

(** ** C7 *)

Section MatcherProperties.

Context {Note candidate : Type}.
Context (unique : list Note -> list Note).
Context (candidate_for : Chords.match_flags -> list Note -> Note -> Chords.ChordFactors
                         -> result (candidate * Q)).
Context (bass_is_first : candidate -> list Note -> bool).
Context (precision_recall : Chords.match_flags -> list Note -> candidate -> result (Q * Q)).
Context (consonance_of : candidate -> result Q).
Context (candidate_key : candidate -> candidate -> bool).
Context (round : Q -> Z -> Q).

Local Abbreviation scored :=
  (Spec.scored unique candidate_for bass_is_first precision_recall consonance_of).
Local Abbreviation retained :=
  (Spec.retained unique candidate_for bass_is_first precision_recall consonance_of
     candidate_key round).
Local Abbreviation is_candidate := (Spec.is_candidate candidate_key).
Local Abbreviation try_candidate :=
  (Chords.try_candidate unique candidate_for bass_is_first precision_recall consonance_of
     candidate_key round).
Local Abbreviation collect_candidates :=
  (Chords.collect_candidates unique candidate_for bass_is_first precision_recall
     consonance_of candidate_key round).
Local Abbreviation matching_chords :=
  (Chords.matching_chords unique candidate_for bass_is_first precision_recall
     consonance_of candidate_key round).
Local Abbreviation most_likely_chord :=
  (Chords.most_likely_chord unique candidate_for bass_is_first precision_recall
     consonance_of candidate_key round).

Section OneSearch.

Context (names_by_rarity : dict Z (list string)).
Context (names_to_factors : dict string Chords.ChordFactors).
Context (flags : Chords.match_flags) (min_recall min_precision min_likelihood : Q).
Context (note_list : list Note).

(** The outcomes of one round of the innermost loop, when it returns. *)
Lemma try_candidate_outcome (n : Note) (chord_name : string)
    (candidates candidates' : dict candidate Chords.match_stats) :
  try_candidate names_to_factors flags min_recall min_precision min_likelihood
    note_list n candidates chord_name = Ok candidates' ->
  exists cand_factors cand likelihood,
    dict_getitem Chords.str_eqb names_to_factors chord_name = Ok cand_factors
    /\ candidate_for flags note_list n cand_factors = Ok (cand, likelihood)
    /\ ((negb (Chords.require_root flags) || bass_is_first cand note_list = false
         /\ candidates' = candidates)
        \/ exists precision recall consonance,
             negb (Chords.require_root flags) || bass_is_first cand note_list = true
             /\ precision_recall flags (unique note_list) cand = Ok (precision, recall)
             /\ consonance_of cand = Ok consonance
             /\ ((Chords.Qge_bool recall min_recall && Chords.Qge_bool precision min_precision
                  && Chords.Qge_bool likelihood min_likelihood = false
                  /\ candidates' = candidates)
                 \/ ((min_recall <= recall)%Q /\ (min_precision <= precision)%Q
                     /\ (min_likelihood <= likelihood)%Q
                     /\ candidates'
                        = dict_set candidate_key candidates cand
                            {| Chords.recall := round recall 2;
                               Chords.precision := round precision 2;
                               Chords.likelihood_score := round likelihood 2;
                               Chords.consonance := round consonance 3 |}))).
Proof.
  intros Htry. unfold Chords.try_candidate in Htry.
  apply bind_Ok_inv in Htry as (cand_factors & Hfactors & Htry).
  apply bind_Ok_inv in Htry as ([cand likelihood] & Hbuilt & Htry).
  exists cand_factors, cand, likelihood. split; [exact Hfactors|]. split; [exact Hbuilt|].
  destruct (negb (Chords.require_root flags) || bass_is_first cand note_list);
    [|left; split; [reflexivity | congruence]].
  apply bind_Ok_inv in Htry as ([precision recall] & Hscores & Htry).
  apply bind_Ok_inv in Htry as (consonance & Hcons & Htry).
  right. exists precision, recall, consonance.
  split; [reflexivity|]. split; [exact Hscores|]. split; [exact Hcons|].
  destruct (Chords.Qge_bool recall min_recall && Chords.Qge_bool precision min_precision
            && Chords.Qge_bool likelihood min_likelihood) eqn:Epass;
    [|left; split; [reflexivity | congruence]].
  apply andb_prop in Epass as [Epass Elik]. apply andb_prop in Epass as [Erec Eprec].
  unfold Chords.Qge_bool in *. apply Qle_bool_iff in Elik, Erec, Eprec.
  right. repeat split; try assumption. congruence.
Qed.

Lemma try_candidate_retains (n : Note) (tier : Z * list string) (chord_name : string)
    (candidates candidates' : dict candidate Chords.match_stats) :
  n ∈ unique note_list -> tier ∈ names_by_rarity -> chord_name ∈ snd tier ->
  Forall (retained names_by_rarity names_to_factors flags note_list
            min_recall min_precision min_likelihood) candidates ->
  try_candidate names_to_factors flags min_recall min_precision min_likelihood
    note_list n candidates chord_name = Ok candidates' ->
  Forall (retained names_by_rarity names_to_factors flags note_list
            min_recall min_precision min_likelihood) candidates'.
Proof.
  intros Hn Htier Hname Hall Htry.
  apply try_candidate_outcome in Htry
    as (cand_factors & cand & likelihood & Hfactors & Hbuilt
        & [[_ ->] | (precision & recall & consonance & Hroot & Hscores & Hcons
                     & [[_ ->] | (Hrec & Hprec & Hlik & ->)])]);
    try exact Hall.
  assert (Hscored : scored names_by_rarity names_to_factors flags note_list
                      cand recall precision likelihood consonance).
  { exists n, tier, chord_name, cand_factors. repeat split; assumption. }
  apply Forall_dict_set; [exact Hall | |].
  - exists cand, recall, precision, likelihood, consonance.
    repeat split; try assumption. left. reflexivity.
  - intros k' Hk'. exists cand, recall, precision, likelihood, consonance.
    repeat split; try assumption. right. exact Hk'.
Qed.

(** A chord found among the candidates stays among them. *)
Lemma try_candidate_keeps (n : Note) (chord_name : string) (kept : candidate)
    (candidates candidates' : dict candidate Chords.match_stats) :
  try_candidate names_to_factors flags min_recall min_precision min_likelihood
    note_list n candidates chord_name = Ok candidates' ->
  is_candidate candidates kept -> is_candidate candidates' kept.
Proof.
  intros Htry Hkept.
  apply try_candidate_outcome in Htry
    as (cand_factors & cand & likelihood & _ & _
        & [[_ ->] | (precision & recall & consonance & _ & _ & _
                     & [[_ ->] | (_ & _ & _ & ->)])]);
    try exact Hkept.
  destruct Hkept as (entry & Hin & Hkey).
  destruct (dict_set_keeps_keys candidate_key candidates cand
              {| Chords.recall := round recall 2;
                 Chords.precision := round precision 2;
                 Chords.likelihood_score := round likelihood 2;
                 Chords.consonance := round consonance 3 |} entry Hin)
    as (entry' & Hin' & Hfst).
  exists entry'. split; [exact Hin'|]. rewrite Hfst. exact Hkey.
Qed.

Lemma collect_candidates_retains (candidates : dict candidate Chords.match_stats) :
  collect_candidates names_by_rarity names_to_factors flags
    min_recall min_precision min_likelihood note_list = Ok candidates ->
  Forall (retained names_by_rarity names_to_factors flags note_list
            min_recall min_precision min_likelihood) candidates.
Proof.
  unfold Chords.collect_candidates.
  apply foldM_invariant_In; [|constructor].
  intros s n s' Hn Hs. apply foldM_invariant_In; [|exact Hs].
  intros t tier t' Htier Ht. apply foldM_invariant_In; [|exact Ht].
  intros u chord_name u' Hname Hu. apply try_candidate_retains with tier; assumption.
Qed.

(** Every candidate chord of the search that clears the three minima is
    among the candidates collected. *)
Lemma collect_candidates_complete (candidates : dict candidate Chords.match_stats)
    (cand : candidate) (recall precision likelihood consonance : Q) :
  collect_candidates names_by_rarity names_to_factors flags
    min_recall min_precision min_likelihood note_list = Ok candidates ->
  scored names_by_rarity names_to_factors flags note_list
    cand recall precision likelihood consonance ->
  (min_recall <= recall)%Q -> (min_precision <= precision)%Q ->
  (min_likelihood <= likelihood)%Q ->
  is_candidate candidates cand.
Proof.
  intros Hcollect (n & tier & chord_name & cand_factors & Hn & Htier & Hname & Hfactors
                   & Hbuilt & Hroot & Hscores & Hcons) Hrec Hprec Hlik.
  assert (Hkeeps : forall (m : Note) (names : list string) s s',
             foldM (try_candidate names_to_factors flags min_recall min_precision
                      min_likelihood note_list m) names s = Ok s' ->
             is_candidate s cand -> is_candidate s' cand).
  { intros m names s s' Hfold Hs. revert Hfold.
    apply (foldM_invariant _ (fun s => is_candidate s cand)); [|exact Hs].
    intros t name t' Ht Hstep. eapply try_candidate_keeps; eassumption. }
  unfold Chords.collect_candidates in Hcollect. revert Hcollect.
  apply (foldM_establishes _ (fun s => is_candidate s cand) _ n); [| |exact Hn].
  { intros s m s' Hround Hs. revert Hround.
    apply (foldM_invariant _ (fun s => is_candidate s cand)); [|exact Hs].
    intros t entry t' Ht Hstep. eapply Hkeeps; eassumption. }
  intros s s'.
  apply (foldM_establishes _ (fun s => is_candidate s cand) _ tier); [| |exact Htier].
  { intros t entry t'. apply Hkeeps. }
  intros t t'.
  apply (foldM_establishes _ (fun s => is_candidate s cand) _ chord_name);
    [| |exact Hname].
  { intros u name u' Hstep. eapply try_candidate_keeps, Hstep. }
  intros u u' Htry. unfold Chords.try_candidate in Htry.
  rewrite Hfactors in Htry. cbn [bind] in Htry. rewrite Hbuilt in Htry. cbn [bind] in Htry.
  rewrite Hroot, Hscores in Htry. cbn [bind] in Htry. rewrite Hcons in Htry.
  cbn [bind] in Htry.
  unfold Chords.Qge_bool in Htry.
  apply Qle_bool_iff in Hrec, Hprec, Hlik. rewrite Hrec, Hprec, Hlik in Htry.
  cbn [andb] in Htry. inversion Htry; subst; clear Htry.
  apply dict_set_has_key.
Qed.

End OneSearch.


End MatcherProperties.


(** ** The names registry construction registers *)

Lemma Forall_dict_set_value {K V : Type} (key_match : K -> K -> bool) (P : V -> Prop)
    (d : dict K V) (k : K) (v : V) :
  Forall (fun e => P (snd e)) d -> P v ->
  Forall (fun e => P (snd e)) (dict_set key_match d k v).
Proof. intros Hd Hv. apply Forall_dict_set; [exact Hd | exact Hv | intros; exact Hv]. Qed.

Lemma dict_getitem_Forall {K V : Type} (key_match : K -> K -> bool) (P : V -> Prop)
    (d : dict K V) (k : K) (v : V) :
  Forall (fun e => P (snd e)) d -> dict_getitem key_match d k = Ok v -> P v.
Proof.
  unfold dict_getitem. induction 1 as [|[k0 v0] d H0 Hd IH]; simpl; [discriminate|].
  destruct (key_match k0 k); [intros [= <-]; exact H0 | exact IH].
Qed.

Lemma generated_names_checked :
  forallb (fun name => negb (contains_char slash name) && negb (contains_char backslash name)
                       && negb (Spec.ends_with "(no5)" name))
          Spec.generated_names = true
  /\ forallb (fun name => negb (bool_decide (name ∈ Spec.generated_names)))
             Spec.compound_names = true.
Proof. split; vm_compute; reflexivity. Qed.

Lemma base_name_generated (chord_name : string) :
  chord_name ∈ Chords.all_base_names -> chord_name ∈ Spec.generated_names.
Proof. intros H. unfold Spec.generated_names. apply elem_of_app. now left. Qed.

Lemma altered_name_In (chord_name mod_name : string) :
  chord_name ∈ Chords.all_base_names ->
  negb (str_in chord_name Chords.unmodifiable_chords) = true ->
  mod_name ∈ Chords.ordered_modifier_names ->
  chord_name +:+ mod_name ∈ Spec.altered_names.
Proof.
  intros Hbase Hmod Hm. unfold Spec.altered_names.
  apply list_elem_of_In, in_flat_map. exists chord_name. split.
  - apply filter_In. split; [apply list_elem_of_In, Hbase | exact Hmod].
  - apply in_map, list_elem_of_In, Hm.
Qed.

Lemma altered_name_generated (name : string) :
  name ∈ Spec.altered_names -> name ∈ Spec.generated_names.
Proof. intros H. unfold Spec.generated_names. apply elem_of_app. now right. Qed.

Section RegistryNames.

Context (qualities : qualities_module) (qualifiers_api : Chords.qualifiers_module).
Context (hash : list Z -> Z).

Local Abbreviation names_ok := (Invariants.names_invariant qualities).

Lemma register_base_names (state state' : Chords.build_state qualities) (chord_name : string) :
  chord_name ∈ Chords.all_base_names ->
  names_ok state ->
  Chords.register_base qualities qualifiers_api hash state chord_name = Ok state' ->
  names_ok state'.
Proof.
  intros Hname (Hf & Hi & Hr) Hstep. unfold Chords.register_base in Hstep.
  apply bind_Ok_inv in Hstep as (base_chord & _ & Hstep).
  destruct (_ || _) in Hstep.
  - apply bind_Ok_inv in Hstep as (? & _ & Hstep). inversion Hstep; subst.
    repeat split; assumption.
  - inversion Hstep; subst; clear Hstep.
    repeat split; cbn [Chords.f2n Chords.i2n Chords.new_rarities]; [| |exact Hr].
    + apply (Forall_dict_set_value _ (fun name => name ∈ Spec.generated_names));
        [exact Hf | apply base_name_generated, Hname].
    + apply (Forall_dict_set_value _ (fun name => name ∈ Spec.generated_names));
        [exact Hi | apply base_name_generated, Hname].
Qed.

(** The innermost loop registers nothing: with [modifier2] fetched under
    [mod_name], the test [modifier2 is not modifier] fails. *)
Lemma register_second_modifier_skips (base_chord : Chords.AbstractChord qualities)
    (mod_name mod_name2 : string) (modifier : Chords.qualifier_object)
    (altered_factors : Chords.ChordFactors) (state : Chords.build_state qualities) :
  Chords.lookup_modifier qualifiers_api mod_name = Ok modifier ->
  Chords.register_second_modifier qualities qualifiers_api base_chord mod_name modifier
    altered_factors state mod_name2 = Ok state.
Proof.
  intros Hlookup. unfold Chords.register_second_modifier.
  rewrite Hlookup. cbn [bind]. rewrite Pos.eqb_refl. reflexivity.
Qed.

Lemma second_modifiers_skip (base_chord : Chords.AbstractChord qualities)
    (mod_name : string) (modifier : Chords.qualifier_object)
    (altered_factors : Chords.ChordFactors) (names : list string)
    (state : Chords.build_state qualities) :
  Chords.lookup_modifier qualifiers_api mod_name = Ok modifier ->
  foldM (Chords.register_second_modifier qualities qualifiers_api base_chord mod_name
           modifier altered_factors) names state = Ok state.
Proof.
  intros Hlookup. induction names as [|mod_name2 names IH]; simpl; [reflexivity|].
  rewrite register_second_modifier_skips by exact Hlookup. exact IH.
Qed.

(** What one round of the modifier loop does to the state, when it returns:
    nothing, or one registration of [chord_name + mod_name]. *)
Lemma register_modifier_outcome (rarities : dict string Z) (chord_name mod_name : string)
    (base_chord : Chords.AbstractChord qualities)
    (state state' : Chords.build_state qualities) :
  Chords.register_modifier qualities qualifiers_api hash rarities chord_name base_chord
    state mod_name = Ok state' ->
  state' = state
  \/ exists modifier altered_factors altered_intervals altered_rarity names,
       Chords.lookup_modifier qualifiers_api mod_name = Ok modifier
       /\ Chords.ChordFactors_add (Chords.factors qualities base_chord)
            (Chords.referent modifier) = Ok altered_factors
       /\ Chords.to_intervals qualities altered_factors = Ok altered_intervals
       /\ dict_contains (Chords.factors_key hash) (Chords.f2n qualities state)
            altered_factors = false
       /\ dict_getitem Z.eqb (Chords.new_rarities qualities state) altered_rarity = Ok names
       /\ state' =
          {| Chords.f2n := dict_set (Chords.factors_key hash) (Chords.f2n qualities state)
                             altered_factors (chord_name +:+ mod_name);
             Chords.i2n := dict_set (Chords.intervals_key qualities)
                             (Chords.i2n qualities state)
                             altered_intervals (chord_name +:+ mod_name);
             Chords.new_rarities :=
               dict_set Z.eqb (Chords.new_rarities qualities state) altered_rarity
                        (names ++ [chord_name +:+ mod_name]) |}.
Proof.
  unfold Chords.register_modifier. intros Hstep.
  apply bind_Ok_inv in Hstep as (modifier & Hlookup & Hstep).
  destruct (Chords.valid_on _ _ _) in Hstep; [|left; congruence].
  destruct (negb _) in Hstep; [|left; congruence].
  apply bind_Ok_inv in Hstep as (altered_factors & Hadd & Hstep).
  apply bind_Ok_inv in Hstep as (altered_intervals & Hintervals & Hstep).
  destruct (dict_contains (Chords.factors_key hash) _ _) eqn:Econtains;
    cbn [negb andb] in Hstep; [left; congruence|].
  destruct (negb _) in Hstep; [|left; congruence].
  apply bind_Ok_inv in Hstep as (mod_rarity & _ & Hstep).
  apply bind_Ok_inv in Hstep as (base_rarity & _ & Hstep).
  apply bind_Ok_inv in Hstep as (names & Hnames & Hstep).
  rewrite second_modifiers_skip in Hstep by exact Hlookup.
  right. exists modifier, altered_factors, altered_intervals, (base_rarity + mod_rarity), names.
  repeat split; try assumption. congruence.
Qed.

Lemma register_modifier_names (rarities : dict string Z) (chord_name mod_name : string)
    (base_chord : Chords.AbstractChord qualities)
    (state state' : Chords.build_state qualities) :
  chord_name ∈ Chords.all_base_names ->
  negb (str_in chord_name Chords.unmodifiable_chords) = true ->
  mod_name ∈ Chords.ordered_modifier_names ->
  names_ok state ->
  Chords.register_modifier qualities qualifiers_api hash rarities chord_name base_chord
    state mod_name = Ok state' ->
  names_ok state'.
Proof.
  intros Hbase Hmodifiable Hmod (Hf & Hi & Hr) Hstep.
  pose proof (altered_name_In chord_name mod_name Hbase Hmodifiable Hmod) as Haltered.
  apply register_modifier_outcome in Hstep
    as [-> | (modifier & af & ai & r & names & _ & _ & _ & _ & Hnames & ->)].
  { repeat split; assumption. }
  repeat split; cbn [Chords.f2n Chords.i2n Chords.new_rarities].
  - apply (Forall_dict_set_value _ (fun name => name ∈ Spec.generated_names));
      [exact Hf | apply altered_name_generated, Haltered].
  - apply (Forall_dict_set_value _ (fun name => name ∈ Spec.generated_names));
      [exact Hi | apply altered_name_generated, Haltered].
  - apply (Forall_dict_set_value _
             (fun l => Forall (fun name => name ∈ Spec.altered_names) l));
      [exact Hr|].
    apply Forall_app. split.
    + eapply (dict_getitem_Forall Z.eqb
                (fun l => Forall (fun name => name ∈ Spec.altered_names) l));
        [exact Hr | exact Hnames].
    + apply Forall_cons. split; [exact Haltered | apply Forall_nil_2].
Qed.

Lemma register_modifiers_names (rarities : dict string Z) (chord_name : string)
    (state state' : Chords.build_state qualities) :
  chord_name ∈ Chords.all_base_names ->
  names_ok state ->
  Chords.register_modifiers qualities qualifiers_api hash rarities state chord_name
    = Ok state' ->
  names_ok state'.
Proof.
  intros Hbase Hstate Hstep. unfold Chords.register_modifiers in Hstep.
  destruct (negb (str_in chord_name Chords.unmodifiable_chords)) eqn:Hmodifiable;
    [|inversion Hstep; subst; exact Hstate].
  apply bind_Ok_inv in Hstep as (base_chord & _ & Hstep).
  revert Hstep. apply foldM_invariant_In; [|exact Hstate].
  intros s mod_name s' Hmod Hs. apply register_modifier_names; assumption.
Qed.

(** The two loops write generated names only. *)
Lemma build_state_names (state : Chords.build_state qualities) :
  (let* state := foldM (Chords.register_base qualities qualifiers_api hash)
                       Chords.all_base_names (Chords.initial_state qualities) in
   foldM (Chords.register_modifiers qualities qualifiers_api hash
            (Chords.unpack_and_reverse_dict Chords.base_chord_names_by_rarity))
         Chords.all_base_names state) = Ok state ->
  names_ok state.
Proof.
  intros Hbuild. apply bind_Ok_inv in Hbuild as (state1 & Hpass1 & Hpass2).
  assert (H1 : names_ok state1).
  { revert Hpass1. apply foldM_invariant_In.
    - intros s a s' Ha Hs. apply register_base_names; assumption.
    - unfold Chords.initial_state.
      repeat split; cbn [Chords.f2n Chords.i2n Chords.new_rarities map];
        repeat constructor. }
  revert Hpass2. apply foldM_invariant_In; [|exact H1].
  intros s a s' Ha Hs. apply register_modifiers_names; assumption.
Qed.

End RegistryNames.

Lemma keys_dict_set_incl {K V : Type} (key_match : K -> K -> bool)
    (d : dict K V) (k : K) (v : V) (k' : K) :
  k' ∈ keys (dict_set key_match d k v) -> k' ∈ keys d \/ k' = k.
Proof.
  unfold keys. induction d as [|[k0 v0] d IH]; simpl.
  - intros H. apply list_elem_of_singleton in H. now right.
  - destruct (key_match k0 k); simpl; intros H.
    + now left.
    + apply elem_of_cons in H as [-> | H]; [left; left|].
      destruct (IH H) as [H' | ->]; [left; now right | now right].
Qed.

Lemma keys_unpack_and_reverse (by_rarity : dict Z (list string)) (name : string) :
  name ∈ keys (Chords.unpack_and_reverse_dict by_rarity) ->
  exists entry, entry ∈ by_rarity /\ name ∈ snd entry.
Proof.
  unfold Chords.unpack_and_reverse_dict.
  assert (Hgen : forall (l : dict Z (list string)) (acc : dict string Z),
             name ∈ keys (fold_left
                            (fun d entry =>
                               fold_left (fun d name => dict_set Chords.str_eqb d name (fst entry))
                                         (snd entry) d) l acc) ->
             name ∈ keys acc \/ exists entry, entry ∈ l /\ name ∈ snd entry).
  { induction l as [|entry l IH]; intros acc H; simpl in H; [now left|].
    apply IH in H as [H | (e & He & Hn)].
    - assert (Hinner : forall (names : list string) (acc : dict string Z),
                 name ∈ keys (fold_left (fun d name => dict_set Chords.str_eqb d name (fst entry))
                                        names acc) ->
                 name ∈ keys acc \/ name ∈ names).
      { induction names as [|n names IHn]; intros acc' H'; simpl in H'; [now left|].
        apply IHn in H' as [H' | H']; [|right; now right].
        apply keys_dict_set_incl in H' as [H' | ->]; [now left | right; left]. }
      apply Hinner in H as [H | H]; [now left|].
      right. exists entry. split; [left | exact H].
    - right. exists e. split; [now right | exact Hn]. }
  intros H. apply Hgen in H as [H | H]; [|exact H].
  apply elem_of_nil in H. tauto.
Qed.

Lemma keys_reverse_dict {K : Type} (d : dict K string) (name : string) :
  name ∈ keys (Chords.reverse_dict d) -> name ∈ values d.
Proof.
  unfold Chords.reverse_dict, values.
  assert (Hgen : forall (l : dict K string) (acc : dict string K),
             name ∈ keys (fold_left (fun r entry => dict_set Chords.str_eqb r (snd entry) (fst entry))
                                    l acc) ->
             name ∈ keys acc \/ name ∈ map snd l).
  { induction l as [|entry l IH]; intros acc H; simpl in H; [now left|].
    apply IH in H as [H | H]; [|right; now right].
    apply keys_dict_set_incl in H as [H | ->]; [now left | right; left]. }
  intros H. apply Hgen in H as [H | H]; [|exact H].
  apply elem_of_nil in H. tauto.
Qed.

Lemma ends_with_append (ending parent : string) :
  Spec.ends_with ending (parent +:+ ending) = true.
Proof.
  induction parent as [|c parent IH]; simpl.
  - destruct ending; simpl; [reflexivity|]. rewrite bool_decide_eq_true_2; reflexivity.
  - destruct (bool_decide (String c (parent +:+ ending) = ending)); [reflexivity | exact IH].
Qed.

Lemma generated_name_properties (name : string) :
  name ∈ Spec.generated_names ->
  contains_char slash name = false
  /\ contains_char backslash name = false
  /\ Spec.ends_with "(no5)" name = false
  /\ name ∉ Spec.compound_names.
Proof.
  intros Hname. destruct generated_names_checked as [Hchecked Hcompound].
  rewrite forallb_forall in Hchecked. specialize (Hchecked name).
  rewrite <- list_elem_of_In in Hchecked. specialize (Hchecked Hname).
  apply andb_prop in Hchecked as [Hchecked Hno5].
  apply andb_prop in Hchecked as [Hslash Hback].
  apply negb_true_iff in Hslash, Hback, Hno5.
  repeat split; try assumption.
  intros Hin. rewrite forallb_forall in Hcompound. specialize (Hcompound name).
  rewrite <- list_elem_of_In in Hcompound. specialize (Hcompound Hin).
  apply negb_true_iff, bool_decide_eq_false_1 in Hcompound. tauto.
Qed.

Section RegistryContents.

Context (qualities : qualities_module) (qualifiers_api : Chords.qualifiers_module).
Context (hash : list Z -> Z).

Lemma Forall_values {K V : Type} (P : V -> Prop) (d : dict K V) :
  Forall (fun e => P (snd e)) d -> forall v, v ∈ values d -> P v.
Proof.
  unfold values. induction 1 as [|[k0 v0] d H0 Hd IH]; simpl; intros v Hv.
  - apply elem_of_nil in Hv. tauto.
  - apply elem_of_cons in Hv as [-> | Hv]; [exact H0 | apply IH, Hv].
Qed.

Lemma extend_rarities_names (state : Chords.build_state qualities)
    (by_rarity : dict Z (list string)) :
  Invariants.names_invariant qualities state ->
  foldM Chords.extend_rarities (Chords.new_rarities qualities state)
        Chords.base_chord_names_by_rarity = Ok by_rarity ->
  Forall (fun e => Forall (fun name => name ∈ Spec.generated_names) (snd e)) by_rarity.
Proof.
  intros (_ & _ & Hr).
  apply foldM_invariant_In.
  - intros s entry s' Hentry Hs Hstep. unfold Chords.extend_rarities in Hstep.
    apply bind_Ok_inv in Hstep as (names & Hnames & Hstep).
    inversion Hstep; subst; clear Hstep.
    apply (Forall_dict_set_value _
             (fun l => Forall (fun name => name ∈ Spec.generated_names) l));
      [exact Hs|].
    apply Forall_app. split.
    + eapply (dict_getitem_Forall Z.eqb
                (fun l => Forall (fun name => name ∈ Spec.generated_names) l));
        [exact Hs | exact Hnames].
    + rewrite Forall_forall in Hr. specialize (Hr entry Hentry).
      eapply Forall_impl; [exact Hr|]. intros name. apply altered_name_generated.
  - apply (bool_decide_unpack _). vm_compute. reflexivity.
Qed.

(** Every name of the finished registry, in any of its dictionaries, is a
    generated name. *)
Lemma registry_names (reg : Chords.registry qualities) (name : string) :
  Chords.build_registry qualities qualifiers_api hash = Ok reg ->
  name ∈ values (Chords.factors_to_chord_names qualities reg)
  \/ name ∈ values (Chords.intervals_to_chord_names qualities reg)
  \/ name ∈ keys (Chords.chord_name_rarities qualities reg)
  \/ name ∈ keys (Chords.chord_names_to_factors qualities reg)
  \/ name ∈ keys (Chords.chord_names_to_intervals qualities reg)
  \/ (exists entry, entry ∈ Chords.chord_names_by_rarity qualities reg /\ name ∈ snd entry) ->
  name ∈ Spec.generated_names.
Proof.
  intros Hbuild. unfold Chords.build_registry in Hbuild. cbn zeta in Hbuild.
  apply bind_Ok_inv in Hbuild as (state1 & Hpass1 & Hbuild).
  apply bind_Ok_inv in Hbuild as (state & Hpass2 & Hbuild).
  apply bind_Ok_inv in Hbuild as (by_rarity & Hextend & Hbuild).
  inversion Hbuild; subst; clear Hbuild.
  cbn [Chords.factors_to_chord_names Chords.intervals_to_chord_names
       Chords.chord_name_rarities Chords.chord_names_to_factors
       Chords.chord_names_to_intervals Chords.chord_names_by_rarity].
  assert (Hnames : Invariants.names_invariant qualities state).
  { apply (build_state_names qualities qualifiers_api hash).
    rewrite Hpass1. exact Hpass2. }
  pose proof (extend_rarities_names state by_rarity Hnames Hextend) as Hby.
  destruct Hnames as (Hf & Hi & _).
  assert (Htier : (exists entry, entry ∈ by_rarity /\ name ∈ snd entry) ->
                  name ∈ Spec.generated_names).
  { intros (entry & Hentry & Hname).
    rewrite Forall_forall in Hby. specialize (Hby entry Hentry).
    rewrite Forall_forall in Hby. apply Hby, Hname. }
  intros [H | [H | [H | [H | [H | H]]]]].
  - exact (Forall_values (fun name => name ∈ Spec.generated_names) _ Hf name H).
  - exact (Forall_values (fun name => name ∈ Spec.generated_names) _ Hi name H).
  - apply Htier, keys_unpack_and_reverse, H.
  - apply keys_reverse_dict in H.
    exact (Forall_values (fun name => name ∈ Spec.generated_names) _ Hf name H).
  - apply keys_reverse_dict in H.
    exact (Forall_values (fun name => name ∈ Spec.generated_names) _ Hi name H).
  - apply Htier, H.
Qed.

End RegistryContents.

(** ** The registry of the instance *)

Lemma conventional_registry_evaluated :
  of_result conventional_registry Some None = conventional_registry_value.
Proof. vm_cast_no_check (eq_refl conventional_registry_value). Qed.

Lemma conventional_registry_built : exists reg, conventional_registry = Ok reg.
Proof.
  pose proof conventional_registry_evaluated as H.
  destruct conventional_registry as [reg|e]; [eauto | discriminate H].
Qed.

Lemma of_registry_fact (P : Chords.registry Conventional.qualities -> Prop)
    (reg : Chords.registry Conventional.qualities) :
  conventional_registry = Ok reg -> of_registry P True -> P reg.
Proof.
  intros Hbuild. pose proof conventional_registry_evaluated as H.
  rewrite Hbuild in H. unfold of_registry. rewrite <- H.
  intros HP. exact HP.
Qed.

(** An equation about the registry of the instance, by evaluation. *)
Ltac by_registry reg Hbuild :=
  pattern reg; apply (of_registry_fact _ reg Hbuild); vm_compute; reflexivity.

(** ** C3 *)

(** C3 fails on the code: registry construction registers no compound name.
    Whenever it completes, a modifiable base name followed by two modifier
    names is a value of neither map, has no rarity, and stands in no tier of
    [chord_names_by_rarity]: the innermost loop fetches [modifier2] under
    [mod_name], so [modifier2 is not modifier] never holds. *)
Theorem C3_no_compound_name_is_registered
    (qualities : qualities_module) (qualifiers_api : Chords.qualifiers_module)
    (hash : list Z -> Z) (reg : Chords.registry qualities) (name : string) :
  Chords.build_registry qualities qualifiers_api hash = Ok reg ->
  name ∈ Spec.compound_names ->
  name ∉ values (Chords.factors_to_chord_names qualities reg)
  /\ name ∉ values (Chords.intervals_to_chord_names qualities reg)
  /\ name ∉ keys (Chords.chord_name_rarities qualities reg)
  /\ (forall entry, entry ∈ Chords.chord_names_by_rarity qualities reg -> name ∉ snd entry).
Proof.
  intros Hbuild Hcompound.
  assert (Hnot : name ∉ Spec.generated_names).
  { intros Hgen. apply generated_name_properties in Hgen as (_ & _ & _ & Hgen). tauto. }
  repeat split.
  - intros H. apply Hnot. eapply registry_names; [exact Hbuild | tauto].
  - intros H. apply Hnot. eapply registry_names; [exact Hbuild | tauto].
  - intros H. apply Hnot. eapply registry_names; [exact Hbuild | tauto].
  - intros entry Hentry H. apply Hnot. eapply registry_names; [exact Hbuild|].
    do 5 right. exists entry. tauto.
Qed.

Lemma C3_witness :
  exists reg,
    conventional_registry = Ok reg
    /\ "madd9add11" ∈ Spec.compound_names
    /\ "madd9add11" ∉ values (Chords.factors_to_chord_names Conventional.qualities reg)
    /\ "madd9add11" ∉ values (Chords.intervals_to_chord_names Conventional.qualities reg)
    /\ "madd9add11" ∉ keys (Chords.chord_name_rarities Conventional.qualities reg)
    /\ (forall entry, entry ∈ Chords.chord_names_by_rarity Conventional.qualities reg ->
                      "madd9add11" ∉ snd entry).
Proof.
  destruct conventional_registry_built as [reg Hbuild].
  exists reg. split; [exact Hbuild|].
  assert (Hcompound : "madd9add11" ∈ Spec.compound_names) by compute_done.
  split; [exact Hcompound|].
  exact (C3_no_compound_name_is_registered Conventional.qualities
           Conventional.qualifiers_api Conventional.hash reg "madd9add11"
           Hbuild Hcompound).
Defined.

(** The input at which C3 fails, in the instance: ['madd9'] is registered,
    [add11] is a modifier other than [add9] and valid on its factors, and the
    factor-set the two give is registered under no name. *)
Example C3_second_modifier_was_applicable :
  exists reg add11,
    conventional_registry = Ok reg
    /\ Conventional.chord_modifiers "add11" = Some add11
    /\ option_map (Conventional.valid_on (Chords.referent add11)) (factors_named reg "madd9")
       = Some true
    /\ option_map (is_registered reg)
         (factors_named reg "madd9" ≫= with_qualifier (Chords.referent add11))
       = Some false.
Proof.
  destruct conventional_registry_built as [reg Hbuild].
  exists reg. eexists. split; [exact Hbuild|]. split; [reflexivity|].
  split; by_registry reg Hbuild.
Qed.

(** ** C4 *)

(** C4, as the code has it.  When registry construction completes, every
    name in any dictionary of the registry is a base name or a modifiable
    base name followed by one modifier name; none is a name followed by
    ['(no5)'].  No no-5 variant is registered. *)
Theorem C4_registry_has_no_no5_variant
    (qualities : qualities_module) (qualifiers_api : Chords.qualifiers_module)
    (hash : list Z -> Z) (reg : Chords.registry qualities) (name : string) :
  Chords.build_registry qualities qualifiers_api hash = Ok reg ->
  name ∈ values (Chords.factors_to_chord_names qualities reg)
  \/ name ∈ values (Chords.intervals_to_chord_names qualities reg)
  \/ name ∈ keys (Chords.chord_name_rarities qualities reg)
  \/ name ∈ keys (Chords.chord_names_to_factors qualities reg)
  \/ name ∈ keys (Chords.chord_names_to_intervals qualities reg)
  \/ (exists entry, entry ∈ Chords.chord_names_by_rarity qualities reg /\ name ∈ snd entry) ->
  name ∈ Spec.generated_names
  /\ forall parent, name <> parent +:+ "(no5)".
Proof.
  intros Hbuild Hname.
  assert (Hgen : name ∈ Spec.generated_names) by (eapply registry_names; eassumption).
  split; [exact Hgen|].
  intros parent ->.
  apply generated_name_properties in Hgen as (_ & _ & Hno5 & _).
  rewrite ends_with_append in Hno5. discriminate.
Qed.

Lemma C4_witness :
  exists reg,
    conventional_registry = Ok reg
    /\ "m7" ∈ keys (Chords.chord_name_rarities Conventional.qualities reg)
    /\ "m7" ∈ Spec.generated_names
    /\ forall parent, "m7" <> parent +:+ "(no5)".
Proof.
  destruct conventional_registry_built as [reg Hbuild].
  exists reg. split; [exact Hbuild|].
  assert (Hname : "m7" ∈ keys (Chords.chord_name_rarities Conventional.qualities reg)).
  { apply (bool_decide_unpack _). by_registry reg Hbuild. }
  split; [exact Hname|].
  apply (C4_registry_has_no_no5_variant Conventional.qualities
           Conventional.qualifiers_api Conventional.hash reg "m7" Hbuild).
  right. right. left. exact Hname.
Defined.

(** C4, as the claim states it, fails.  In the instance the major triad is
    registered under [''] at tier 0 and the removal of its fifth is valid and
    gives [{1:0, 3:0}]; yet that factor-set is registered under no name, and
    ['(no5)'], the name of the variant, has no rarity and no factors. *)
Lemma C4_major_triad_has_no_no5_variant :
  exists reg,
    conventional_registry = Ok reg
    /\ option_map Chords.items (factors_named reg "") = Some [(1, 0); (3, 0); (5, 0)]
    /\ rarity_named reg "" = Some 0
    /\ option_map (Conventional.valid_on no5_qualifier) (factors_named reg "") = Some true
    /\ option_map Chords.items (factors_named reg "" ≫= with_qualifier no5_qualifier)
       = Some (Chords.items fifthless_major_factors)
    /\ option_map (is_registered reg) (factors_named reg "" ≫= with_qualifier no5_qualifier)
       = Some false
    /\ rarity_named reg ("" +:+ "(no5)") = None
    /\ option_map Chords.items (factors_named reg ("" +:+ "(no5)")) = None.
Proof.
  destruct conventional_registry_built as [reg Hbuild].
  exists reg. split; [exact Hbuild|].
  repeat split; by_registry reg Hbuild.
Qed.

(** ** Factor-sets stay dictionaries *)

Lemma dict_del_keys_sublist {V : Type} (d d' : dict Z V) (k : Z) :
  dict_del Z.eqb d k = Ok d' -> sublist (keys d') (keys d).
Proof.
  revert d'. induction d as [|[k0 v0] d IH]; intros d' H; simpl in H; [discriminate|].
  destruct (k0 =? k).
  - inversion H; subst. simpl. apply sublist_cons, reflexivity.
  - apply bind_Ok_inv in H as (d'' & Hdel & H). inversion H; subst.
    simpl. apply sublist_skip, IH, Hdel.
Qed.

Lemma fold_dict_set_NoDup (adds : list (Z * Z)) (d : dict Z Z) :
  NoDup (keys d) ->
  NoDup (keys (fold_left (fun d kv => dict_set Z.eqb d (fst kv) (snd kv)) adds d)).
Proof.
  revert d. induction adds as [|kv adds IH]; intros d Hd; simpl; [exact Hd|].
  apply IH. apply NoDup_dict_set. exact Hd.
Qed.

Lemma apply_NoDup (q : Chords.ChordQualifier) (f f' : Chords.ChordFactors) :
  NoDup (Chords.degrees f) -> Chords.apply q f = Ok f' -> NoDup (Chords.degrees f').
Proof.
  unfold Chords.apply, Chords.degrees. intros Hf Happly.
  apply bind_Ok_inv in Happly as (modified & Hmod & Happly).
  apply bind_Ok_inv in Happly as (removed & Hrem & Happly).
  inversion Happly; subst; clear Happly. cbn [Chords.items Chords.ChordFactors_init].
  assert (Hadded : NoDup (keys (fold_left (fun d kv => dict_set Z.eqb d (fst kv) (snd kv))
                                          (Chords.add q) (Chords.items f)))).
  { apply fold_dict_set_NoDup, Hf. }
  assert (Hmodified : NoDup (keys modified)).
  { revert Hmod. apply (foldM_invariant _ (fun d => NoDup (keys d))); [|exact Hadded].
    intros s kv s' Hs Hstep. apply bind_Ok_inv in Hstep as (v & _ & Hstep).
    inversion Hstep; subst. apply NoDup_dict_set, Hs. }
  revert Hrem. apply (foldM_invariant _ (fun d => NoDup (keys d))); [|exact Hmodified].
  intros s k s' Hs Hstep.
  eapply sublist_NoDup; [exact Hs | eapply dict_del_keys_sublist, Hstep].
Qed.

Lemma sort_by_degree_NoDup (d : dict Z Z) :
  NoDup (keys d) -> NoDup (keys (Chords.sort_by_degree d)).
Proof.
  intros Hd. unfold Chords.sort_by_degree, keys.
  rewrite (Permutation_map fst (sorted_Permutation _ d)). exact Hd.
Qed.

Lemma ChordFactors_add_NoDup (f f' : Chords.ChordFactors) (q : Chords.ChordQualifier) :
  NoDup (Chords.degrees f) -> Chords.ChordFactors_add f q = Ok f' ->
  NoDup (Chords.degrees f').
Proof.
  intros Hf Hadd. unfold Chords.ChordFactors_add in Hadd.
  apply bind_Ok_inv in Hadd as (out & Happly & Hadd). inversion Hadd; subst.
  apply sort_by_degree_NoDup. eapply apply_NoDup; eassumption.
Qed.

Lemma ChordFactors_add_list_NoDup (f f' : Chords.ChordFactors)
    (qs : list Chords.ChordQualifier) :
  NoDup (Chords.degrees f) -> Chords.ChordFactors_add_list f qs = Ok f' ->
  NoDup (Chords.degrees f').
Proof.
  intros Hf Hadd. unfold Chords.ChordFactors_add_list in Hadd.
  apply bind_Ok_inv in Hadd as (out & Hfold & Hadd). inversion Hadd; subst.
  apply sort_by_degree_NoDup.
  revert Hfold.
  apply (foldM_invariant _ (fun d => NoDup (Chords.degrees d))); [|exact Hf].
  intros s q s' Hs Hstep. eapply apply_NoDup; eassumption.
Qed.

Lemma factors_from_name_NoDup (qualifiers_api : Chords.qualifiers_module)
    (name : string) (f : Chords.ChordFactors) :
  Chords.factors_from_name qualifiers_api name = Ok f -> NoDup (Chords.degrees f).
Proof.
  unfold Chords.factors_from_name.
  assert (Hdefault : NoDup (Chords.degrees Chords.ChordFactors_default)) by compute_done.
  destruct (_ || _).
  - intros [= <-]. exact Hdefault.
  - intros H. apply bind_Ok_inv in H as (qs & _ & H).
    eapply ChordFactors_add_list_NoDup; eassumption.
Qed.

(** ** Lookups by factor-set *)

Lemma factors_key_items (hash : list Z -> Z) (a b b' : Chords.ChordFactors) :
  Chords.items b = Chords.items b' ->
  Chords.factors_key hash a b = Chords.factors_key hash a b'.
Proof.
  intros Hitems.
  unfold Chords.factors_key, Chords.ChordFactors_key_match, Chords.ChordFactors_hash,
    Chords.ChordFactors_eq, Chords.degrees.
  rewrite Hitems. reflexivity.
Qed.

Lemma dict_get_factors_items {V : Type} (hash : list Z -> Z)
    (d : dict Chords.ChordFactors V) (f f' : Chords.ChordFactors) :
  Chords.items f = Chords.items f' ->
  dict_get (Chords.factors_key hash) d f = dict_get (Chords.factors_key hash) d f'.
Proof.
  intros Hitems. induction d as [|[k v] d IH]; simpl; [reflexivity|].
  rewrite (factors_key_items hash k f f' Hitems), IH. reflexivity.
Qed.

Lemma factors_key_refl (hash : list Z -> Z) (f : Chords.ChordFactors) :
  NoDup (Chords.degrees f) -> Chords.factors_key hash f f = true.
Proof.
  intros Hf. unfold Chords.factors_key, Chords.ChordFactors_key_match.
  rewrite Z.eqb_refl. cbn [andb].
  apply dict_eq_lookup; [exact Hf | exact Hf | reflexivity].
Qed.

Lemma dict_set_absent {K V : Type} (key_match : K -> K -> bool)
    (d : dict K V) (k : K) (v : V) :
  dict_get key_match d k = None -> dict_set key_match d k v = d ++ [(k, v)].
Proof.
  induction d as [|[k0 v0] d IH]; simpl; [reflexivity|].
  destruct (key_match k0 k); [discriminate|].
  intros H. rewrite IH by exact H. reflexivity.
Qed.

Lemma dict_get_app {K V : Type} (key_match : K -> K -> bool)
    (d d' : dict K V) (k : K) :
  dict_get key_match (d ++ d') k
  = match dict_get key_match d k with
    | Some v => Some v
    | None => dict_get key_match d' k
    end.
Proof.
  induction d as [|[k0 v0] d IH]; simpl; [reflexivity|].
  destruct (key_match k0 k); [reflexivity | exact IH].
Qed.

Lemma dict_contains_false {K V : Type} (key_match : K -> K -> bool)
    (d : dict K V) (k : K) :
  dict_contains key_match d k = false -> dict_get key_match d k = None.
Proof. unfold dict_contains. destruct (dict_get key_match d k); [discriminate | reflexivity]. Qed.

(** ** Chords built from a registered name *)

Section RegistryFactors.

Context (qualities : qualities_module) (qualifiers_api : Chords.qualifiers_module).
Context (hash : list Z -> Z).

Lemma AbstractChord_init_from_name (name : string) (inversion : option Z)
    (c : Chords.AbstractChord qualities) :
  contains_char slash name = false ->
  contains_char backslash name = false ->
  Chords.AbstractChord_init qualities qualifiers_api (Some name) None inversion None = Ok c ->
  Chords.factors_from_name qualifiers_api name = Ok (Chords.factors qualities c)
  /\ Chords.inversion qualities c = default 0 inversion.
Proof.
  intros Hslash Hback Hinit. unfold Chords.AbstractChord_init in Hinit.
  apply bind_Ok_inv in Hinit as ([[f ri] inv] & Hparse & Hinit).
  apply bind_Ok_inv in Hinit as (ivs & _ & Hinit).
  apply bind_Ok_inv in Hinit as (q & _ & Hinit).
  inversion Hinit; subst; clear Hinit. cbn [Chords.factors Chords.inversion].
  unfold Chords._parse_input, Chords.parse_slash in Hparse.
  rewrite Hslash, Hback in Hparse. cbn [orb bind fst snd] in Hparse.
  apply bind_Ok_inv in Hparse as ([f0 inv0] & Hresolved & Hparse).
  apply bind_Ok_inv in Hresolved as (f1 & Hfactors & Hresolved).
  inversion Hresolved; subst; clear Hresolved. cbn [fst snd] in Hparse.
  apply bind_Ok_inv in Hparse as (ivs0 & _ & Hparse).
  apply bind_Ok_inv in Hparse as (inv1 & Hinv & Hparse).
  inversion Hparse; subst; clear Hparse.
  split; [exact Hfactors|].
  destruct inv0 as [i|]; cbn [default]; [|inversion Hinv; reflexivity].
  destruct (negb (i =? 0)) eqn:Ezero.
  - apply bind_Ok_inv in Hinv as (? & _ & Hinv). inversion Hinv; reflexivity.
  - apply negb_false_iff, Z.eqb_eq in Ezero. inversion Hinv; subst. reflexivity.
Qed.

Local Abbreviation factors_ok := (Invariants.factors_invariant qualities qualifiers_api hash).

Lemma factors_invariant_insert (state : Chords.build_state qualities)
    (f : Chords.ChordFactors) (name : string)
    (i2n' : dict (Intervals.IntervalList qualities) string)
    (new_rarities' : dict Z (list string)) :
  factors_ok state ->
  dict_contains (Chords.factors_key hash) (Chords.f2n qualities state) f = false ->
  NoDup (Chords.degrees f) ->
  (exists factors, Chords.factors_from_name qualifiers_api name = Ok factors
                   /\ Chords.items factors = Chords.items f) ->
  factors_ok {| Chords.f2n := dict_set (Chords.factors_key hash)
                                (Chords.f2n qualities state) f name;
                Chords.i2n := i2n'; Chords.new_rarities := new_rarities' |}.
Proof.
  intros [H1 H2] Habsent Hnd Hname. apply dict_contains_false in Habsent.
  unfold Invariants.factors_invariant. cbn [Chords.f2n].
  rewrite (dict_set_absent _ _ _ _ Habsent).
  split.
  - apply Forall_app. split; [exact H1|]. repeat constructor; assumption.
  - apply Forall_app. split.
    + eapply Forall_impl; [exact H2|]. intros [k v] Hk. cbn [fst snd] in *.
      rewrite dict_get_app, Hk. reflexivity.
    + repeat constructor. cbn [fst snd].
      rewrite dict_get_app, Habsent. simpl.
      rewrite factors_key_refl by exact Hnd. reflexivity.
Qed.

Lemma base_chord_factors (chord_name : string) (c : Chords.AbstractChord qualities) :
  chord_name ∈ Chords.all_base_names ->
  Chords.AbstractChord_init qualities qualifiers_api (Some chord_name) None None None = Ok c ->
  Chords.factors_from_name qualifiers_api chord_name = Ok (Chords.factors qualities c).
Proof.
  intros Hname Hinit.
  destruct (generated_name_properties chord_name (base_name_generated _ Hname))
    as (Hslash & Hback & _).
  apply (AbstractChord_init_from_name chord_name None c Hslash Hback Hinit).
Qed.

Lemma register_base_factors (state state' : Chords.build_state qualities)
    (chord_name : string) :
  chord_name ∈ Chords.all_base_names ->
  factors_ok state ->
  Chords.register_base qualities qualifiers_api hash state chord_name = Ok state' ->
  factors_ok state'.
Proof.
  intros Hname Hstate Hstep. unfold Chords.register_base in Hstep.
  apply bind_Ok_inv in Hstep as (base_chord & Hinit & Hstep).
  pose proof (base_chord_factors chord_name base_chord Hname Hinit) as Hfactors.
  destruct (dict_contains (Chords.factors_key hash) _ _) eqn:Econtains; cbn [orb] in Hstep.
  { apply bind_Ok_inv in Hstep as (? & _ & Hstep). inversion Hstep; subst. exact Hstate. }
  destruct (dict_contains (Chords.intervals_key qualities) _ _) in Hstep.
  { apply bind_Ok_inv in Hstep as (? & _ & Hstep). inversion Hstep; subst. exact Hstate. }
  inversion Hstep; subst; clear Hstep.
  apply factors_invariant_insert; [exact Hstate | exact Econtains | |].
  - eapply factors_from_name_NoDup, Hfactors.
  - eexists. split; [exact Hfactors | reflexivity].
Qed.

Lemma register_modifier_valid (rarities : dict string Z) (chord_name mod_name : string)
    (base_chord : Chords.AbstractChord qualities)
    (state state' : Chords.build_state qualities) :
  Chords.register_modifier qualities qualifiers_api hash rarities chord_name base_chord
    state mod_name = Ok state' ->
  state' = state
  \/ exists modifier,
       Chords.chord_modifiers qualifiers_api mod_name = Some modifier
       /\ Chords.valid_on qualifiers_api (Chords.referent modifier)
            (Chords.factors qualities base_chord) = true.
Proof.
  unfold Chords.register_modifier, Chords.lookup_modifier. intros Hstep.
  destruct (Chords.chord_modifiers qualifiers_api mod_name) as [modifier|];
    [|discriminate Hstep].
  cbn [bind] in Hstep.
  destruct (Chords.valid_on _ _ _) eqn:Evalid; [|left; congruence].
  right. exists modifier. split; [reflexivity | exact Evalid].
Qed.

Lemma register_modifiers_factors (rarities : dict string Z) (chord_name : string)
    (state state' : Chords.build_state qualities) :
  Invariants.compositional qualifiers_api ->
  chord_name ∈ Chords.all_base_names ->
  factors_ok state ->
  Chords.register_modifiers qualities qualifiers_api hash rarities state chord_name
    = Ok state' ->
  factors_ok state'.
Proof.
  intros Hcomp Hbase Hstate Hstep. unfold Chords.register_modifiers in Hstep.
  destruct (negb (str_in chord_name Chords.unmodifiable_chords)) eqn:Emodifiable;
    [|inversion Hstep; subst; exact Hstate].
  apply bind_Ok_inv in Hstep as (base_chord & Hinit & Hstep).
  pose proof (base_chord_factors chord_name base_chord Hbase Hinit) as Hfactors.
  revert Hstep. apply foldM_invariant_In; [|exact Hstate].
  intros s mod_name s' Hmod Hs Hstep.
  destruct (register_modifier_valid _ _ _ _ _ _ Hstep) as [-> | (m & Em & Hvalid)];
    [exact Hs|].
  apply register_modifier_outcome in Hstep
    as [-> | (modifier & af & ai & r & names & Hlookup & Hadd & _ & Habsent & _ & ->)];
    [exact Hs|].
  apply factors_invariant_insert; [exact Hs | exact Habsent | |].
  - eapply ChordFactors_add_NoDup; [|exact Hadd].
    eapply factors_from_name_NoDup, Hfactors.
  - unfold Chords.lookup_modifier in Hlookup. rewrite Em in Hlookup.
    inversion Hlookup; subst.
    eapply Hcomp; eassumption.
Qed.

(** In the finished registry every factor-set is found under its name, and
    its name stands for it. *)
Lemma registry_factors (reg : Chords.registry qualities) :
  Invariants.compositional qualifiers_api ->
  Chords.build_registry qualities qualifiers_api hash = Ok reg ->
  Forall (fun e =>
            dict_get (Chords.factors_key hash)
                     (Chords.factors_to_chord_names qualities reg) (fst e) = Some (snd e)
            /\ exists factors,
                 Chords.factors_from_name qualifiers_api (snd e) = Ok factors
                 /\ Chords.items factors = Chords.items (fst e))
         (Chords.factors_to_chord_names qualities reg).
Proof.
  intros Hcomp Hbuild. unfold Chords.build_registry in Hbuild. cbn zeta in Hbuild.
  apply bind_Ok_inv in Hbuild as (state1 & Hpass1 & Hbuild).
  apply bind_Ok_inv in Hbuild as (state & Hpass2 & Hbuild).
  apply bind_Ok_inv in Hbuild as (by_rarity & _ & Hbuild).
  inversion Hbuild; subst; clear Hbuild. cbn [Chords.factors_to_chord_names].
  assert (H1 : factors_ok state1).
  { revert Hpass1. apply foldM_invariant_In.
    - intros s a s' Ha Hs. apply register_base_factors; assumption.
    - split; constructor. }
  assert (H2 : factors_ok state).
  { revert Hpass2. apply foldM_invariant_In; [|exact H1].
    intros s a s' Ha Hs. apply register_modifiers_factors; assumption. }
  destruct H2 as [HF1 HF2].
  rewrite Forall_forall in HF1, HF2. apply Forall_forall.
  intros e He. split; [apply HF2, He | apply HF1, He].
Qed.

End RegistryFactors.

(** ** C1 *)

(** C1.  Let registry construction complete, with a parser that is
    compositional on the generated names.  For a name registered in the
    name-to-factors map and an inversion (an index, or none), if
    [AbstractChord(name, inversion=inversion)] is built, which is when the
    index is valid for the chord, then its suffix is the name, followed by
    the marker [/index] when the index is not 0. *)
Theorem C1_suffix_round_trip
    (qualities : qualities_module) (qualifiers_api : Chords.qualifiers_module)
    (hash : list Z -> Z) (reg : Chords.registry qualities)
    (name : string) (inversion : option Z) (c : Chords.AbstractChord qualities) :
  Invariants.compositional qualifiers_api ->
  Chords.build_registry qualities qualifiers_api hash = Ok reg ->
  name ∈ keys (Chords.chord_names_to_factors qualities reg) ->
  Chords.AbstractChord_init qualities qualifiers_api (Some name) None inversion None = Ok c ->
  Chords.suffix qualities hash reg c
  = Ok (name +:+ (if negb (default 0 inversion =? 0)
                  then "/" +:+ str (default 0 inversion) else "")).
Proof.
  intros Hcomp Hbuild Hname Hinit.
  assert (Hgen : name ∈ Spec.generated_names).
  { eapply registry_names; [exact Hbuild|]. do 3 right. left. exact Hname. }
  destruct (generated_name_properties name Hgen) as (Hslash & Hback & _).
  destruct (AbstractChord_init_from_name qualities qualifiers_api name inversion c
              Hslash Hback Hinit) as [Hfactors Hinversion].
  pose proof (registry_factors qualities qualifiers_api hash reg Hcomp Hbuild) as Hreg.
  assert (Hentry : exists f, (f, name) ∈ Chords.factors_to_chord_names qualities reg).
  { assert (Hvalues : name ∈ values (Chords.factors_to_chord_names qualities reg)).
    { unfold Chords.build_registry in Hbuild. cbn zeta in Hbuild.
      apply bind_Ok_inv in Hbuild as (state1 & _ & Hbuild).
      apply bind_Ok_inv in Hbuild as (state & _ & Hbuild).
      apply bind_Ok_inv in Hbuild as (by_rarity & _ & Hbuild).
      inversion Hbuild; subst; clear Hbuild.
      cbn [Chords.chord_names_to_factors Chords.factors_to_chord_names] in *.
      apply keys_reverse_dict, Hname. }
    unfold values in Hvalues. apply list_elem_of_In, in_map_iff in Hvalues.
    destruct Hvalues as ([f n] & Hn & Hin). simpl in Hn. subst n.
    exists f. apply list_elem_of_In, Hin. }
  destruct Hentry as (f & Hentry).
  rewrite Forall_forall in Hreg.
  destruct (Hreg (f, name) Hentry) as (Hfound & f' & Hf' & Hitems).
  cbn [fst snd] in *.
  rewrite Hfactors in Hf'. inversion Hf'; subst f'; clear Hf'.
  unfold Chords.suffix, Chords.get_suffix.
  rewrite (dict_get_factors_items hash _ _ _ Hitems), Hfound.
  unfold Chords._inv_string. rewrite Hinversion. reflexivity.
Qed.

Lemma conventional_parser_compositional :
  Invariants.compositional Conventional.qualifiers_api.
Proof.
  assert (Hcheck : forallb (fun chord_name =>
                              forallb (compositional_on chord_name)
                                      Chords.ordered_modifier_names)
                           Chords.all_base_names = true)
    by (vm_compute; reflexivity).
  intros chord_name mod_name modifier base_factors altered_factors
    Hbase _ Hmod Hmodifier Hfactors _ Hadd.
  rewrite forallb_forall in Hcheck.
  specialize (Hcheck chord_name (proj1 (list_elem_of_In _ _) Hbase)).
  rewrite forallb_forall in Hcheck.
  specialize (Hcheck mod_name (proj1 (list_elem_of_In _ _) Hmod)).
  unfold compositional_on in Hcheck.
  change (Conventional.chord_modifiers mod_name)
    with (Chords.chord_modifiers Conventional.qualifiers_api mod_name) in Hcheck.
  rewrite Hmodifier, Hfactors, Hadd in Hcheck.
  destruct (Chords.factors_from_name Conventional.qualifiers_api (chord_name +:+ mod_name))
    as [factors|e]; [|discriminate].
  exists factors. split; [reflexivity|].
  apply bool_decide_eq_true_1 in Hcheck. exact Hcheck.
Qed.

Lemma C1_witness :
  exists reg c,
    conventional_registry = Ok reg
    /\ "m7" ∈ keys (Chords.chord_names_to_factors Conventional.qualities reg)
    /\ Chords.AbstractChord_init Conventional.qualities Conventional.qualifiers_api
         (Some "m7") None (Some 2) None = Ok c
    /\ Chords.suffix Conventional.qualities Conventional.hash reg c = Ok "m7/2".
Proof.
  destruct conventional_registry_built as [reg Hbuild].
  assert (Hbuilt : is_Ok (Chords.AbstractChord_init Conventional.qualities
                            Conventional.qualifiers_api (Some "m7") None (Some 2) None))
    by (vm_compute; exact I).
  destruct (Chords.AbstractChord_init Conventional.qualities Conventional.qualifiers_api
              (Some "m7") None (Some 2) None) as [c|e] eqn:Hinit; [|destruct Hbuilt].
  exists reg, c. split; [exact Hbuild|].
  assert (Hname : "m7" ∈ keys (Chords.chord_names_to_factors Conventional.qualities reg)).
  { apply (bool_decide_unpack _). by_registry reg Hbuild. }
  split; [exact Hname|]. split; [reflexivity|].
  exact (C1_suffix_round_trip Conventional.qualities Conventional.qualifiers_api
           Conventional.hash reg "m7" (Some 2) c
           conventional_parser_compositional Hbuild Hname Hinit).
Defined.

(** In the instance the round trip is total: every registered name, at every
    inversion index from 0 to the order of its chord less one, builds a chord
    whose suffix is the name with the marker. *)
Example conventional_round_trip_total :
  exists reg,
    conventional_registry = Ok reg
    /\ forallb (round_trips reg) (Chords.factors_to_chord_names Conventional.qualities reg)
       = true.
Proof.
  destruct conventional_registry_built as [reg Hbuild].
  exists reg. split; [exact Hbuild|].
  pattern reg. apply (of_registry_fact _ reg Hbuild).
  vm_cast_no_check (eq_refl true).
Qed.

(** ** C9 *)

Lemma dict_get_values {K V : Type} (key_match : K -> K -> bool)
    (d : dict K V) (k : K) (v : V) :
  dict_get key_match d k = Some v -> v ∈ values d.
Proof.
  unfold values. induction d as [|[k0 v0] d IH]; simpl; [discriminate|].
  destruct (key_match k0 k).
  - intros [= ->]. left.
  - intros H. right. apply IH, H.
Qed.

Lemma append_empty (s : string) : s +:+ "" = s.
Proof.
  induction s as [|c s IH]; [reflexivity|].
  change (String c s +:+ "") with (String c (s +:+ "")). rewrite IH. reflexivity.
Qed.

Lemma generated_names_open_no_bracket :
  forallb (fun name => match name with
                       | EmptyString => true
                       | String c _ => negb (bool_decide (c = "("%char))
                       end) Spec.generated_names = true.
Proof. vm_compute. reflexivity. Qed.

Lemma no_placeholder_after_name (name rest : string) :
  name ∈ Spec.generated_names ->
  String.prefix "(?)" rest = false ->
  String.prefix "(?)" (name +:+ rest) = false.
Proof.
  intros Hname Hrest.
  pose proof generated_names_open_no_bracket as Hcheck.
  rewrite forallb_forall in Hcheck.
  specialize (Hcheck name (proj1 (list_elem_of_In _ _) Hname)).
  destruct name as [|c name]; [exact Hrest|].
  apply negb_true_iff, bool_decide_eq_false_1 in Hcheck.
  change (String c name +:+ rest) with (String c (name +:+ rest)).
  cbn [String.prefix].
  destruct (Ascii.ascii_dec "(" c) as [Heq|Hne]; [congruence | reflexivity].
Qed.

Section UnregisteredChords.

Context (qualities : qualities_module) (qualifiers_api : Chords.qualifiers_module).
Context (hash : list Z -> Z).

Lemma inv_string_no_placeholder (c : Chords.AbstractChord qualities) :
  String.prefix "(?)" (Chords._inv_string qualities c) = false.
Proof. unfold Chords._inv_string. destruct (negb _); reflexivity. Qed.

(** C9 on the code.  Let registry construction complete, and let the
    factor-set of an [AbstractChord] be no key of the factors-to-names map.
    Then [rarity] raises [KeyError], and so does [likelihood].  The suffix,
    when one is returned, is [''] or is built from a registered name found
    by one of the interval lookups; it never is the placeholder ['(?)'...]:
    the branch that would return it first reads [self.assigned_name], which
    an [AbstractChord] does not have. *)
Theorem C9_unregistered_chord
    (reg : Chords.registry qualities) (c : Chords.AbstractChord qualities) :
  Chords.build_registry qualities qualifiers_api hash = Ok reg ->
  dict_get (Chords.factors_key hash) (Chords.factors_to_chord_names qualities reg)
    (Chords.factors qualities c) = None ->
  Chords.rarity qualities hash reg c = Raise KeyError
  /\ Chords.likelihood qualities hash reg c = Raise KeyError
  /\ (forall s, Chords.suffix qualities hash reg c = Ok s ->
        (s = ""
         \/ exists name,
              name ∈ values (Chords.intervals_to_chord_names qualities reg)
              /\ (s = name +:+ Chords._inv_string qualities c
                  \/ s = name +:+ "(no5)" +:+ Chords._inv_string qualities c
                  \/ s = name))
        /\ String.prefix "(?)" s = false)
  /\ (Chords.suffix qualities hash reg c <> Ok ("(?)" +:+ Chords._inv_string qualities c)).
Proof.
  intros Hbuild Hnone.
  assert (Hrarity : Chords.rarity qualities hash reg c = Raise KeyError).
  { unfold Chords.rarity, dict_getitem. rewrite Hnone. reflexivity. }
  assert (Hsuffix : forall s, Chords.suffix qualities hash reg c = Ok s ->
            s = ""
            \/ exists name,
                 name ∈ values (Chords.intervals_to_chord_names qualities reg)
                 /\ (s = name +:+ Chords._inv_string qualities c
                     \/ s = name +:+ "(no5)" +:+ Chords._inv_string qualities c
                     \/ s = name)).
  { intros s. unfold Chords.suffix, Chords.get_suffix. rewrite Hnone.
    destruct (dict_get _ _ (Chords.root_intervals qualities c)) as [name|] eqn:Eroot.
    { intros [= <-]. right. exists name. split; [eapply dict_get_values, Eroot | tauto]. }
    destruct (dict_get _ _ (Chords.intervals qualities c)) as [name|]; [discriminate|].
    intros Hs. apply bind_Ok_inv in Hs as (no5 & Hno5 & Hs).
    destruct no5 as [suffix|].
    { inversion Hs; subst; clear Hs.
      destruct (negb (Chords.has_degree _ 5)); [|discriminate].
      apply bind_Ok_inv in Hno5 as (p5 & _ & Hno5).
      destruct (dict_get _ _ _) as [name|] eqn:Efifth in Hno5; [|discriminate].
      inversion Hno5; subst. right. exists name.
      split; [eapply dict_get_values, Efifth | tauto]. }
    apply bind_Ok_inv in Hs as (flattened & _ & Hs).
    destruct (dict_get _ _ flattened) as [name|] eqn:Eflat.
    { injection Hs as <-. right. exists name.
      split; [eapply dict_get_values, Eflat | tauto]. }
    destruct (Chords.ChordFactors_eq _ _); [|discriminate].
    inversion Hs. now left. }
  assert (Hplace : forall s, Chords.suffix qualities hash reg c = Ok s ->
            String.prefix "(?)" s = false).
  { intros s Hs. destruct (Hsuffix s Hs) as [-> | (name & Hname & Hform)]; [reflexivity|].
    assert (Hgen : name ∈ Spec.generated_names).
    { eapply registry_names; [exact Hbuild | tauto]. }
    destruct Hform as [-> | [-> | ->]].
    - apply no_placeholder_after_name; [exact Hgen | apply inv_string_no_placeholder].
    - apply no_placeholder_after_name; [exact Hgen | reflexivity].
    - rewrite <- (append_empty name).
      apply no_placeholder_after_name; [exact Hgen | reflexivity]. }
  split; [exact Hrarity|]. split.
  { unfold Chords.likelihood. rewrite Hrarity. reflexivity. }
  split.
  { intros s Hs. split; [apply Hsuffix, Hs | apply Hplace, Hs]. }
  intros Hs. apply Hplace in Hs.
  revert Hs. clear. generalize (Chords._inv_string qualities c). intros rest Hs.
  destruct rest; vm_compute in Hs; discriminate Hs.
Qed.

End UnregisteredChords.

Lemma minor_second_chord_built : exists c, minor_second_chord = Ok c.
Proof.
  assert (Hbuilt : is_Ok minor_second_chord) by (vm_compute; exact I).
  destruct minor_second_chord as [c|e]; [eauto | destruct Hbuilt].
Qed.

Lemma C9_witness :
  exists reg c,
    conventional_registry = Ok reg
    /\ minor_second_chord = Ok c
    /\ dict_get (Chords.factors_key Conventional.hash)
         (Chords.factors_to_chord_names Conventional.qualities reg)
         (Chords.factors Conventional.qualities c) = None
    /\ Chords.rarity Conventional.qualities Conventional.hash reg c = Raise KeyError
    /\ Chords.likelihood Conventional.qualities Conventional.hash reg c = Raise KeyError.
Proof.
  destruct conventional_registry_built as [reg Hbuild].
  assert (Hfact : of_result minor_second_chord
                    (fun c => dict_get (Chords.factors_key Conventional.hash)
                                (Chords.factors_to_chord_names Conventional.qualities reg)
                                (Chords.factors Conventional.qualities c) = None) True)
    by by_registry reg Hbuild.
  destruct minor_second_chord_built as [c Hinit].
  rewrite Hinit in Hfact. cbn [of_result] in Hfact.
  exists reg, c. split; [exact Hbuild|]. split; [exact Hinit|]. split; [exact Hfact|].
  destruct (C9_unregistered_chord Conventional.qualities Conventional.qualifiers_api
              Conventional.hash reg c Hbuild Hfact) as (Hrarity & Hlikelihood & _).
  split; [exact Hrarity | exact Hlikelihood].
Defined.

(** The input at which C9 fails, in the instance: the chord [{1:0, 2:-1, 5:0}] is
    built, its factor-set is not registered, and its suffix is no string:
    reading [self.assigned_name] raises. *)
Lemma C9_minor_second_suffix_raises :
  exists reg c,
    conventional_registry = Ok reg
    /\ minor_second_chord = Ok c
    /\ Chords.suffix Conventional.qualities Conventional.hash reg c
       = Raise (AttributeError "assigned_name").
Proof.
  destruct conventional_registry_built as [reg Hbuild].
  assert (Hfact : of_result minor_second_chord
                    (fun c => Chords.suffix Conventional.qualities Conventional.hash reg c
                              = Raise (AttributeError "assigned_name")) True)
    by by_registry reg Hbuild.
  destruct minor_second_chord_built as [c Hinit].
  rewrite Hinit in Hfact. cbn [of_result] in Hfact.
  exists reg, c. split; [exact Hbuild|]. split; [exact Hinit | exact Hfact].
Qed.

(** * Further properties *)

(** ** What the constructor of [Interval] returns *)

Lemma Interval_init_inv (qualities : qualities_module) (v : Z) (deg : option Z)
    (i : Intervals.Interval qualities) :
  Intervals.Interval_init qualities v deg = Ok i ->
  Intervals.value i = v
  /\ Intervals.width i = Z.abs v
  /\ Intervals.octave_span i = Z.abs v / 12
  /\ Intervals.imod i = Z.abs v mod 12
  /\ Intervals.sign i = (if v <? 0 then -1 else 1)
  /\ Intervals._detect_quality qualities (Z.abs v mod 12) (Intervals.degree i)
     = Ok (Intervals.quality i)
  /\ match deg with
     | None => Intervals.default_interval_degrees (Z.abs v mod 12) = Ok (Intervals.degree i)
               /\ Intervals.extended_degree i = Intervals.degree i + 7 * (Z.abs v / 12)
     | Some d => Intervals.validate_degree v d = Ok (Intervals.degree i)
                 /\ Intervals.extended_degree i = d
     end.
Proof.
  unfold Intervals.Interval_init. intros H.
  apply bind_Ok_inv in H as ([d e] & Hdeg & H).
  apply bind_Ok_inv in H as (q & Hq & H).
  inversion H; subst; clear H. cbn [Intervals.value Intervals.width Intervals.octave_span
    Intervals.imod Intervals.sign Intervals.degree Intervals.extended_degree
    Intervals.quality fst snd] in *.
  repeat split; try exact Hq.
  destruct deg as [d0|].
  - apply bind_Ok_inv in Hdeg as (d1 & Hd1 & Hdeg). inversion Hdeg; subst. split; [exact Hd1 | reflexivity].
  - apply bind_Ok_inv in Hdeg as (d1 & Hd1 & Hdeg). inversion Hdeg; subst. split; [exact Hd1 | reflexivity].
Qed.

Lemma default_degree_accepted (v d : Z) :
  Intervals.default_interval_degrees (Z.abs v mod 12) = Ok d ->
  Spec.degree_accepted v (d + 7 * (Z.abs v / 12)) = true.
Proof.
  intros Hd.
  destruct (default_interval_degrees_total (Z.abs v mod 12)) as (d' & Hd' & Hrange).
  { apply Z.mod_pos_bound. lia. }
  rewrite Hd in Hd'. inversion Hd'; subst d'; clear Hd'.
  assert (Hoct : 0 <= Z.abs v / 12) by (apply Z.div_pos; lia).
  unfold Spec.degree_accepted, Spec.degree_within_two. rewrite Hd. cbn zeta.
  replace (d + 7 * (Z.abs v / 12) - 7 * (Z.abs v / 12)) with d by lia.
  replace (d + 7 * (Z.abs v / 12) - (d + 7 * (Z.abs v / 12))) with 0 by lia.
  assert (Hunison : (if Z.abs v mod 12 =? 0 then d =? 1 else true) = true).
  { destruct (Z.abs v mod 12 =? 0) eqn:E; [|reflexivity].
    apply Z.eqb_eq in E. rewrite E in Hd. inversion Hd. reflexivity. }
  rewrite Hunison.
  repeat (apply andb_true_intro; split); try reflexivity;
    try (apply Z.ltb_lt; lia).
Qed.

Lemma constructed_accepted (qualities : qualities_module) (v : Z) (deg : option Z)
    (i : Intervals.Interval qualities) :
  Intervals.Interval_init qualities v deg = Ok i ->
  Spec.degree_accepted v (Intervals.extended_degree i) = true
  /\ Intervals.degree i = Intervals.extended_degree i - 7 * (Z.abs v / 12).
Proof.
  intros H. apply Interval_init_inv in H as (_ & _ & _ & _ & _ & _ & H).
  destruct deg as [d|]; destruct H as [Hd ->].
  - destruct (validate_degree_outcomes v d)
      as [[Hok Hacc] | [_ [[message Hfail] | [Hfar _]]]]; try congruence.
    split; [exact Hacc | congruence].
  - split; [apply default_degree_accepted, Hd | lia].
Qed.

Lemma constructed_degree_range (qualities : qualities_module) (v : Z) (deg : option Z)
    (i : Intervals.Interval qualities) :
  Intervals.Interval_init qualities v deg = Ok i -> 1 <= Intervals.degree i <= 7.
Proof.
  intros H. destruct (constructed_accepted qualities v deg i H) as [Hacc Hdegree].
  unfold Spec.degree_accepted in Hacc. cbn zeta in Hacc. rewrite <- Hdegree in Hacc.
  repeat (apply andb_prop in Hacc as [Hacc ?]).
  repeat match goal with Hb : (_ <? _) = true |- _ => apply Z.ltb_lt in Hb end.
  lia.
Qed.

Lemma Interval_init_accepted (qualities : qualities_module) (v e : Z) :
  Spec.degree_accepted v e = true ->
  Intervals.Interval_init qualities v (Some e)
  = (let* q := Intervals._detect_quality qualities (Z.abs v mod 12)
                 (e - 7 * (Z.abs v / 12)) in
     Ok {| Intervals.value := v;
           Intervals.width := Z.abs v;
           Intervals.octave_span := Z.abs v / 12;
           Intervals.imod := Z.abs v mod 12;
           Intervals.sign := if v <? 0 then -1 else 1;
           Intervals.degree := e - 7 * (Z.abs v / 12);
           Intervals.extended_degree := e;
           Intervals.quality := q |}).
Proof.
  intros Hacc. unfold Intervals.Interval_init.
  rewrite (validate_degree_accepted v e Hacc). reflexivity.
Qed.

(** An interval the constructor returned is returned again for its own value
    and extended degree. *)
Lemma Interval_init_again (qualities : qualities_module) (v : Z) (deg : option Z)
    (i : Intervals.Interval qualities) :
  Intervals.Interval_init qualities v deg = Ok i ->
  Intervals.Interval_init qualities v (Some (Intervals.extended_degree i)) = Ok i.
Proof.
  intros H. destruct (constructed_accepted qualities v deg i H) as [Hacc Hdegree].
  apply Interval_init_inv in H as (Hv & Hw & Ho & Hm & Hs & Hq & _).
  rewrite (Interval_init_accepted qualities v _ Hacc), <- Hdegree, Hq. cbn [bind].
  destruct i; cbn in *; subst. reflexivity.
Qed.

(** ** Re-casting, negation and inversion of an interval *)

(** [Interval(i)], for an interval [i] the constructor returned, is [i]
    again: the value and the extended degree it reads off [i] pass the
    validation, and every attribute comes out as it was. *)
Theorem Interval_recast_is_identity (qualities : qualities_module) (v : Z) (deg : option Z)
    (i : Intervals.Interval qualities) :
  Intervals.Interval_init qualities v deg = Ok i ->
  IntervalMethods.Interval_recast qualities i None = Ok i.
Proof.
  intros H. unfold IntervalMethods.Interval_recast.
  destruct (Interval_init_inv qualities v deg i H) as (-> & _).
  apply (Interval_init_again qualities _ deg), H.
Qed.

Lemma degree_accepted_opp (v e : Z) :
  Spec.degree_accepted (- v) e = Spec.degree_accepted v e.
Proof. unfold Spec.degree_accepted, Spec.degree_within_two. rewrite Z.abs_opp. reflexivity. Qed.

(** [-i] never fails on an interval the constructor returned: it has the
    opposite value and the same width, degrees and quality, and [-(-i)] is
    [i] again. *)
Theorem Interval_neg_involutive (qualities : qualities_module) (v : Z) (deg : option Z)
    (i : Intervals.Interval qualities) :
  Intervals.Interval_init qualities v deg = Ok i ->
  exists j,
    Intervals.Interval_neg qualities i = Ok j
    /\ Intervals.value j = - v
    /\ Intervals.width j = Intervals.width i
    /\ Intervals.degree j = Intervals.degree i
    /\ Intervals.extended_degree j = Intervals.extended_degree i
    /\ Intervals.quality j = Intervals.quality i
    /\ Intervals.Interval_neg qualities j = Ok i.
Proof.
  intros H. pose proof (Interval_init_again qualities v deg i H) as Hagain.
  destruct (constructed_accepted qualities v deg i H) as [Hacc Hdegree].
  destruct (Interval_init_inv qualities v deg i H) as (Hv & Hw & _ & _ & _ & Hq & _).
  unfold Intervals.Interval_neg at 1. rewrite Hv.
  destruct (v =? 0) eqn:E.
  - apply Z.eqb_eq in E. exists i. repeat split; try lia.
    unfold Intervals.Interval_neg. rewrite Hv, E. reflexivity.
  - rewrite <- degree_accepted_opp in Hacc.
    rewrite (Interval_init_accepted qualities (- v) _ Hacc), Z.abs_opp, <- Hdegree, Hq.
    cbn [bind]. eexists. split; [reflexivity|].
    cbn [Intervals.value Intervals.width Intervals.degree Intervals.extended_degree
         Intervals.quality].
    repeat split; try congruence.
    unfold Intervals.Interval_neg.
    cbn [Intervals.value Intervals.extended_degree].
    replace (- v =? 0) with false by (symmetry; apply Z.eqb_neq; apply Z.eqb_neq in E; lia).
    rewrite Z.opp_involutive. exact Hagain.
Qed.

Lemma sign_abs (v : Z) : v = (if v <? 0 then -1 else 1) * Z.abs v.
Proof. destruct (v <? 0) eqn:E; [apply Z.ltb_lt in E | apply Z.ltb_ge in E]; lia. Qed.


(** [~i] on a whole number of octaves (the unison included) is no
    involution: the inverted interval is one octave wider and points the
    other way, so inverting twice moves [i] two octaves further from the
    unison. *)
Theorem Interval_invert_of_octaves (qualities : qualities_module) (v : Z) (deg : option Z)
    (i j : Intervals.Interval qualities) :
  Intervals.Interval_init qualities v deg = Ok i ->
  Intervals.imod i = 0 ->
  Intervals.Interval_invert qualities i = Ok j ->
  Intervals.value j = - v - 12 * Intervals.sign i
  /\ Intervals.imod j = 0
  /\ forall k, Intervals.Interval_invert qualities j = Ok k ->
               Intervals.value k = v + 24 * Intervals.sign i.
Proof.
  intros H Hmod Hinv.
  destruct (Interval_init_inv qualities v deg i H) as (Hv & Hw & Ho & Hm & Hs & _ & _).
  unfold Intervals.Interval_invert in Hinv.
  destruct (Interval_init_inv qualities _ _ j Hinv) as (Hv' & Hw' & Ho' & Hm' & Hs' & _ & _ & He').
  pose proof (sign_abs v) as Hsign. rewrite <- Hs in Hsign.
  assert (Hsplit : Z.abs v = 12 * Intervals.octave_span i + Intervals.imod i).
  { rewrite Ho, Hm. apply Z.div_mod. lia. }
  assert (Hoct : 0 <= Intervals.octave_span i) by (rewrite Ho; apply Z.div_pos; lia).
  assert (Hunit : Intervals.sign i = 1 \/ Intervals.sign i = -1)
    by (rewrite Hs; destruct (v <? 0); lia).
  rewrite Hmod in *.
  set (nv := - (12 - 0) * Intervals.sign i
             + 12 * Intervals.octave_span i * - Intervals.sign i) in *.
  assert (Habs : Z.abs nv = 12 * (Intervals.octave_span i + 1) + 0).
  { subst nv. destruct Hunit as [-> | ->]; lia. }
  assert (Hdiv : Z.abs nv / 12 = Intervals.octave_span i + 1).
  { rewrite Habs. symmetry. apply (Z.div_unique _ 12 _ 0); lia. }
  assert (Hrem : Z.abs nv mod 12 = 0).
  { rewrite Habs. symmetry. apply (Z.mod_unique _ 12 (Intervals.octave_span i + 1) 0); lia. }
  assert (Hsign' : Intervals.sign j = - Intervals.sign i).
  { rewrite Hs'. subst nv.
    destruct Hunit as [E | E]; rewrite E;
      [replace (_ <? 0) with true by (symmetry; apply Z.ltb_lt; lia)
      |replace (_ <? 0) with false by (symmetry; apply Z.ltb_ge; lia)]; reflexivity. }
  rewrite Hdiv in Ho'. rewrite Hrem in Hm'.
  repeat split.
  - rewrite Hv'. subst nv. lia.
  - exact Hm'.
  - intros k Hk. unfold Intervals.Interval_invert in Hk.
    apply Interval_init_inv in Hk as (-> & _).
    rewrite Hm', Hsign', Ho'. lia.
Qed.

(** ** Adding to an interval *)

(** [i + 0] is [i], the degree and the quality of [i] included. *)
Theorem Interval_add_zero (qualities : qualities_module) (v : Z) (deg : option Z)
    (i : Intervals.Interval qualities) :
  Intervals.Interval_init qualities v deg = Ok i ->
  Intervals.Interval_add qualities i 0 = Ok i.
Proof.
  intros H. pose proof (Interval_init_again qualities v deg i H) as Hagain.
  destruct (constructed_accepted qualities v deg i H) as [Hacc Hdegree].
  destruct (Interval_init_inv qualities v deg i H) as (Hv & Hw & Ho & Hm & Hs & Hq & _).
  unfold Intervals.Interval_add. rewrite Hv, Z.add_0_r.
  destruct (Intervals.imod i =? 0) eqn:E.
  - apply Z.eqb_eq in E. rewrite Hm in E.
    pose proof Hacc as Hunison.
    unfold Spec.degree_accepted in Hunison. rewrite E in Hunison. cbn [Z.eqb] in Hunison.
    repeat (apply andb_prop in Hunison as [Hunison ?]).
    assert (Hone : Intervals.extended_degree i - 7 * (Z.abs v / 12) = 1)
      by (apply Z.eqb_eq; assumption).
    rewrite (Interval_init_accepted qualities v _ Hacc), E, Hone in Hagain.
    unfold Intervals.from_cache, Intervals.Interval_init.
    rewrite E. cbn [Intervals.default_interval_degrees Z.eqb bind fst snd].
    replace (1 + 7 * (Z.abs v / 12)) with (Intervals.extended_degree i) by lia.
    exact Hagain.
  - cbn [Z.modulo Z.div_eucl Z.eqb].
    replace (if (if v <? 0 then -1 else 1) =? Intervals.sign i
             then Intervals.degree i else 9 - Intervals.degree i)
      with (Intervals.degree i) by (rewrite Hs, Z.eqb_refl; reflexivity).
    replace (Intervals.degree i + 7 * (Z.abs v / 12))
      with (Intervals.extended_degree i) by lia.
    exact Hagain.
Qed.

(** Adding whole octaves to an interval that is no whole number of octaves
    itself, without crossing the unison, keeps the degree within the octave
    and the quality, and moves the extended degree by 7 per octave. *)
Theorem Interval_add_octaves (qualities : qualities_module) (v : Z) (deg : option Z)
    (i : Intervals.Interval qualities) (octaves : Z) :
  Intervals.Interval_init qualities v deg = Ok i ->
  Intervals.imod i <> 0 ->
  (v + 12 * octaves <? 0) = (v <? 0) ->
  exists j,
    Intervals.Interval_add qualities i (12 * octaves) = Ok j
    /\ Intervals.value j = v + 12 * octaves
    /\ Intervals.degree j = Intervals.degree i
    /\ Intervals.quality j = Intervals.quality i
    /\ Intervals.extended_degree j
       = Intervals.extended_degree i + 7 * octaves * Intervals.sign i.
Proof.
  intros H Hmod Hside.
  destruct (constructed_accepted qualities v deg i H) as [Hacc Hdegree].
  destruct (Interval_init_inv qualities v deg i H) as (Hv & Hw & Ho & Hm & Hs & Hq & _).
  pose proof (sign_abs v) as Hsign. rewrite <- Hs in Hsign.
  assert (Hbound : 0 <= Intervals.imod i < 12) by (rewrite Hm; apply Z.mod_pos_bound; lia).
  assert (Hsplit : Z.abs v = 12 * Intervals.octave_span i + Intervals.imod i).
  { rewrite Ho, Hm. apply Z.div_mod. lia. }
  assert (Hoct : 0 <= Intervals.octave_span i) by (rewrite Ho; apply Z.div_pos; lia).
  assert (Habs : Z.abs (v + 12 * octaves)
                 = 12 * (Intervals.octave_span i + octaves * Intervals.sign i)
                   + Intervals.imod i).
  { rewrite Hs in *. destruct (v <? 0) eqn:E;
      [apply Z.ltb_lt in E, Hside | apply Z.ltb_ge in E, Hside]; lia. }
  assert (Hdiv : Z.abs (v + 12 * octaves) / 12
                 = Intervals.octave_span i + octaves * Intervals.sign i).
  { rewrite Habs. symmetry. apply (Z.div_unique _ 12 _ (Intervals.imod i)); lia. }
  assert (Hrem : Z.abs (v + 12 * octaves) mod 12 = Intervals.imod i).
  { rewrite Habs. symmetry.
    apply (Z.mod_unique _ 12 (Intervals.octave_span i + octaves * Intervals.sign i)
             (Intervals.imod i)); lia. }
  assert (Hoct' : 0 <= Intervals.octave_span i + octaves * Intervals.sign i).
  { rewrite <- Hdiv. apply Z.div_pos; lia. }
  unfold Intervals.Interval_add. rewrite Hv.
  replace (Intervals.imod i =? 0) with false by (symmetry; apply Z.eqb_neq, Hmod).
  replace (12 * octaves mod 12 =? 0) with true
    by (symmetry; apply Z.eqb_eq; rewrite Z.mul_comm; apply Z.mod_mul; lia).
  replace (if (if v + 12 * octaves <? 0 then -1 else 1) =? Intervals.sign i
           then Intervals.degree i else 9 - Intervals.degree i)
    with (Intervals.degree i) by (rewrite Hside, Hs, Z.eqb_refl; reflexivity).
  rewrite Hdiv.
  assert (Hacc' : Spec.degree_accepted (v + 12 * octaves)
                    (Intervals.degree i
                     + 7 * (Intervals.octave_span i + octaves * Intervals.sign i)) = true).
  { revert Hacc. unfold Spec.degree_accepted, Spec.degree_within_two.
    rewrite Hdiv, Hrem, <- Hm, <- Ho.
    replace (Intervals.imod i =? 0) with false by (symmetry; apply Z.eqb_neq, Hmod).
    destruct (Intervals.default_interval_degrees (Intervals.imod i)) as [d|e];
      [|rewrite !andb_false_r; discriminate].
    cbn zeta. intros Hacc.
    repeat (apply andb_prop in Hacc as [Hacc ?]).
    repeat match goal with
           | Hb : (_ <? _) = true |- _ => apply Z.ltb_lt in Hb
           | Hb : (_ <=? _) = true |- _ => apply Z.leb_le in Hb
           end.
    repeat (apply andb_true_intro; split); try reflexivity;
      try (apply Z.ltb_lt; lia); apply Z.leb_le; lia. }
  rewrite (Interval_init_accepted qualities _ _ Hacc'), Hdiv, Hrem.
  replace (Intervals.degree i + 7 * (Intervals.octave_span i + octaves * Intervals.sign i)
           - 7 * (Intervals.octave_span i + octaves * Intervals.sign i))
    with (Intervals.degree i) by lia.
  rewrite <- Hm in Hq. rewrite Hq. cbn [bind]. eexists. split; [reflexivity|].
  cbn [Intervals.value Intervals.degree Intervals.quality Intervals.extended_degree].
  repeat split. lia.
Qed.

(** ** The interval of a value *)

(** [Interval(value)], without a degree, never fails on its own tables: the
    value within the octave has a default degree, from 1 to 7, and the
    quality is asked for at an offset of 0 or -1 from the default of that
    degree.  The interval is returned whenever that quality exists. *)
Theorem Interval_init_default_degree (qualities : qualities_module) (v : Z) :
  exists d offset,
    Intervals.default_interval_degrees (Z.abs v mod 12) = Ok d
    /\ 1 <= d <= 7
    /\ (offset = 0 \/ offset = -1)
    /\ Intervals.Interval_init qualities v None
       = (let* q := if Intervals.perfect_degrees d
                    then from_offset_wrt_perfect qualities offset
                    else from_offset_wrt_major qualities offset in
          Ok {| Intervals.value := v;
                Intervals.width := Z.abs v;
                Intervals.octave_span := Z.abs v / 12;
                Intervals.imod := Z.abs v mod 12;
                Intervals.sign := if v <? 0 then -1 else 1;
                Intervals.degree := d;
                Intervals.extended_degree := d + 7 * (Z.abs v / 12);
                Intervals.quality := q |}).
Proof.
  assert (Hm : 0 <= Z.abs v mod 12 < 12) by (apply Z.mod_pos_bound; lia).
  unfold Intervals.Interval_init, Intervals._detect_quality.
  generalize dependent (Z.abs v mod 12). intros m Hm.
  assert (Hcases : m = 0 \/ m = 1 \/ m = 2 \/ m = 3 \/ m = 4 \/ m = 5 \/ m = 6
                   \/ m = 7 \/ m = 8 \/ m = 9 \/ m = 10 \/ m = 11) by lia.
  repeat (destruct Hcases as [-> | Hcases]); try subst m;
    [exists 1, 0 | exists 2, (-1) | exists 2, 0 | exists 3, (-1) | exists 3, 0
    | exists 4, 0 | exists 5, (-1) | exists 5, 0 | exists 6, (-1) | exists 6, 0
    | exists 7, (-1) | exists 7, 0];
    (split; [reflexivity | split; [lia | split; [lia | reflexivity]]]).
Qed.

(** ** Flattening an interval *)

Lemma flatten_rec_of_ascending (qualities : qualities_module) (depth : nat)
    (x : Intervals.Interval qualities) :
  0 <= Intervals.value x ->
  Intervals.Interval_flatten_rec qualities depth x
  = Intervals.Interval_init qualities (Intervals.imod x) (Some (Intervals.degree x)).
Proof.
  intros Hx.
  assert (E : (Intervals.value x <? 0) = false) by (apply Z.ltb_ge, Hx).
  destruct depth; simpl; rewrite E; reflexivity.
Qed.

Lemma invert_of_descending (qualities : qualities_module) (v : Z) (deg : option Z)
    (i inverted : Intervals.Interval qualities) :
  Intervals.Interval_init qualities v deg = Ok i ->
  v < 0 ->
  Intervals.Interval_invert qualities i = Ok inverted ->
  0 < Intervals.value inverted
  /\ Intervals.imod inverted = v mod 12.
Proof.
  intros H Hv Hinv.
  destruct (Interval_init_inv qualities v deg i H) as (_ & _ & Ho & Hm & Hs & _ & _).
  unfold Intervals.Interval_invert in Hinv.
  destruct (Interval_init_inv qualities _ _ inverted Hinv) as (Hv' & _ & _ & Hm' & _).
  replace (v <? 0) with true in Hs by (symmetry; apply Z.ltb_lt, Hv).
  rewrite Hs, Hm, Ho in Hv', Hm'.
  assert (Hvalue : Intervals.value inverted
                   = 12 - Z.abs v mod 12 + 12 * (Z.abs v / 12)) by lia.
  pose proof (Z.mod_pos_bound (Z.abs v) 12 ltac:(lia)) as Hbound.
  assert (Hoct : 0 <= Z.abs v / 12) by (apply Z.div_pos; lia).
  split; [lia|].
  rewrite Hm', <- Hv', Hvalue.
  replace (Z.abs (12 - Z.abs v mod 12 + 12 * (Z.abs v / 12)))
    with (12 - Z.abs v mod 12 + 12 * (Z.abs v / 12)) by lia.
  pose proof (Z.div_mod (Z.abs v) 12 ltac:(lia)) as Hsplit.
  replace (12 - Z.abs v mod 12 + 12 * (Z.abs v / 12))
    with (v + (2 * (Z.abs v / 12) + 1) * 12) by lia.
  apply Z.mod_add. lia.
Qed.


(** ** Degrees and offsets *)

Lemma default_degree_intervals_inv (d dd : Z) :
  Intervals.default_degree_intervals d = Ok dd -> 1 <= d <= 7.
Proof.
  unfold Intervals.default_degree_intervals.
  repeat match goal with
         | |- context [?a =? ?b] =>
             let E := fresh "E" in
             destruct (a =? b) eqn:E; [apply Z.eqb_eq in E; lia | clear E]
         end.
  discriminate.
Qed.

(** [Interval.from_degree(degree, offset=offset)] returns an interval of
    that extended degree, and an ascending one gives the offset back:
    [offset_from_degree(degree)] is [offset]. *)
Theorem from_degree_offset_round_trip (qualities : qualities_module) (degree offset : Z)
    (i : Intervals.Interval qualities) :
  Intervals.from_degree qualities degree offset = Ok i ->
  Intervals.extended_degree i = degree
  /\ 0 < degree
  /\ (0 <= Intervals.value i ->
      IntervalMethods.offset_from_degree qualities i degree = Ok offset).
Proof.
  unfold Intervals.from_degree. intros H.
  assert (Hsplit : exists octave_span d dd,
             (if 8 <=? degree then ((degree - 1) / 7, (degree - 1) mod 7 + 1) else (0, degree))
             = (octave_span, d)
             /\ Intervals.default_degree_intervals d = Ok dd
             /\ Intervals.Interval_init qualities (dd + 12 * octave_span + offset) (Some degree)
                = Ok i).
  { destruct (if 8 <=? degree then ((degree - 1) / 7, (degree - 1) mod 7 + 1) else (0, degree))
      as [octave_span d].
    apply bind_Ok_inv in H as (dd & Hdd & H). eauto 6. }
  destruct Hsplit as (octave_span & d & dd & Hpair & Hdd & Hinit).
  destruct (constructed_accepted qualities _ _ i Hinit) as [Hacc _].
  destruct (Interval_init_inv qualities _ _ i Hinit) as (Hv & Hw & _ & _ & _ & _ & _ & He).
  assert (Hpos : 0 < degree).
  { rewrite He in Hacc. unfold Spec.degree_accepted in Hacc.
    repeat (apply andb_prop in Hacc as [Hacc ?]). apply Z.ltb_lt, Hacc. }
  repeat split; [exact He | exact Hpos |].
  intros Hup. unfold IntervalMethods.offset_from_degree.
  replace (0 <? degree) with true by (symmetry; apply Z.ltb_lt, Hpos).
  cbn [assert bind].
  assert (Hsame : (degree - 1) / 7 = octave_span /\ (degree - 1) mod 7 + 1 = d).
  { destruct (8 <=? degree) eqn:E.
    - inversion Hpair; subst. split; reflexivity.
    - inversion Hpair; subst. apply default_degree_intervals_inv in Hdd.
      rewrite Z.div_small, Z.mod_small by lia. lia. }
  destruct Hsame as [-> ->]. rewrite Hdd. cbn [bind].
  rewrite Hw. f_equal. lia.
Qed.

(** ** Interval lists: [unique] and [sorted] *)

Section ListsOfIntervals.

Context (qualities : qualities_module).

Local Abbreviation Interval := (Intervals.Interval qualities).
Local Abbreviation values_of := (Intervals.values_of qualities).

Lemma unique_from_spec (seen : list Z) (l : list Interval) :
  NoDup (values_of (Intervals.unique_from qualities seen l))
  /\ (forall v, v ∈ values_of (Intervals.unique_from qualities seen l) -> v ∉ seen)
  /\ Intervals.unique_from qualities seen l `sublist_of` l
  /\ (forall v, v ∈ values_of l ->
                v ∈ seen \/ v ∈ values_of (Intervals.unique_from qualities seen l)).
Proof.
  revert seen. induction l as [|i l IH]; intros seen; simpl.
  - repeat split; [constructor | | constructor | ]; intros v Hv; inversion Hv.
  - destruct (bool_decide (Intervals.value i ∈ seen)) eqn:E.
    + apply bool_decide_eq_true_1 in E.
      destruct (IH seen) as (Hnd & Hnew & Hsub & Hall).
      repeat split; [exact Hnd | exact Hnew | apply sublist_cons, Hsub |].
      intros v Hv. apply elem_of_cons in Hv as [-> | Hv]; [now left | apply Hall, Hv].
    + apply bool_decide_eq_false_1 in E.
      destruct (IH (Intervals.value i :: seen)) as (Hnd & Hnew & Hsub & Hall).
      repeat split.
      * simpl. apply NoDup_cons. split; [|exact Hnd].
        intros Hin. apply (Hnew _ Hin). left.
      * intros v Hv. simpl in Hv. apply elem_of_cons in Hv as [-> | Hv]; [exact E|].
        intros Hseen. apply (Hnew _ Hv). now right.
      * apply sublist_skip, Hsub.
      * intros v Hv. apply elem_of_cons in Hv as [-> | Hv]; [right; simpl; left|].
        destruct (Hall _ Hv) as [Hseen | Hin].
        -- apply elem_of_cons in Hseen as [-> | Hseen]; [right; simpl; left | now left].
        -- right. simpl. now right.
Qed.

Lemma unique_from_fixed (seen : list Z) (l : list Interval) :
  NoDup (values_of l) ->
  (forall v, v ∈ values_of l -> v ∉ seen) ->
  Intervals.unique_from qualities seen l = l.
Proof.
  revert seen. induction l as [|i l IH]; intros seen Hnd Hnew; simpl; [reflexivity|].
  simpl in Hnd. apply NoDup_cons in Hnd as [Hi Hnd].
  rewrite bool_decide_eq_false_2 by (apply Hnew; simpl; left).
  f_equal. apply IH; [exact Hnd|].
  intros v Hv Hseen. apply elem_of_cons in Hseen as [-> | Hseen]; [tauto|].
  apply (Hnew v); [simpl; now right | exact Hseen].
Qed.


Lemma Interval_lt_asym (a b : Interval) :
  Intervals.Interval_lt qualities a b = true -> Intervals.Interval_lt qualities b a = false.
Proof. unfold Intervals.Interval_lt. intros H. apply Z.ltb_lt in H. apply Z.ltb_ge. lia. Qed.

Lemma Sorted_weaken {A : Type} (R R' : A -> A -> Prop) (l : list A) :
  (forall a b, R a b -> R' a b) -> Sorted R l -> Sorted R' l.
Proof.
  intros Himpl Hl. induction Hl as [|x l Hl IH Hhd]; constructor; [exact IH|].
  destruct Hhd; constructor. apply Himpl. assumption.
Qed.

Lemma Sorted_by_value (l : list Interval) :
  Sorted (fun a b : Interval => Intervals.value a <= Intervals.value b)
         (sorted (Intervals.Interval_lt qualities) l).
Proof.
  eapply Sorted_weaken; [|apply (Sorted_sorted _ l Interval_lt_asym)].
  intros a b H. cbn beta in H. unfold Intervals.Interval_lt in H. apply Z.ltb_ge in H. exact H.
Qed.

(** [sorted()] returns the intervals of the list, each as often as it
    occurs, in ascending order of value; [value_set] is unchanged. *)
Theorem IntervalList_sorted_spec (self : Intervals.IntervalList qualities) :
  let result := Intervals.IntervalList_sorted qualities self in
  Intervals.items result ≡ₚ Intervals.items self
  /\ Sorted (fun a b : Interval => Intervals.value a <= Intervals.value b)
            (Intervals.items result)
  /\ Intervals.value_set result = list_to_set (values_of (Intervals.items self)).
Proof.
  cbn zeta. unfold Intervals.IntervalList_sorted, Intervals.IntervalList_init.
  cbn [Intervals.items Intervals.value_set].
  repeat split.
  - apply sorted_Permutation.
  - apply Sorted_by_value.
  - apply set_eq. intros v. rewrite !elem_of_list_to_set.
    unfold Intervals.values_of.
    change (map Intervals.value ?l) with (Intervals.value <$> l).
    rewrite (sorted_Permutation _ (Intervals.items self)). reflexivity.
Qed.

End ListsOfIntervals.

(** ** Interval lists: inversion *)

Lemma mapM_Forall2 {A B : Type} (f : A -> result B) (l : list A) (bs : list B) :
  mapM f l = Ok bs -> Forall2 (fun a b => f a = Ok b) l bs.
Proof.
  revert bs. induction l as [|a l IH]; intros bs H; simpl in H.
  - inversion H. constructor.
  - apply bind_Ok_inv in H as (b & Hb & H).
    apply bind_Ok_inv in H as (bs' & Hbs' & H).
    inversion H; subst. constructor; [exact Hb | apply IH, Hbs'].
Qed.

Lemma Sorted_head_least {A : Type} (key : A -> Z) (x : A) (l : list A) :
  Sorted (fun a b => key a <= key b) (x :: l) -> Forall (fun y => key x <= key y) l.
Proof.
  intros H. apply Sorted_StronglySorted in H.
  - apply StronglySorted_inv in H as [_ H]. exact H.
  - intros a b c. lia.
Qed.

Lemma Sorted_strictly {A : Type} (key : A -> Z) (l : list A) :
  Sorted (fun a b => key a <= key b) l ->
  NoDup (map key l) ->
  Sorted (fun a b => key a < key b) l.
Proof.
  intros Hl. induction Hl as [|x l Hl IH Hhd]; intros Hnd; constructor.
  - apply IH. simpl in Hnd. apply NoDup_cons in Hnd as [_ Hnd]. exact Hnd.
  - destruct Hhd as [|y l Hxy]; constructor.
    simpl in Hnd. apply NoDup_cons in Hnd as [Hx _].
    assert (key x <> key y) by (intros E; apply Hx; rewrite E; left).
    lia.
Qed.

Section Inversions.

Context (qualities : qualities_module).

Local Abbreviation Interval := (Intervals.Interval qualities).
Local Abbreviation values_of := (Intervals.values_of qualities).

Lemma Interval_add_value (i j : Interval) (n : Z) :
  Intervals.Interval_add qualities i n = Ok j ->
  Intervals.value j = Intervals.value i + n
  /\ exists deg, Intervals.Interval_init qualities (Intervals.value i + n) deg = Ok j.
Proof.
  unfold Intervals.Interval_add, Intervals.from_cache. intros H.
  destruct (Intervals.imod i =? 0); [|destruct (n mod 12 =? 0)];
    (split; [apply Interval_init_inv in H as (H & _); exact H | eexists; exact H]).
Qed.

Lemma Interval_neg_value (i j : Interval) :
  Intervals.Interval_neg qualities i = Ok j -> Intervals.value j = - Intervals.value i.
Proof.
  unfold Intervals.Interval_neg. destruct (Intervals.value i =? 0) eqn:E; intros H.
  - inversion H; subst. apply Z.eqb_eq in E. lia.
  - apply Interval_init_inv in H as (H & _). exact H.
Qed.

(** [invert(position)] returns a list that starts at the unison and
    ascends strictly: its first interval has the value 0 and every interval
    is greater in value than the one before it, whatever the list and the
    position were. *)
Theorem IntervalList_invert_spec (self inverted : Intervals.IntervalList qualities)
    (position : Z) :
  Intervals.IntervalList_invert qualities self position = Ok inverted ->
  (exists first rest,
      Intervals.items inverted = first :: rest /\ Intervals.value first = 0)
  /\ Sorted (fun a b : Interval => Intervals.value a < Intervals.value b)
            (Intervals.items inverted).
Proof.
  unfold Intervals.IntervalList_invert. intros H.
  apply bind_Ok_inv in H as (first & Hfirst & H).
  apply bind_Ok_inv in H as (recentred & Hrecentred & H).
  apply bind_Ok_inv in H as (positive & Hpositive & H).
  inversion H; subst; clear H.
  unfold getitem in Hfirst.
  destruct (Intervals.items (Intervals.IntervalList_rotate qualities self position))
    as [|first' rotated] eqn:Hrotated; [discriminate|].
  simpl in Hfirst. inversion Hfirst; subst first'; clear Hfirst.
  (* the recentred list starts at the value 0, and its items come from the constructor *)
  unfold Intervals.IntervalList_sub in Hrecentred.
  apply bind_Ok_inv in Hrecentred as (negated & Hneg & Hrecentred).
  apply bind_Ok_inv in Hrecentred as (shifted & Hshifted & Hrecentred).
  inversion Hrecentred; subst; clear Hrecentred.
  apply Interval_neg_value in Hneg.
  rewrite Hrotated in Hshifted. apply mapM_Forall2 in Hshifted.
  inversion Hshifted as [|? s0 ? shifted' Hs0 Hshifted']; subst; clear Hshifted.
  assert (Hmade : Forall (fun s => exists v deg, Intervals.Interval_init qualities v deg = Ok s)
                         (s0 :: shifted')).
  { constructor.
    - apply Interval_add_value in Hs0 as (_ & deg & Hs0). eauto.
    - clear - Hshifted'. induction Hshifted' as [|a b ? ? Hab]; constructor; [|assumption].
      apply Interval_add_value in Hab as (_ & deg & Hab). eauto. }
  apply Interval_add_value in Hs0 as (Hzero & _).
  assert (Hzero' : Intervals.value s0 = 0) by lia. clear Hzero.
  (* the positive list starts at 0 and holds no negative value *)
  unfold Intervals.IntervalList_abs in Hpositive.
  apply bind_Ok_inv in Hpositive as (pos & Hpos & Hpositive).
  inversion Hpositive; subst; clear Hpositive.
  cbn [Intervals.items Intervals.IntervalList_init] in Hpos.
  apply mapM_Forall2 in Hpos.
  inversion Hpos as [|? p0 ? pos' Hp0 Hpos']; subst; clear Hpos.
  replace (Intervals.value s0 <? 0) with false in Hp0 by (rewrite Hzero'; reflexivity).
  inversion Hp0; subst p0; clear Hp0.
  assert (Hnonneg : Forall (fun p : Interval => 0 <= Intervals.value p) (s0 :: pos')).
  { constructor; [lia|].
    apply Forall_cons in Hmade as [_ Hmade].
    clear - Hpos' Hmade. induction Hpos' as [|a b ? ? Hab]; constructor.
    - apply Forall_cons in Hmade as [(v & deg & Ha) _].
      destruct (Intervals.value a <? 0) eqn:E.
      + apply Z.ltb_lt in E.
        pose proof (Interval_init_inv qualities v deg a Ha) as (Hv & _).
        rewrite Hv in E.
        destruct (invert_of_descending qualities v deg a b Ha E Hab) as [Hb _]. lia.
      + inversion Hab; subst. apply Z.ltb_ge in E. exact E.
    - apply IHHpos'. apply Forall_cons in Hmade as [_ Hmade]. exact Hmade. }
  (* one interval per value, in ascending order *)
  unfold Intervals.IntervalList_sorted, Intervals.IntervalList_unique.
  cbn [Intervals.items Intervals.IntervalList_init].
  set (kept := Intervals.unique_from qualities [] (s0 :: pos')).
  destruct (unique_from_spec qualities [] (s0 :: pos')) as (Hnd & _ & Hsub & _).
  fold kept in Hnd, Hsub.
  assert (Hkept0 : s0 ∈ kept).
  { subst kept. cbn [Intervals.unique_from].
    destruct (bool_decide (Intervals.value s0 ∈ [])) eqn:E;
      [apply bool_decide_eq_true_1 in E; inversion E | left]. }
  assert (Hkept_nonneg : Forall (fun p : Interval => 0 <= Intervals.value p) kept).
  { rewrite Forall_forall in Hnonneg. apply Forall_forall. intros p Hp. apply Hnonneg.
    eapply sublist_submseteq, elem_of_submseteq in Hsub; eassumption. }
  pose proof (sorted_Permutation (Intervals.Interval_lt qualities) kept) as Hperm.
  pose proof (Sorted_by_value qualities kept) as Hsorted.
  split.
  - destruct (sorted (Intervals.Interval_lt qualities) kept) as [|x rest] eqn:Esorted.
    + apply Permutation_nil_l in Hperm. rewrite <- Hperm in Hkept0. inversion Hkept0.
    + exists x, rest. split; [reflexivity|].
      pose proof (Sorted_head_least Intervals.value x rest Hsorted) as Hleast.
      assert (Hx : 0 <= Intervals.value x).
      { rewrite Forall_forall in Hkept_nonneg. apply Hkept_nonneg.
        rewrite <- Hperm. left. }
      rewrite <- Hperm in Hkept0. apply elem_of_cons in Hkept0 as [<- | Hin]; [exact Hzero'|].
      rewrite Forall_forall in Hleast. specialize (Hleast s0 Hin). lia.
  - apply Sorted_strictly; [exact Hsorted|].
    unfold Intervals.values_of in Hnd.
    change (map Intervals.value ?l) with (Intervals.value <$> l) in *.
    rewrite Hperm. exact Hnd.
Qed.

End Inversions.

(** ** Interval lists: [stack] and [unstack], [pad] and [strip] *)

Section Stacking.

Context (qualities : qualities_module).

Local Abbreviation Interval := (Intervals.Interval qualities).
Local Abbreviation values_of := (Intervals.values_of qualities).

Lemma Interval_sub_value (a b d : Interval) :
  IntervalMethods.Interval_sub qualities a b = Ok d ->
  Intervals.value d = Intervals.value a - Intervals.value b.
Proof.
  unfold IntervalMethods.Interval_sub. intros H.
  apply bind_Ok_inv in H as (negated & Hneg & H).
  apply Interval_neg_value in Hneg. apply Interval_add_value in H as (H & _). lia.
Qed.

Lemma stack_from_sums (last : Interval) (l sums : list Interval) :
  IntervalMethods.stack_from qualities last l = Ok sums ->
  forall (n : nat) (s : Interval),
    sums !! n = Some s ->
    Intervals.value s = Intervals.value last + foldr Z.add 0 (take (S n) (values_of l)).
Proof.
  revert last sums. induction l as [|i l IH]; intros last sums H n s Hs; simpl in H.
  - inversion H; subst. destruct n; discriminate.
  - apply bind_Ok_inv in H as (sum & Hsum & H).
    apply bind_Ok_inv in H as (rest & Hrest & H).
    inversion H; subst; clear H.
    apply Interval_add_value in Hsum as (Hsum & _).
    destruct n as [|n]; simpl in Hs.
    + inversion Hs; subst. simpl. lia.
    + rewrite (IH _ _ Hrest n s Hs), Hsum. simpl. lia.
Qed.

Lemma stack_from_unstack_from (last prev : Interval) (l sums differences : list Interval) :
  IntervalMethods.stack_from qualities last l = Ok sums ->
  Intervals.value prev = Intervals.value last ->
  IntervalMethods.unstack_from qualities prev sums = Ok differences ->
  values_of differences = values_of l.
Proof.
  revert last prev sums differences.
  induction l as [|i l IH]; intros last prev sums differences H Hprev Hun; simpl in H.
  - inversion H; subst. simpl in Hun. inversion Hun. reflexivity.
  - apply bind_Ok_inv in H as (sum & Hsum & H).
    apply bind_Ok_inv in H as (rest & Hrest & H).
    inversion H; subst; clear H. simpl in Hun.
    apply bind_Ok_inv in Hun as (difference & Hdiff & Hun).
    apply bind_Ok_inv in Hun as (rest' & Hrest' & Hun).
    inversion Hun; subst; clear Hun.
    apply Interval_add_value in Hsum as (Hsum & _).
    apply Interval_sub_value in Hdiff.
    simpl. f_equal; [lia|].
    apply (IH sum sum rest rest' Hrest eq_refl Hrest').
Qed.

(** [stack()] is the running sum of the values: the interval at each index
    has the sum of the values of the list up to that index.  [unstack()]
    undoes it: whenever both succeed, [l.stack().unstack()] has the values of
    [l], one by one, so it compares equal to [l]. *)
Theorem stack_then_unstack (self stacked : Intervals.IntervalList qualities) :
  IntervalMethods.stack qualities self = Ok stacked ->
  (forall (n : nat) (s : Interval),
      Intervals.items stacked !! n = Some s ->
      Intervals.value s = foldr Z.add 0 (take (S n) (values_of (Intervals.items self))))
  /\ forall unstacked,
       IntervalMethods.unstack qualities stacked = Ok unstacked ->
       values_of (Intervals.items unstacked) = values_of (Intervals.items self).
Proof.
  unfold IntervalMethods.stack, IntervalMethods.unstack. intros H.
  destruct (Intervals.items self) as [|first rest] eqn:Hitems.
  - inversion H; subst; clear H. cbn [Intervals.items Intervals.IntervalList_init]. split.
    + intros n s Hs. destruct n; discriminate.
    + intros unstacked Hun. apply bind_Ok_inv in Hun as (_ & _ & Hun).
      inversion Hun. reflexivity.
  - apply bind_Ok_inv in H as (sums & Hsums & H). inversion H; subst; clear H.
    cbn [Intervals.items Intervals.IntervalList_init]. split.
    + intros [|n] s Hs; simpl in Hs.
      * inversion Hs; subst. simpl. lia.
      * rewrite (stack_from_sums _ _ _ Hsums n s Hs). simpl. lia.
    + intros unstacked Hun. apply bind_Ok_inv in Hun as (_ & _ & Hun).
      apply bind_Ok_inv in Hun as (differences & Hdiff & Hun).
      inversion Hun; subst; clear Hun.
      cbn [Intervals.items Intervals.IntervalList_init]. simpl. f_equal.
      apply (stack_from_unstack_from first first rest sums differences Hsums eq_refl Hdiff).
Qed.

Lemma slice_to_last {A : Type} (l : list A) (x : A) : slice_to (l ++ [x]) (-1) = l.
Proof.
  unfold slice_to. cbn [Z.ltb Z.compare]. rewrite length_app. simpl.
  replace (Z.to_nat (Z.of_nat (length l + 1) + -1)) with (length l) by lia.
  apply take_app_length.
Qed.

Lemma slice_from_cons {A : Type} (u : A) (l : list A) : slice_from (u :: l) 1 = l.
Proof. reflexivity. Qed.

Lemma getitem_last_cons {A : Type} (u : A) (l : list A) (x : A) :
  last l = Some x -> getitem_last (u :: l) = Ok x.
Proof.
  unfold getitem_last. intros H. destruct l as [|y l]; [discriminate|].
  cbn [last]. cbn [last] in H. rewrite H. reflexivity.
Qed.

(** [strip()] undoes [pad(left, right)] on a list that neither starts nor
    ends on a whole number of octaves: the unison [pad] puts in front and the
    octave it puts behind are the intervals [strip] takes off. *)
Theorem pad_then_strip (self padded : Intervals.IntervalList qualities)
    (left right : bool) (first final : Interval) :
  head (Intervals.items self) = Some first ->
  last (Intervals.items self) = Some final ->
  Intervals.imod first <> 0 ->
  Intervals.imod final <> 0 ->
  IntervalMethods.pad qualities self left right = Ok padded ->
  IntervalMethods.strip qualities padded
  = Ok (Intervals.IntervalList_init qualities (Intervals.items self)).
Proof.
  intros Hhead Hlast Hfirst Hfinal Hpad.
  unfold IntervalMethods.pad in Hpad.
  apply bind_Ok_inv in Hpad as (_ & _ & Hpad).
  destruct (Intervals.items self) as [|first' rest] eqn:Hitems; [discriminate|].
  simpl in Hhead. inversion Hhead; subst first'; clear Hhead.
  cbn [getitem lookup list_lookup bind] in Hpad.
  assert (Hlast' : getitem_last (first :: rest) = Ok final)
    by (unfold getitem_last; rewrite Hlast; reflexivity).
  assert (Hnot_first : (Intervals.imod first =? 0) = false) by (apply Z.eqb_neq, Hfirst).
  assert (Hnot_final : (Intervals.imod final =? 0) = false) by (apply Z.eqb_neq, Hfinal).
  rewrite Hlast', Hnot_first in Hpad. cbn [negb andb bind] in Hpad.
  rewrite Hnot_final in Hpad. cbn [negb andb] in Hpad.
  unfold IntervalMethods.strip.
  destruct left, right; cbn [bind] in Hpad.
  - apply bind_Ok_inv in Hpad as (with_unison & Hunison & Hpad).
    apply bind_Ok_inv in Hunison as (unison & Hunison & Hwith). inversion Hwith; subst; clear Hwith.
    apply bind_Ok_inv in Hpad as (with_octave & Hoctave & Hpad).
    apply bind_Ok_inv in Hoctave as (octave & Hoctave & Hwith). inversion Hwith; subst; clear Hwith.
    inversion Hpad; subst; clear Hpad.
    cbn [Intervals.items Intervals.IntervalList_init].
    apply Interval_init_inv in Hunison as (_ & _ & _ & Hunison & _).
    apply Interval_init_inv in Hoctave as (_ & _ & _ & Hoctave & _).
    assert (Hoctave0 : Intervals.imod octave = 0).
    { rewrite Hoctave. rewrite Z.abs_mul, Z.mul_comm. apply Z.mod_mul. lia. }
    cbn [getitem lookup list_lookup bind app].
    change (first :: rest ++ [octave]) with ((first :: rest) ++ [octave]).
    assert (Hend : last ((first :: rest) ++ [octave]) = Some octave) by apply last_snoc.
    rewrite (getitem_last_cons unison _ octave Hend).
    cbn [bind]. rewrite Hunison, Hoctave0.
    change (Z.abs 0 mod 12 =? 0) with true. change (0 =? 0) with true. cbn iota.
    rewrite slice_from_cons, slice_to_last. reflexivity.
  - apply bind_Ok_inv in Hpad as (with_unison & Hunison & Hpad).
    apply bind_Ok_inv in Hunison as (unison & Hunison & Hwith). inversion Hwith; subst; clear Hwith.
    inversion Hpad; subst; clear Hpad.
    cbn [Intervals.items Intervals.IntervalList_init].
    apply Interval_init_inv in Hunison as (_ & _ & _ & Hunison & _).
    cbn [getitem lookup list_lookup bind].
    rewrite (getitem_last_cons unison _ final) by exact Hlast.
    cbn [bind]. rewrite Hunison, Hnot_final.
    change (Z.abs 0 mod 12 =? 0) with true. cbn iota.
    rewrite slice_from_cons. reflexivity.
  - apply bind_Ok_inv in Hpad as (with_octave & Hoctave & Hpad).
    apply bind_Ok_inv in Hoctave as (octave & Hoctave & Hwith). inversion Hwith; subst; clear Hwith.
    inversion Hpad; subst; clear Hpad.
    cbn [Intervals.items Intervals.IntervalList_init].
    apply Interval_init_inv in Hoctave as (_ & _ & _ & Hoctave & _).
    assert (Hoctave0 : Intervals.imod octave = 0).
    { rewrite Hoctave. rewrite Z.abs_mul, Z.mul_comm. apply Z.mod_mul. lia. }
    cbn [getitem lookup list_lookup bind app].
    change (first :: rest ++ [octave]) with ((first :: rest) ++ [octave]).
    rewrite getitem_last_snoc. cbn [bind].
    rewrite Hnot_first, Hoctave0. change (0 =? 0) with true. cbn iota.
    rewrite slice_to_last. reflexivity.
  - inversion Hpad; subst; clear Hpad.
    cbn [Intervals.items Intervals.IntervalList_init].
    cbn [getitem lookup list_lookup bind]. rewrite Hlast'. cbn [bind].
    rewrite Hnot_first, Hnot_final. reflexivity.
Qed.

End Stacking.

(** ** Chords built from factors *)

Lemma fold_dict_set_other {A : Type} (key : A -> Z) (l : list A) (acc : dict Z A) (k : Z) :
  k ∉ map key l ->
  dict_get Z.eqb (fold_left (fun d i => dict_set Z.eqb d (key i) i) l acc) k
  = dict_get Z.eqb acc k.
Proof.
  revert acc. induction l as [|x l IH]; intros acc Hk; simpl; [reflexivity|].
  simpl in Hk. apply not_elem_of_cons in Hk as [Hx Hk].
  rewrite IH by exact Hk. rewrite dict_get_set.
  destruct (key x =? k) eqn:E; [apply Z.eqb_eq in E; congruence | reflexivity].
Qed.

Lemma fold_dict_set_member {A : Type} (key : A -> Z) (l : list A) (acc : dict Z A) (i : A) :
  NoDup (map key l) ->
  i ∈ l ->
  dict_get Z.eqb (fold_left (fun d i => dict_set Z.eqb d (key i) i) l acc) (key i) = Some i.
Proof.
  revert acc. induction l as [|x l IH]; intros acc Hnd Hi; [inversion Hi|].
  simpl in Hnd. apply NoDup_cons in Hnd as [Hx Hnd]. simpl.
  apply elem_of_cons in Hi as [-> | Hi].
  - rewrite fold_dict_set_other by exact Hx.
    rewrite dict_get_set, Z.eqb_refl. reflexivity.
  - apply IH; assumption.
Qed.

Section ChordsFromFactors.

Context (qualities : qualities_module) (qualifiers_api : Chords.qualifiers_module).

Local Abbreviation Interval := (Intervals.Interval qualities).

Lemma intervals_from_factors_inv (f : Chords.ChordFactors)
    (intervals : Intervals.IntervalList qualities) :
  Chords.intervals_from_factors qualities f = Ok intervals ->
  Forall2 (fun kv (i : Interval) =>
             Intervals.from_degree qualities (fst kv) (snd kv) = Ok i
             /\ Intervals.extended_degree i = fst kv)
          (Chords.items f) (Intervals.items intervals).
Proof.
  unfold Chords.intervals_from_factors. intros H.
  apply bind_Ok_inv in H as (l & Hl & H). inversion H; subst; clear H.
  cbn [Intervals.items Intervals.IntervalList_init].
  apply mapM_Forall2 in Hl.
  induction Hl as [|kv i ? ? Hi]; constructor; [|assumption].
  split; [exact Hi|]. apply from_degree_offset_round_trip in Hi as (Hi & _). exact Hi.
Qed.

Lemma Forall2_map_eq {A B C : Type} (f : A -> C) (g : B -> C) (l : list A) (l' : list B) :
  Forall2 (fun a b => g b = f a) l l' -> map g l' = map f l.
Proof. induction 1; simpl; [reflexivity | f_equal; assumption]. Qed.

(** What [AbstractChord(factors=f, inversion=..., inversion_degree=...)]
    has built when it returns: the chord keeps [f]; its inversion is 0 or an
    index from 1 to the number of factors less one; its root intervals are
    as many as the factors, in ascending order of value; without an
    inversion its intervals are the root intervals, and with one they start
    at the unison and ascend strictly; and when [f] repeats no degree,
    [factor_intervals] maps each degree of [f] to the interval
    [Interval.from_degree] gives for it and its offset. *)
Theorem AbstractChord_from_factors (f : Chords.ChordFactors)
    (inversion inversion_degree : option Z) (c : Chords.AbstractChord qualities) :
  Chords.AbstractChord_init qualities qualifiers_api None (Some f) inversion inversion_degree
  = Ok c ->
  Chords.factors qualities c = f
  /\ (Chords.inversion qualities c = 0
      \/ 0 < Chords.inversion qualities c <= Chords.order f - 1)
  /\ length (Intervals.items (Chords.root_intervals qualities c)) = length (Chords.items f)
  /\ Sorted (fun a b : Interval => Intervals.value a <= Intervals.value b)
            (Intervals.items (Chords.root_intervals qualities c))
  /\ (Chords.inversion qualities c = 0 ->
      Chords.intervals qualities c = Chords.root_intervals qualities c)
  /\ (Chords.inversion qualities c <> 0 ->
      (exists first rest,
          Intervals.items (Chords.intervals qualities c) = first :: rest
          /\ Intervals.value first = 0)
      /\ Sorted (fun a b : Interval => Intervals.value a < Intervals.value b)
                (Intervals.items (Chords.intervals qualities c)))
  /\ (NoDup (Chords.degrees f) ->
      forall degree offset,
        (degree, offset) ∈ Chords.items f ->
        exists i, Intervals.from_degree qualities degree offset = Ok i
                  /\ dict_get Z.eqb (Chords.factor_intervals qualities c) degree = Some i).
Proof.
  unfold Chords.AbstractChord_init. intros H.
  apply bind_Ok_inv in H as ([[f0 ri] inv] & Hparse & H).
  apply bind_Ok_inv in H as (ivs & Hivs & H).
  apply bind_Ok_inv in H as (q & _ & H).
  inversion H; subst; clear H.
  cbn [Chords.factors Chords.inversion Chords.root_intervals Chords.intervals
       Chords.factor_intervals].
  unfold Chords._parse_input in Hparse. cbn [bind fst snd] in Hparse.
  apply bind_Ok_inv in Hparse as (intervals & Hintervals & Hparse).
  apply bind_Ok_inv in Hparse as (inv' & Hinv & Hparse).
  inversion Hparse; subst; clear Hparse.
  pose proof (intervals_from_factors_inv f0 intervals Hintervals) as Hall.
  assert (Hrange : inv = 0 \/ 0 < inv <= Chords.order f0 - 1).
  { destruct (match inversion_degree with
              | Some d => match Chords.index_of d (sorted Z.ltb (Chords.degrees f0)) 0 with
                          | Some x => Some (Z.of_nat x)
                          | None => inversion
                          end
              | None => inversion
              end) as [n|]; [|inversion Hinv; now left].
    destruct (negb (n =? 0)); [|inversion Hinv; now left].
    apply bind_Ok_inv in Hinv as (u & Hassert & Hinv). inversion Hinv; subst.
    apply assert_Ok_inv, andb_prop in Hassert as [Hlow Hhigh].
    apply Z.ltb_lt in Hlow. apply Z.leb_le in Hhigh. right. lia. }
  pose proof (sorted_Permutation (Intervals.Interval_lt qualities) (Intervals.items intervals))
    as Hperm.
  repeat split.
  - exact Hrange.
  - unfold Intervals.IntervalList_sorted. cbn [Intervals.items Intervals.IntervalList_init].
    rewrite Hperm. symmetry. eapply Forall2_length, Hall.
  - apply Sorted_by_value.
  - intros Hzero. rewrite Hzero in Hivs. cbn [Z.eqb negb] in Hivs. congruence.
  - replace (negb (inv =? 0)) with true in Hivs
      by (symmetry; apply negb_true_iff, Z.eqb_neq; assumption).
    apply (IntervalList_invert_spec qualities _ _ _ Hivs).
  - replace (negb (inv =? 0)) with true in Hivs
      by (symmetry; apply negb_true_iff, Z.eqb_neq; assumption).
    apply (IntervalList_invert_spec qualities _ _ _ Hivs).
  - intros Hnd degree offset Hin.
    assert (Hi : exists i, i ∈ Intervals.items intervals
                           /\ Intervals.from_degree qualities degree offset = Ok i
                           /\ Intervals.extended_degree i = degree).
    { clear - Hall Hin. induction Hall as [|kv i ? ? [Hi He]]; [inversion Hin|].
      apply elem_of_cons in Hin as [<- | Hin].
      - exists i. split; [left | split; assumption].
      - destruct (IHHall Hin) as (j & Hj & Hrest). exists j. split; [now right | exact Hrest]. }
    destruct Hi as (i & Hi & Hfrom & He). exists i. split; [exact Hfrom|].
    unfold Chords.factor_intervals_of, Intervals.IntervalList_sorted.
    cbn [Intervals.items Intervals.IntervalList_init].
    rewrite <- He.
    apply (fold_dict_set_member (@Intervals.extended_degree qualities)).
    + change (map ?g ?l) with (g <$> l). rewrite Hperm.
      change (?g <$> ?l) with (map g l).
      rewrite (Forall2_map_eq fst (@Intervals.extended_degree qualities)
                 (Chords.items f0) (Intervals.items intervals)).
      * exact Hnd.
      * eapply Forall2_impl; [exact Hall|]. intros kv j [_ Hj]. exact Hj.
    + rewrite Hperm. exact Hi.
Qed.

End ChordsFromFactors.

(** ** The inversion named by a degree *)

Lemma index_of_shift (x : Z) (l : list Z) (k : nat) :
  Chords.index_of x l (S k) = option_map S (Chords.index_of x l k).
Proof.
  revert k. induction l as [|y l IH]; intros k; simpl; [reflexivity|].
  destruct (x =? y); [reflexivity | apply IH].
Qed.

Lemma index_of_absent (x : Z) (l : list Z) (k : nat) :
  x ∉ l -> Chords.index_of x l k = None.
Proof.
  revert k. induction l as [|y l IH]; intros k Hx; simpl; [reflexivity|].
  apply not_elem_of_cons in Hx as [Hy Hx].
  replace (x =? y) with false by (symmetry; apply Z.eqb_neq, Hy). apply IH, Hx.
Qed.

Lemma index_of_strictly_sorted (d : Z) (l : list Z) :
  Sorted Z.lt l ->
  d ∈ l ->
  Chords.index_of d l 0 = Some (length (List.filter (fun y => y <? d) l)).
Proof.
  intros Hl. apply Sorted_StronglySorted in Hl; [|intros a b c; lia].
  induction Hl as [|y l Hl IH Hy]; intros Hd; [inversion Hd|].
  simpl. destruct (d =? y) eqn:E.
  - apply Z.eqb_eq in E. subst y.
    rewrite Z.ltb_irrefl.
    replace (List.filter (fun y => y <? d) l) with (@nil Z); [reflexivity|].
    symmetry. clear - Hy. induction Hy as [|z l Hz]; simpl; [reflexivity|].
    replace (z <? d) with false by (symmetry; apply Z.ltb_ge; lia). assumption.
  - apply Z.eqb_neq in E. apply elem_of_cons in Hd as [Hd | Hd]; [congruence|].
    rewrite Forall_forall in Hy. specialize (Hy d Hd).
    replace (y <? d) with true by (symmetry; apply Z.ltb_lt, Hy).
    rewrite index_of_shift, (IH Hd). reflexivity.
Qed.

Lemma filter_length_Permutation {A : Type} (p : A -> bool) (l l' : list A) :
  l ≡ₚ l' -> length (List.filter p l) = length (List.filter p l').
Proof.
  induction 1 as [|x l l' _ IH|x y l|l l' l'' _ IH _ IH']; simpl.
  - reflexivity.
  - destruct (p x); simpl; congruence.
  - destruct (p x), (p y); reflexivity.
  - congruence.
Qed.

Lemma Sorted_degrees (l : list Z) : NoDup l -> Sorted Z.lt (sorted Z.ltb l).
Proof.
  intros Hnd.
  apply (Sorted_strictly (fun z : Z => z)).
  - eapply Sorted_weaken; [|apply (Sorted_sorted Z.ltb l)].
    + intros a b H. cbn beta in H. apply Z.ltb_ge in H. exact H.
    + intros a b H. apply Z.ltb_lt in H. apply Z.ltb_ge. lia.
  - rewrite map_id. rewrite (sorted_Permutation Z.ltb l). exact Hnd.
Qed.

(** [inversion_degree] names the bass by its degree.  On factors that
    repeat no degree, a degree of the chord gives the inversion whose index
    is the number of degrees below it, whatever [inversion] was passed along;
    a degree the chord does not have is ignored without an error, and the
    chord is built as if only [inversion] had been given. *)
Theorem inversion_degree_is_an_index (qualities : qualities_module)
    (qualifiers_api : Chords.qualifiers_module)
    (f : Chords.ChordFactors) (inversion : option Z) (degree : Z) :
  NoDup (Chords.degrees f) ->
  Chords.AbstractChord_init qualities qualifiers_api None (Some f) inversion (Some degree)
  = if bool_decide (degree ∈ Chords.degrees f)
    then Chords.AbstractChord_init qualities qualifiers_api None (Some f)
           (Some (Z.of_nat (length (List.filter (fun y => y <? degree) (Chords.degrees f)))))
           None
    else Chords.AbstractChord_init qualities qualifiers_api None (Some f) inversion None.
Proof.
  intros Hnd. unfold Chords.AbstractChord_init, Chords._parse_input. cbn [bind fst snd].
  destruct (bool_decide (degree ∈ Chords.degrees f)) eqn:E.
  - apply bool_decide_eq_true_1 in E.
    rewrite (index_of_strictly_sorted degree (sorted Z.ltb (Chords.degrees f))).
    + rewrite (filter_length_Permutation _ _ _ (sorted_Permutation Z.ltb (Chords.degrees f))).
      reflexivity.
    + apply Sorted_degrees, Hnd.
    + rewrite (sorted_Permutation Z.ltb (Chords.degrees f)). exact E.
  - apply bool_decide_eq_false_1 in E.
    rewrite index_of_absent; [reflexivity|].
    rewrite (sorted_Permutation Z.ltb (Chords.degrees f)). exact E.
Qed.

(** ** Factors kept in the order of their degrees *)

Lemma by_degree_asym (a b : Z * Z) : (fst a <? fst b) = true -> (fst b <? fst a) = false.
Proof. intros H. apply Z.ltb_lt in H. apply Z.ltb_ge. lia. Qed.

Lemma sort_by_degree_Sorted (d : dict Z Z) :
  NoDup (keys d) ->
  Sorted (fun a b : Z * Z => fst a < fst b) (Chords.sort_by_degree d).
Proof.
  intros Hnd. apply (Sorted_strictly (fun kv : Z * Z => fst kv)).
  - eapply Sorted_weaken; [|apply (Sorted_sorted _ d by_degree_asym)].
    intros a b H. cbn beta in H. apply Z.ltb_ge in H. exact H.
  - apply sort_by_degree_NoDup in Hnd. exact Hnd.
Qed.

(** [factors + qualifier] and [factors + [qualifier, ...]] return factors
    whose degrees ascend strictly, so no degree is repeated, when [factors]
    repeats none. *)
Theorem ChordFactors_add_ascending (f f' : Chords.ChordFactors)
    (q : Chords.ChordQualifier) (qs : list Chords.ChordQualifier) :
  NoDup (Chords.degrees f) ->
  (Chords.ChordFactors_add f q = Ok f' ->
   Sorted (fun a b : Z * Z => fst a < fst b) (Chords.items f'))
  /\ (Chords.ChordFactors_add_list f qs = Ok f' ->
      Sorted (fun a b : Z * Z => fst a < fst b) (Chords.items f')).
Proof.
  intros Hnd. split; intros H.
  - unfold Chords.ChordFactors_add in H.
    apply bind_Ok_inv in H as (out & Happly & H). inversion H; subst; clear H.
    apply sort_by_degree_Sorted. eapply apply_NoDup; eassumption.
  - unfold Chords.ChordFactors_add_list in H.
    apply bind_Ok_inv in H as (out & Hfold & H). inversion H; subst; clear H.
    apply sort_by_degree_Sorted.
    revert Hfold.
    apply (foldM_invariant _ (fun d => NoDup (Chords.degrees d))); [|exact Hnd].
    intros s x s' Hs Hstep. eapply apply_NoDup; eassumption.
Qed.

(** ** Equality and hash of chords *)

Lemma strictly_sorted_ext {A : Type} (key : A -> Z) (a b : list A) :
  Sorted (fun x y => key x < key y) a ->
  Sorted (fun x y => key x < key y) b ->
  (forall x, In x a <-> In x b) ->
  a = b.
Proof.
  intros Ha Hb.
  apply Sorted_StronglySorted in Ha; [|intros x y z; lia].
  apply Sorted_StronglySorted in Hb; [|intros x y z; lia].
  revert b Hb. induction Ha as [|x a Ha IH Hx]; intros b Hb Hsame.
  - destruct b as [|y b]; [reflexivity|]. exfalso. apply (Hsame y). now left.
  - destruct Hb as [|y b Hb Hy].
    { exfalso. apply (Hsame x). now left. }
    rewrite Forall_forall in Hx, Hy.
    assert (Hxy : x = y).
    { destruct (proj1 (Hsame x) (or_introl eq_refl)) as [Heq | Hin]; [congruence|].
      destruct (proj2 (Hsame y) (or_introl eq_refl)) as [Heq | Hin']; [congruence|].
      apply list_elem_of_In in Hin, Hin'.
      specialize (Hx _ Hin'). specialize (Hy _ Hin). lia. }
    subst y. f_equal. apply IH; [exact Hb|].
    intros z. split; intros Hz.
    + destruct (proj1 (Hsame z) (or_intror Hz)) as [Heq | Hin]; [|exact Hin].
      subst z. apply list_elem_of_In in Hz. specialize (Hx _ Hz). lia.
    + destruct (proj2 (Hsame z) (or_intror Hz)) as [Heq | Hin]; [|exact Hin].
      subst z. apply list_elem_of_In in Hz. specialize (Hy _ Hz). lia.
Qed.

Lemma Sorted_keys_NoDup (d : dict Z Z) :
  Sorted (fun a b : Z * Z => fst a < fst b) d -> NoDup (keys d).
Proof.
  intros Hd. apply Sorted_StronglySorted in Hd; [|intros x y z; lia].
  induction Hd as [|x d Hd IH Hx]; simpl; [constructor|].
  apply NoDup_cons. split; [|exact IH].
  intros Hin. unfold keys in Hin. apply list_elem_of_fmap in Hin as (y & Hy & Hin).
  rewrite Forall_forall in Hx. specialize (Hx _ Hin). lia.
Qed.

(** Equal chords have equal hashes when their factors list the degrees in
    ascending order, as the factors of a chord built from a name or by [+]
    do: [==] compares the factors as dictionaries, the hash reads them as
    the tuple of their items, and for ascending factors the two agree. *)
Theorem AbstractChord_eq_hash (qualities : qualities_module)
    (hash : list (Z * Z) * Z -> Z) (a b : Chords.AbstractChord qualities) :
  Sorted (fun x y : Z * Z => fst x < fst y) (Chords.items (Chords.factors qualities a)) ->
  Sorted (fun x y : Z * Z => fst x < fst y) (Chords.items (Chords.factors qualities b)) ->
  ChordMethods.AbstractChord_eq qualities a b = true ->
  Chords.items (Chords.factors qualities a) = Chords.items (Chords.factors qualities b)
  /\ ChordMethods.AbstractChord_hash qualities hash a
     = ChordMethods.AbstractChord_hash qualities hash b.
Proof.
  intros Ha Hb Heq. unfold ChordMethods.AbstractChord_eq in Heq.
  apply andb_prop in Heq as [Hfactors Hinv]. apply Z.eqb_eq in Hinv.
  unfold Chords.ChordFactors_eq in Hfactors.
  assert (Hitems : Chords.items (Chords.factors qualities a)
                   = Chords.items (Chords.factors qualities b)).
  { apply (strictly_sorted_ext (fun kv : Z * Z => fst kv)); [exact Ha | exact Hb |].
    intros [k v]. apply dict_eq_items; [apply Sorted_keys_NoDup, Ha
                                       | apply Sorted_keys_NoDup, Hb | exact Hfactors]. }
  split; [exact Hitems|].
  unfold ChordMethods.AbstractChord_hash. rewrite Hitems, Hinv. reflexivity.
Qed.

(** ** The distance between factors *)

Lemma dict_all_None {V : Type} (d : dict Z V) :
  (forall k, dict_get Z.eqb d k = None) -> d = [].
Proof.
  destruct d as [|[k v] d]; [reflexivity|].
  intros H. specialize (H k). simpl in H. rewrite Z.eqb_refl in H. discriminate.
Qed.

Lemma filter_absent_nil (f : Chords.ChordFactors) (l : list Z) :
  filter (fun degree => Chords.has_degree f degree = false) l = []
  <-> forall k, k ∈ l -> Chords.has_degree f k = true.
Proof.
  induction l as [|x l IH].
  - split; [intros _ k Hk; inversion Hk | reflexivity].
  - rewrite filter_cons. destruct (decide (Chords.has_degree f x = false)) as [E | E].
    + split; [discriminate|]. intros H. rewrite (H x) in E by left. discriminate.
    + rewrite IH. split.
      * intros H k Hk. apply elem_of_cons in Hk as [-> | Hk]; [|apply H, Hk].
        destruct (Chords.has_degree f x); [reflexivity | congruence].
      * intros H k Hk. apply H. now right.
Qed.

Lemma distance_lookups (A B : Chords.ChordFactors) :
  NoDup (Chords.degrees A) ->
  (forall k, dict_get Z.eqb (Chords.add (Chords.distance A B)) k
             = match dict_get Z.eqb (Chords.items A) k, dict_get Z.eqb (Chords.items B) k with
               | Some o, None => Some o
               | _, _ => None
               end)
  /\ (forall k, dict_get Z.eqb (Chords.modify (Chords.distance A B)) k
                = match dict_get Z.eqb (Chords.items A) k,
                        dict_get Z.eqb (Chords.items B) k with
                  | Some o, Some o' => if negb (o =? o') then Some (o - o') else None
                  | _, _ => None
                  end)
  /\ Chords.remove (Chords.distance A B)
     = filter (fun degree => Chords.has_degree A degree = false) (Chords.degrees B).
Proof.
  intros HA. unfold Chords.distance.
  pose proof (distance_fold B (Chords.items A) ([], []) HA) as Hfold. cbn zeta in Hfold.
  destruct (fold_left (Chords.distance_step B) (Chords.items A) ([], [])) as [add modify].
  destruct Hfold as (Hadd & Hmod & _ & _). cbn [fst snd] in *.
  cbn [Chords.add Chords.modify Chords.remove].
  repeat split.
  - intros k. rewrite Hadd.
    destruct (dict_get Z.eqb (Chords.items A) k), (dict_get Z.eqb (Chords.items B) k);
      reflexivity.
  - intros k. rewrite Hmod.
    destruct (dict_get Z.eqb (Chords.items A) k) as [o|],
             (dict_get Z.eqb (Chords.items B) k) as [o'|]; reflexivity.
Qed.

Lemma dict_eq_same_lookups (a b : dict Z Z) :
  NoDup (keys a) -> NoDup (keys b) ->
  dict_eq a b = true ->
  forall k, dict_get Z.eqb a k = dict_get Z.eqb b k.
Proof.
  intros Ha Hb Heq k. rewrite (dict_eq_items a b Ha Hb) in Heq.
  destruct (dict_get Z.eqb a k) as [v|] eqn:Ea.
  - symmetry. apply dict_get_NoDup; [exact Hb|]. apply Heq, dict_get_In, Ea.
  - destruct (dict_get Z.eqb b k) as [v|] eqn:Eb; [|reflexivity].
    apply dict_get_In, Heq in Eb. apply (dict_get_NoDup a k v Ha) in Eb. congruence.
Qed.

(** [a - b], the distance, is the empty qualifier (nothing to add, to
    modify or to remove) exactly when [a == b]. *)
Theorem distance_is_empty_iff_equal (A B : Chords.ChordFactors) :
  NoDup (Chords.degrees A) ->
  NoDup (Chords.degrees B) ->
  Chords.distance A B = {| Chords.add := []; Chords.modify := []; Chords.remove := [] |}
  <-> Chords.ChordFactors_eq A B = true.
Proof.
  intros HA HB. destruct (distance_lookups A B HA) as (Hadd & Hmod & Hrem).
  split.
  - intros Hempty. rewrite Hempty in Hadd, Hmod, Hrem.
    cbn [Chords.add Chords.modify Chords.remove dict_get] in *.
    symmetry in Hrem. rewrite filter_absent_nil in Hrem.
    apply dict_eq_lookup; [exact HA | exact HB |].
    intros k. specialize (Hadd k). specialize (Hmod k).
    destruct (dict_get Z.eqb (Chords.items A) k) as [o|] eqn:EA,
             (dict_get Z.eqb (Chords.items B) k) as [o'|] eqn:EB; try congruence.
    + destruct (o =? o') eqn:E; [apply Z.eqb_eq in E; congruence | discriminate].
    + apply dict_get_Some_keys in EB. apply Hrem in EB.
      unfold Chords.has_degree, dict_contains in EB. rewrite EA in EB. discriminate.
  - intros Heq. unfold Chords.ChordFactors_eq in Heq.
    pose proof (dict_eq_same_lookups _ _ HA HB Heq) as Hsame.
    destruct (Chords.distance A B) as [add modify remove].
    cbn [Chords.add Chords.modify Chords.remove] in *.
    f_equal.
    + apply dict_all_None. intros k. rewrite Hadd, Hsame.
      destruct (dict_get Z.eqb (Chords.items B) k); reflexivity.
    + apply dict_all_None. intros k. rewrite Hmod, Hsame.
      destruct (dict_get Z.eqb (Chords.items B) k); [|reflexivity].
      rewrite Z.eqb_refl. reflexivity.
    + rewrite Hrem. apply filter_absent_nil. intros k Hk.
      unfold Chords.has_degree, dict_contains. rewrite Hsame.
      destruct (dict_get Z.eqb (Chords.items B) k) eqn:E; [reflexivity|].
      apply dict_get_None in E. apply list_elem_of_In in Hk. contradiction.
Qed.

Lemma distance_step_keys (B : Chords.ChordFactors) (l : dict Z Z) (acc : dict Z Z * dict Z Z) :
  NoDup (keys l) ->
  (forall k, k ∈ keys l -> k ∉ keys (fst acc)) ->
  keys (fst (fold_left (Chords.distance_step B) l acc))
  = keys (fst acc) ++ filter (fun degree => Chords.has_degree B degree = false) (keys l).
Proof.
  revert acc. induction l as [|[k0 o0] l IH]; intros acc Hnd Hfresh.
  - cbn [fold_left]. change (keys (@nil (Z * Z))) with (@nil Z).
    rewrite filter_nil, app_nil_r. reflexivity.
  - change (keys ((k0, o0) :: l)) with (k0 :: keys l) in *.
    apply NoDup_cons in Hnd as [Hk0 Hnd].
    cbn [fold_left].
    set (acc' := Chords.distance_step B acc (k0, o0)).
    assert (Hacc' : keys (fst acc')
                    = keys (fst acc) ++ (if Chords.has_degree B k0 then [] else [k0])).
    { subst acc'. unfold Chords.distance_step, Chords.has_degree, dict_contains.
      destruct (dict_get Z.eqb (Chords.items B) k0) as [other_offset|].
      - destruct (negb (o0 =? other_offset)); cbn [fst]; rewrite app_nil_r; reflexivity.
      - cbn [fst]. rewrite keys_dict_set.
        rewrite bool_decide_eq_false_2 by (apply Hfresh; left). reflexivity. }
    rewrite IH; [|exact Hnd|].
    + rewrite Hacc', filter_cons. destruct (Chords.has_degree B k0) eqn:E.
      * destruct (decide (true = false)) as [Hcontra|_]; [discriminate|].
        rewrite app_nil_r. reflexivity.
      * destruct (decide (false = false)) as [_|Hcontra]; [|congruence].
        rewrite <- app_assoc. reflexivity.
    + intros k Hk. rewrite Hacc'. intros Hin. apply elem_of_app in Hin as [Hin | Hin].
      * apply (Hfresh k); [now right | exact Hin].
      * destruct (Chords.has_degree B k0); [inversion Hin|].
        apply list_elem_of_singleton in Hin. subst. contradiction.
Qed.

(** The distance is not symmetric, it reverses: the degrees [a - b] adds
    are the degrees [b - a] removes, in the same order, and each degree one
    of them modifies the other modifies by the opposite amount. *)
Theorem distance_reversed (A B : Chords.ChordFactors) :
  NoDup (Chords.degrees A) ->
  NoDup (Chords.degrees B) ->
  Chords.remove (Chords.distance B A) = keys (Chords.add (Chords.distance A B))
  /\ forall k, dict_get Z.eqb (Chords.modify (Chords.distance B A)) k
               = option_map Z.opp (dict_get Z.eqb (Chords.modify (Chords.distance A B)) k).
Proof.
  intros HA HB.
  destruct (distance_lookups A B HA) as (_ & Hmod & _).
  destruct (distance_lookups B A HB) as (_ & Hmod' & Hrem').
  split.
  - rewrite Hrem'. unfold Chords.distance.
    pose proof (distance_step_keys B (Chords.items A) ([], []) HA) as Hkeys.
    destruct (fold_left (Chords.distance_step B) (Chords.items A) ([], [])) as [add modify].
    cbn [fst Chords.add] in *. rewrite Hkeys; [reflexivity|].
    intros k _ Hin. inversion Hin.
  - intros k. rewrite Hmod, Hmod'.
    destruct (dict_get Z.eqb (Chords.items A) k) as [o|],
             (dict_get Z.eqb (Chords.items B) k) as [o'|]; try reflexivity.
    rewrite (Z.eqb_sym o' o). destruct (negb (o =? o')); [|reflexivity].
    simpl. f_equal. lia.
Qed.

(** ** The matcher: ranking and the best match *)

Lemma slice_to_head {A : Type} (l : list A) (stop : Z) (x : A) :
  slice_to l stop !! 0%nat = Some x -> l !! 0%nat = Some x.
Proof.
  unfold slice_to. destruct (stop <? 0); intros H;
    apply lookup_take_Some in H as [H _]; exact H.
Qed.

Section BestMatch.

Context {Note candidate : Type}.
Context (unique : list Note -> list Note).
Context (candidate_for : Chords.match_flags -> list Note -> Note -> Chords.ChordFactors
                         -> result (candidate * Q)).
Context (bass_is_first : candidate -> list Note -> bool).
Context (precision_recall : Chords.match_flags -> list Note -> candidate -> result (Q * Q)).
Context (consonance_of : candidate -> result Q).
Context (candidate_key : candidate -> candidate -> bool).
Context (round : Q -> Z -> Q).

Local Abbreviation collected names_by_rarity names_to_factors note_list kw :=
  (Chords.collect_candidates unique candidate_for bass_is_first precision_recall
     consonance_of candidate_key round names_by_rarity names_to_factors
     {| Chords.assume_root := default true (Chords.kw_assume_root kw);
        Chords.require_root := default true (Chords.kw_require_root kw);
        Chords.invert := default true (Chords.kw_invert kw);
        Chords.upweight_third := default true (Chords.kw_upweight_third kw);
        Chords.downweight_fifth := default true (Chords.kw_downweight_fifth kw) |}
     (default 0%Q (Chords.kw_min_recall kw))
     (default 0%Q (Chords.kw_min_precision kw))
     (default 0%Q (Chords.kw_min_likelihood kw))
     note_list).

Lemma most_likely_chord_unfold (names_by_rarity : dict Z (list string))
    (names_to_factors : dict string Chords.ChordFactors)
    (note_list : list Note) (stats : bool) (kw : Chords.kwargs) :
  Chords.most_likely_chord unique candidate_for bass_is_first precision_recall
    consonance_of candidate_key round names_by_rarity names_to_factors note_list stats kw
  = (let* candidates := collected names_by_rarity names_to_factors note_list kw in
     let* best := getitem (Chords.sorted_cands candidates
                             (default 8 (Chords.kw_max_results kw))) 0 in
     Ok (fst best, if stats then Some (snd best) else None)).
Proof.
  unfold Chords.most_likely_chord, Chords.matching_chords_kw, Chords.matching_chords,
    Chords.relax_thresholds.
  cbn [Chords.kw_assume_root Chords.kw_require_root Chords.kw_invert
       Chords.kw_upweight_third Chords.kw_downweight_fifth Chords.kw_min_recall
       Chords.kw_min_precision Chords.kw_min_likelihood Chords.kw_max_results default].
  destruct (Chords.collect_candidates _ _ _ _ _ _ _ _ _ _ _ _ _ _); reflexivity.
Qed.


(** [most_likely_chord] has nothing to return when no candidate was
    collected, or when [max_results=0] is passed on: indexing the empty list
    of candidates raises [IndexError]. *)
Theorem most_likely_chord_without_candidates (names_by_rarity : dict Z (list string))
    (names_to_factors : dict string Chords.ChordFactors)
    (note_list : list Note) (stats : bool) (kw : Chords.kwargs)
    (candidates : dict candidate Chords.match_stats) :
  collected names_by_rarity names_to_factors note_list kw = Ok candidates ->
  candidates = [] \/ Chords.kw_max_results kw = Some 0 ->
  Chords.most_likely_chord unique candidate_for bass_is_first precision_recall
    consonance_of candidate_key round names_by_rarity names_to_factors note_list stats kw
  = Raise IndexError.
Proof.
  intros Hcollect Hnone. rewrite most_likely_chord_unfold, Hcollect. cbn [bind].
  replace (Chords.sorted_cands candidates (default 8 (Chords.kw_max_results kw)))
    with (@nil (candidate * Chords.match_stats)); [reflexivity|].
  unfold Chords.sorted_cands. destruct Hnone as [-> | ->].
  - unfold slice_to. cbn [sorted foldr]. destruct (_ <? 0); symmetry; apply take_nil.
  - reflexivity.
Qed.

End BestMatch.

(** ** The registry: names are registered once, in both maps *)

Lemma generated_names_NoDup : NoDup Spec.generated_names.
Proof. apply (bool_decide_unpack _). vm_compute. reflexivity. Qed.

Lemma base_names_listed :
  concat (map (fun name : string => [name]) Chords.all_base_names) = Chords.all_base_names.
Proof. reflexivity. Qed.

Lemma altered_names_listed :
  concat (map (fun chord_name =>
                 if negb (str_in chord_name Chords.unmodifiable_chords)
                 then concat (map (fun mod_name => [chord_name +:+ mod_name])
                                  Chords.ordered_modifier_names)
                 else [])
              Chords.all_base_names)
  = Spec.altered_names.
Proof. vm_compute. reflexivity. Qed.

Lemma dict_set_absent_values {K V : Type} (key_match : K -> K -> bool)
    (d : dict K V) (k : K) (v : V) :
  dict_contains key_match d k = false ->
  values (dict_set key_match d k v) = values d ++ [v].
Proof.
  intros H. apply dict_contains_false in H. rewrite (dict_set_absent _ _ _ _ H).
  unfold values. rewrite map_app. reflexivity.
Qed.

Lemma foldM_appends {A S B : Type} (f : S -> A -> result S) (p1 p2 : S -> list B)
    (g : A -> list B) (l : list A) (s0 s : S) :
  (forall s a s', f s a = Ok s' ->
     exists added, p1 s' = p1 s ++ added /\ p2 s' = p2 s ++ added
                   /\ added `sublist_of` g a) ->
  foldM f l s0 = Ok s ->
  exists added, p1 s = p1 s0 ++ added /\ p2 s = p2 s0 ++ added
                /\ added `sublist_of` concat (map g l).
Proof.
  intros Hstep. revert s0. induction l as [|a l IH]; intros s0 H; simpl in H.
  - inversion H; subst. exists []. rewrite !app_nil_r. repeat split. constructor.
  - apply bind_Ok_inv in H as (s1 & Hs1 & H).
    destruct (Hstep _ _ _ Hs1) as (added1 & H1 & H2 & Hsub1).
    destruct (IH _ H) as (added & H1' & H2' & Hsub).
    exists (added1 ++ added). rewrite H1', H2', H1, H2, !app_assoc.
    repeat split. simpl. apply sublist_app; assumption.
Qed.

Section RegistryPairs.

Context (qualities : qualities_module) (qualifiers_api : Chords.qualifiers_module).
Context (hash : list Z -> Z).

Local Abbreviation names_of state := (values (Chords.f2n qualities state)).
Local Abbreviation names_by_intervals state := (values (Chords.i2n qualities state)).

(** Every outcome of one round of the modifier loop, when it returns. *)
Lemma register_modifier_cases (rarities : dict string Z) (chord_name mod_name : string)
    (base_chord : Chords.AbstractChord qualities)
    (state state' : Chords.build_state qualities) :
  Chords.register_modifier qualities qualifiers_api hash rarities chord_name base_chord
    state mod_name = Ok state' ->
  state' = state
  \/ exists modifier altered_factors altered_intervals mod_rarity base_rarity names,
       Chords.lookup_modifier qualifiers_api mod_name = Ok modifier
       /\ Chords.ChordFactors_add (Chords.factors qualities base_chord)
            (Chords.referent modifier) = Ok altered_factors
       /\ Chords.to_intervals qualities altered_factors = Ok altered_intervals
       /\ dict_contains (Chords.factors_key hash) (Chords.f2n qualities state)
            altered_factors = false
       /\ dict_contains (Chords.intervals_key qualities) (Chords.i2n qualities state)
            altered_intervals = false
       /\ dict_getitem Chords.str_eqb
            (Chords.unpack_and_reverse_dict Chords.modifier_names_by_rarity) mod_name
          = Ok mod_rarity
       /\ dict_getitem Chords.str_eqb rarities chord_name = Ok base_rarity
       /\ dict_getitem Z.eqb (Chords.new_rarities qualities state) (base_rarity + mod_rarity)
          = Ok names
       /\ state' =
          {| Chords.f2n := dict_set (Chords.factors_key hash) (Chords.f2n qualities state)
                             altered_factors (chord_name +:+ mod_name);
             Chords.i2n := dict_set (Chords.intervals_key qualities)
                             (Chords.i2n qualities state)
                             altered_intervals (chord_name +:+ mod_name);
             Chords.new_rarities :=
               dict_set Z.eqb (Chords.new_rarities qualities state)
                        (base_rarity + mod_rarity)
                        (names ++ [chord_name +:+ mod_name]) |}.
Proof.
  unfold Chords.register_modifier. intros Hstep.
  apply bind_Ok_inv in Hstep as (modifier & Hlookup & Hstep).
  destruct (Chords.valid_on _ _ _) in Hstep; [|left; congruence].
  destruct (negb _) in Hstep; [|left; congruence].
  apply bind_Ok_inv in Hstep as (altered_factors & Hadd & Hstep).
  apply bind_Ok_inv in Hstep as (altered_intervals & Hintervals & Hstep).
  destruct (dict_contains (Chords.factors_key hash) _ _) eqn:Efactors;
    cbn [negb andb] in Hstep; [left; congruence|].
  destruct (dict_contains (Chords.intervals_key qualities) _ _) eqn:Eintervals;
    cbn [negb] in Hstep; [left; congruence|].
  apply bind_Ok_inv in Hstep as (mod_rarity & Hmod & Hstep).
  apply bind_Ok_inv in Hstep as (base_rarity & Hbase & Hstep).
  apply bind_Ok_inv in Hstep as (names & Hnames & Hstep).
  rewrite (second_modifiers_skip qualities qualifiers_api) in Hstep by exact Hlookup.
  right. exists modifier, altered_factors, altered_intervals, mod_rarity, base_rarity, names.
  repeat split; try assumption. congruence.
Qed.

Lemma register_base_appends (state state' : Chords.build_state qualities)
    (chord_name : string) :
  Chords.register_base qualities qualifiers_api hash state chord_name = Ok state' ->
  exists added,
    names_of state' = names_of state ++ added
    /\ names_by_intervals state' = names_by_intervals state ++ added
    /\ added `sublist_of` [chord_name].
Proof.
  unfold Chords.register_base. intros Hstep.
  apply bind_Ok_inv in Hstep as (base_chord & _ & Hstep).
  destruct (dict_contains (Chords.factors_key hash) _ _) eqn:Efactors; cbn [orb] in Hstep.
  { apply bind_Ok_inv in Hstep as (? & _ & Hstep). inversion Hstep; subst.
    exists []. rewrite !app_nil_r. repeat split. apply sublist_nil_l. }
  destruct (dict_contains (Chords.intervals_key qualities) _ _) eqn:Eintervals.
  { apply bind_Ok_inv in Hstep as (? & _ & Hstep). inversion Hstep; subst.
    exists []. rewrite !app_nil_r. repeat split. apply sublist_nil_l. }
  inversion Hstep; subst; clear Hstep. cbn [Chords.f2n Chords.i2n].
  exists [chord_name].
  rewrite (dict_set_absent_values _ _ _ _ Efactors),
    (dict_set_absent_values _ _ _ _ Eintervals).
  repeat split; reflexivity.
Qed.

Lemma register_modifiers_appends (rarities : dict string Z)
    (state state' : Chords.build_state qualities) (chord_name : string) :
  Chords.register_modifiers qualities qualifiers_api hash rarities state chord_name
  = Ok state' ->
  exists added,
    names_of state' = names_of state ++ added
    /\ names_by_intervals state' = names_by_intervals state ++ added
    /\ added `sublist_of`
         (if negb (str_in chord_name Chords.unmodifiable_chords)
          then concat (map (fun mod_name => [chord_name +:+ mod_name])
                           Chords.ordered_modifier_names)
          else []).
Proof.
  unfold Chords.register_modifiers. intros Hstep.
  destruct (negb (str_in chord_name Chords.unmodifiable_chords)).
  2:{ inversion Hstep; subst. exists []. rewrite !app_nil_r. repeat split; reflexivity. }
  apply bind_Ok_inv in Hstep as (base_chord & _ & Hstep).
  revert Hstep.
  apply (foldM_appends _ (fun s => names_of s) (fun s => names_by_intervals s)
           (fun mod_name => [chord_name +:+ mod_name])).
  intros s mod_name s' Hs.
  apply register_modifier_cases in Hs
    as [-> | (modifier & af & ai & mr & br & names & _ & _ & _ & Ef & Ei & _ & _ & _ & ->)].
  - exists []. rewrite !app_nil_r. repeat split. apply sublist_nil_l.
  - exists [chord_name +:+ mod_name]. cbn [Chords.f2n Chords.i2n].
    rewrite (dict_set_absent_values _ _ _ _ Ef), (dict_set_absent_values _ _ _ _ Ei).
    repeat split; reflexivity.
Qed.

(** The two maps of the registry hold the same names, in the same order;
    the names stand in the order in which the two loops visit them, and no
    name is registered twice. *)
Theorem registry_names_are_paired (reg : Chords.registry qualities) :
  Chords.build_registry qualities qualifiers_api hash = Ok reg ->
  values (Chords.factors_to_chord_names qualities reg)
  = values (Chords.intervals_to_chord_names qualities reg)
  /\ values (Chords.factors_to_chord_names qualities reg) `sublist_of` Spec.generated_names
  /\ NoDup (values (Chords.factors_to_chord_names qualities reg)).
Proof.
  intros Hbuild. unfold Chords.build_registry in Hbuild. cbn zeta in Hbuild.
  apply bind_Ok_inv in Hbuild as (state1 & Hpass1 & Hbuild).
  apply bind_Ok_inv in Hbuild as (state & Hpass2 & Hbuild).
  apply bind_Ok_inv in Hbuild as (by_rarity & _ & Hbuild).
  inversion Hbuild; subst; clear Hbuild.
  cbn [Chords.factors_to_chord_names Chords.intervals_to_chord_names].
  apply (foldM_appends _ (fun s => names_of s) (fun s => names_by_intervals s)
           (fun name => [name])) in Hpass1
    as (added1 & Hf1 & Hi1 & Hsub1); [|intros s a s'; apply register_base_appends].
  apply (foldM_appends _ (fun s => names_of s) (fun s => names_by_intervals s)
           (fun chord_name =>
              if negb (str_in chord_name Chords.unmodifiable_chords)
              then concat (map (fun mod_name => [chord_name +:+ mod_name])
                               Chords.ordered_modifier_names)
              else [])) in Hpass2
    as (added2 & Hf2 & Hi2 & Hsub2); [|intros s a s'; apply register_modifiers_appends].
  rewrite base_names_listed in Hsub1. rewrite altered_names_listed in Hsub2.
  cbn [Chords.initial_state Chords.f2n Chords.i2n values map app] in Hf1, Hi1.
  assert (Hsub : values (Chords.f2n qualities state) `sublist_of` Spec.generated_names).
  { rewrite Hf2, Hf1. unfold Spec.generated_names. apply sublist_app; assumption. }
  repeat split.
  - rewrite Hf2, Hi2, Hf1, Hi1. reflexivity.
  - exact Hsub.
  - eapply sublist_NoDup; [apply generated_names_NoDup | exact Hsub].
Qed.

End RegistryPairs.

(** ** The registry: the rarity tier of a registered name *)

Lemma fold_left_invariant_In {A S : Type} (f : S -> A -> S) (I : S -> Prop)
    (l : list A) (s0 : S) :
  (forall s a, a ∈ l -> I s -> I (f s a)) -> I s0 -> I (fold_left f l s0).
Proof.
  revert s0. induction l as [|a l IH]; intros s0 Hstep H0; simpl; [exact H0|].
  apply IH.
  - intros s b Hb. apply Hstep. right. exact Hb.
  - apply Hstep; [left | exact H0].
Qed.

Lemma dict_getitem_elem {K V : Type} (key_match : K -> K -> bool)
    (d : dict K V) (k : K) (v : V) :
  dict_getitem key_match d k = Ok v ->
  exists k', (k', v) ∈ d /\ key_match k' k = true.
Proof.
  unfold dict_getitem. induction d as [|[k0 v0] d IH]; simpl; [discriminate|].
  destruct (key_match k0 k) eqn:E.
  - intros [= <-]. exists k0. split; [left | exact E].
  - intros H. destruct (IH H) as (k' & Hin & Hk'). exists k'. split; [right; exact Hin | exact Hk'].
Qed.

Lemma dict_getitem_get {K V : Type} (key_match : K -> K -> bool)
    (d : dict K V) (k : K) (v : V) :
  dict_getitem key_match d k = Ok v <-> dict_get key_match d k = Some v.
Proof.
  unfold dict_getitem. destruct (dict_get key_match d k); split; congruence.
Qed.

(** A name that the reversed dictionary gives a tier is a name of that tier. *)
Lemma unpack_and_reverse_dict_tier (by_rarity : dict Z (list string))
    (name : string) (tier : Z) :
  dict_getitem Chords.str_eqb (Chords.unpack_and_reverse_dict by_rarity) name = Ok tier ->
  exists names, (tier, names) ∈ by_rarity /\ name ∈ names.
Proof.
  intros Hget. apply dict_getitem_elem in Hget as (name' & Hin & Hname).
  apply bool_decide_eq_true_1 in Hname. subst name'.
  assert (Hall : Forall (fun e : string * Z =>
                           exists names, (snd e, names) ∈ by_rarity /\ fst e ∈ names)
                        (Chords.unpack_and_reverse_dict by_rarity)).
  { unfold Chords.unpack_and_reverse_dict.
    apply fold_left_invariant_In; [|constructor].
    intros acc [t names] Ht Hacc. cbn [fst snd].
    apply fold_left_invariant_In; [|exact Hacc].
    intros acc' n Hn Hacc'.
    apply Forall_dict_set; [exact Hacc' | |].
    - exists names. split; assumption.
    - intros k' Hk'. apply bool_decide_eq_true_1 in Hk'. subst k'.
      exists names. split; assumption. }
  rewrite Forall_forall in Hall. exact (Hall _ Hin).
Qed.

Lemma dict_get_elem_Z {V : Type} (d : dict Z V) (k : Z) (v : V) :
  dict_get Z.eqb d k = Some v -> (k, v) ∈ d.
Proof.
  induction d as [|[k0 v0] d IH]; simpl; [discriminate|].
  destruct (k0 =? k) eqn:E.
  - apply Z.eqb_eq in E. subst k0. intros [= <-]. left.
  - intros H. right. exact (IH H).
Qed.

Lemma elem_dict_get_Z {V : Type} (d : dict Z V) (k : Z) (v : V) :
  NoDup (keys d) -> (k, v) ∈ d -> dict_get Z.eqb d k = Some v.
Proof.
  induction d as [|[k0 v0] d IH]; intros Hnd Hin; [inversion Hin|].
  cbn [keys map fst] in Hnd. apply NoDup_cons in Hnd as [Hfresh Hnd].
  apply elem_of_cons in Hin as [[= -> ->] | Hin]; simpl.
  - rewrite Z.eqb_refl. reflexivity.
  - destruct (k0 =? k) eqn:E; [|exact (IH Hnd Hin)].
    apply Z.eqb_eq in E. subst k0. exfalso. apply Hfresh.
    apply list_elem_of_fmap. exists (k, v). split; [reflexivity | exact Hin].
Qed.

(** The last loop: each tier gets the new names of that tier behind its
    own. *)
Lemma extend_rarities_lookup (new_names by_rarity by_rarity' : dict Z (list string)) (t : Z) :
  NoDup (keys new_names) ->
  foldM Chords.extend_rarities new_names by_rarity = Ok by_rarity' ->
  dict_get Z.eqb by_rarity' t
  = option_map (fun names => names ++ default [] (dict_get Z.eqb new_names t))
               (dict_get Z.eqb by_rarity t).
Proof.
  revert by_rarity. induction new_names as [|[k ns] l IH]; intros by_rarity Hnd Hfold.
  - simpl in Hfold. inversion Hfold; subst. simpl.
    destruct (dict_get Z.eqb by_rarity' t); simpl; [rewrite app_nil_r|]; reflexivity.
  - cbn [keys map fst] in Hnd. apply NoDup_cons in Hnd as [Hfresh Hnd].
    simpl in Hfold. apply bind_Ok_inv in Hfold as (d1 & Hstep & Hfold).
    unfold Chords.extend_rarities in Hstep. cbn [fst snd] in Hstep.
    apply bind_Ok_inv in Hstep as (names & Hnames & Hstep).
    inversion Hstep; subst d1; clear Hstep.
    rewrite (IH _ Hnd Hfold), dict_get_set. cbn [dict_get].
    apply dict_getitem_get in Hnames.
    destruct (k =? t) eqn:E.
    + apply Z.eqb_eq in E. subst t. rewrite Hnames. cbn [option_map default].
      replace (dict_get Z.eqb l k) with (@None (list string)).
      * cbn [default]. rewrite app_nil_r. reflexivity.
      * symmetry. destruct (dict_get Z.eqb l k) as [v|] eqn:El; [|reflexivity].
        exfalso. apply Hfresh. apply dict_get_elem_Z in El.
        apply list_elem_of_fmap. exists (k, v). split; [reflexivity | exact El].
    + reflexivity.
Qed.

Lemma elem_of_concat {A : Type} (x : A) (ls : list (list A)) :
  x ∈ concat ls -> exists l, l ∈ ls /\ x ∈ l.
Proof.
  induction ls as [|l ls IH]; simpl; intros H; [inversion H|].
  apply elem_of_app in H as [H | H].
  - exists l. split; [left | exact H].
  - destruct (IH H) as (l' & Hl' & Hx). exists l'. split; [right; exact Hl' | exact Hx].
Qed.

Section RegistryTiers.

Context (qualities : qualities_module) (qualifiers_api : Chords.qualifiers_module).
Context (hash : list Z -> Z).

Local Abbreviation tiers_ok state :=
  (NoDup (keys (Chords.new_rarities qualities state))
   /\ Forall (fun name =>
                name ∈ Chords.all_base_names
                \/ exists tier names,
                     dict_get Z.eqb (Chords.new_rarities qualities state) tier = Some names
                     /\ name ∈ names /\ Spec.altered_in_tier name tier)
             (values (Chords.f2n qualities state))).

Lemma register_base_tiers (state state' : Chords.build_state qualities)
    (chord_name : string) :
  chord_name ∈ Chords.all_base_names ->
  tiers_ok state ->
  Chords.register_base qualities qualifiers_api hash state chord_name = Ok state' ->
  tiers_ok state'.
Proof.
  intros Hname [Hnd Hall] Hstep. unfold Chords.register_base in Hstep.
  apply bind_Ok_inv in Hstep as (base_chord & _ & Hstep).
  destruct (dict_contains (Chords.factors_key hash) _ _) eqn:Efactors; cbn [orb] in Hstep.
  { apply bind_Ok_inv in Hstep as (? & _ & Hstep). inversion Hstep; subst. split; assumption. }
  destruct (dict_contains (Chords.intervals_key qualities) _ _) eqn:Eintervals.
  { apply bind_Ok_inv in Hstep as (? & _ & Hstep). inversion Hstep; subst. split; assumption. }
  inversion Hstep; subst; clear Hstep. cbn [Chords.f2n Chords.new_rarities].
  split; [exact Hnd|].
  rewrite (dict_set_absent_values _ _ _ _ Efactors).
  apply Forall_app. split; [exact Hall|].
  apply Forall_cons. split; [left; exact Hname | apply Forall_nil_2].
Qed.

Lemma register_modifier_tiers (chord_name mod_name : string)
    (base_chord : Chords.AbstractChord qualities)
    (state state' : Chords.build_state qualities) :
  tiers_ok state ->
  Chords.register_modifier qualities qualifiers_api hash
    (Chords.unpack_and_reverse_dict Chords.base_chord_names_by_rarity)
    chord_name base_chord state mod_name = Ok state' ->
  tiers_ok state'.
Proof.
  intros [Hnd Hall] Hstep.
  apply register_modifier_cases in Hstep
    as [-> | (modifier & af & ai & mr & br & names & _ & _ & _ & Ef & _ & Hmr & Hbr
              & Hnames & ->)];
    [split; assumption|].
  cbn [Chords.f2n Chords.new_rarities].
  split; [apply NoDup_dict_set, Hnd|].
  apply dict_getitem_get in Hnames.
  rewrite (dict_set_absent_values _ _ _ _ Ef).
  apply Forall_app. split.
  - eapply Forall_impl; [exact Hall|]. intros name [Hbase | (tier & ns & Hget & Hin & Halt)];
      [left; exact Hbase | right].
    destruct (br + mr =? tier) eqn:E.
    + apply Z.eqb_eq in E. subst tier.
      exists (br + mr), (names ++ [chord_name +:+ mod_name]).
      rewrite dict_get_set, Z.eqb_refl. split; [reflexivity|].
      split; [|exact Halt]. apply elem_of_app. left. congruence.
    + exists tier, ns. rewrite dict_get_set, E. repeat split; assumption.
  - apply Forall_cons. split; [|apply Forall_nil_2]. right.
    exists (br + mr), (names ++ [chord_name +:+ mod_name]).
    rewrite dict_get_set, Z.eqb_refl. split; [reflexivity|].
    split; [apply elem_of_app; right; left|].
    apply unpack_and_reverse_dict_tier in Hmr as (mod_names & Hmods & Hmod).
    apply unpack_and_reverse_dict_tier in Hbr as (base_names & Hbases & Hbase).
    exists chord_name, mod_name, br, mr, base_names, mod_names.
    repeat split; assumption.
Qed.

(** Every registered name is found in a rarity tier: a base name in the tier
    it is listed under, and a base name followed by a modifier name in the
    tier whose number is the sum of the base chord's tier and the
    modifier's. *)
Theorem registered_names_have_their_tier (reg : Chords.registry qualities) (name : string) :
  Chords.build_registry qualities qualifiers_api hash = Ok reg ->
  name ∈ values (Chords.factors_to_chord_names qualities reg) ->
  exists tier names,
    (tier, names) ∈ Chords.chord_names_by_rarity qualities reg
    /\ name ∈ names
    /\ ((exists base_names, (tier, base_names) ∈ Chords.base_chord_names_by_rarity
                            /\ name ∈ base_names)
        \/ Spec.altered_in_tier name tier).
Proof.
  intros Hbuild Hname. unfold Chords.build_registry in Hbuild. cbn zeta in Hbuild.
  apply bind_Ok_inv in Hbuild as (state1 & Hpass1 & Hbuild).
  apply bind_Ok_inv in Hbuild as (state & Hpass2 & Hbuild).
  apply bind_Ok_inv in Hbuild as (by_rarity & Hextend & Hbuild).
  inversion Hbuild; subst; clear Hbuild.
  cbn [Chords.factors_to_chord_names Chords.chord_names_by_rarity] in *.
  assert (H1 : tiers_ok state1).
  { revert Hpass1.
    apply (foldM_invariant_In _ (fun s => tiers_ok s)).
    - intros s a s' Ha Hs. apply register_base_tiers; assumption.
    - split; [|constructor]. apply (bool_decide_unpack _). vm_compute. reflexivity. }
  assert (H2 : tiers_ok state).
  { revert Hpass2.
    apply (foldM_invariant_In _ (fun s => tiers_ok s)); [|exact H1].
    intros s chord_name s' Hchord Hs Hstep. unfold Chords.register_modifiers in Hstep.
    destruct (negb (str_in chord_name Chords.unmodifiable_chords));
      [|inversion Hstep; subst; exact Hs].
    apply bind_Ok_inv in Hstep as (base_chord & _ & Hstep).
    revert Hstep. apply (foldM_invariant _ (fun s => tiers_ok s)); [|exact Hs].
    intros t mod_name t' Ht. apply register_modifier_tiers, Ht. }
  destruct H2 as [Hnd Hall]. rewrite Forall_forall in Hall.
  assert (Hbase_keys : NoDup (keys Chords.base_chord_names_by_rarity))
    by (apply (bool_decide_unpack _); vm_compute; reflexivity).
  destruct (Hall name Hname) as [Hbase | (tier & names & Hget & Hin & Halt)].
  - unfold Chords.all_base_names in Hbase. apply elem_of_concat in Hbase
      as (base_names & Hnames & Hin).
    apply list_elem_of_fmap in Hnames as ([tier ns] & -> & Htier). cbn [snd] in Hin.
    pose proof (extend_rarities_lookup _ _ _ tier Hnd Hextend) as Hfinal.
    rewrite (elem_dict_get_Z _ _ _ Hbase_keys Htier) in Hfinal. cbn [option_map] in Hfinal.
    eexists tier, _. split; [apply dict_get_elem_Z, Hfinal|].
    split; [apply elem_of_app; left; exact Hin|].
    left. exists ns. split; assumption.
  - pose proof (extend_rarities_lookup _ _ _ tier Hnd Hextend) as Hfinal.
    rewrite Hget in Hfinal. cbn [default] in Hfinal.
    destruct (dict_get Z.eqb Chords.base_chord_names_by_rarity tier) as [base_names|] eqn:Ebase.
    + cbn [option_map] in Hfinal.
      eexists tier, _. split; [apply dict_get_elem_Z, Hfinal|].
      split; [apply elem_of_app; right; exact Hin|]. right. exact Halt.
    + exfalso. cbn [option_map] in Hfinal.
      (* the last loop looks the tier up in the base dictionary *)
      assert (Hkey : tier ∈ keys (Chords.new_rarities qualities state)).
      { apply dict_get_elem_Z in Hget. apply list_elem_of_fmap.
        exists (tier, names). split; [reflexivity | exact Hget]. }
      clear - Hextend Hkey Ebase Hnd.
      revert Hextend Ebase. generalize Chords.base_chord_names_by_rarity as d.
      induction (Chords.new_rarities qualities state) as [|[k ns] l IH];
        intros d Hfold Ebase; [inversion Hkey|].
      cbn [keys map fst] in Hnd, Hkey. apply NoDup_cons in Hnd as [_ Hnd].
      simpl in Hfold. apply bind_Ok_inv in Hfold as (d1 & Hstep & Hfold).
      unfold Chords.extend_rarities in Hstep. cbn [fst snd] in Hstep.
      apply bind_Ok_inv in Hstep as (old & Hold & Hstep). inversion Hstep; subst d1.
      apply dict_getitem_get in Hold.
      apply elem_of_cons in Hkey as [-> | Hkey]; [congruence|].
      apply (IH Hnd Hkey _ Hfold). rewrite dict_get_set.
      destruct (k =? tier) eqn:E; [|exact Ebase].
      apply Z.eqb_eq in E. subst k. congruence.
Qed.

End RegistryTiers.

(** ** The properties above, on the conventional instance *)

Lemma Interval_recast_is_identity_witness :
  exists i,
    Intervals.Interval_init Conventional.qualities 6 (Some 4) = Ok i
    /\ IntervalMethods.Interval_recast Conventional.qualities i None = Ok i.
Proof.
  eexists. split; [vm_compute; reflexivity|].
  apply (Interval_recast_is_identity Conventional.qualities 6 (Some 4)).
  vm_compute. reflexivity.
Defined.

Lemma Interval_neg_involutive_witness :
  exists i j,
    Intervals.Interval_init Conventional.qualities 15 None = Ok i
    /\ Intervals.Interval_neg Conventional.qualities i = Ok j
    /\ Intervals.value j = -15
    /\ Intervals.extended_degree j = Intervals.extended_degree i
    /\ Intervals.Interval_neg Conventional.qualities j = Ok i.
Proof.
  eexists.
  destruct (Interval_neg_involutive Conventional.qualities 15 None _
              ltac:(vm_compute; reflexivity))
    as (j & Hneg & Hvalue & _ & _ & Hdegree & _ & Hback).
  exists j. split; [reflexivity|]. repeat split; assumption.
Defined.


Lemma Interval_invert_of_octaves_witness :
  exists i j,
    Intervals.Interval_init Conventional.qualities 12 None = Ok i
    /\ Intervals.Interval_invert Conventional.qualities i = Ok j
    /\ Intervals.value j = -24
    /\ forall k, Intervals.Interval_invert Conventional.qualities j = Ok k ->
                 Intervals.value k = 36.
Proof.
  eexists. eexists. split; [vm_compute; reflexivity|]. split; [vm_compute; reflexivity|].
  destruct (Interval_invert_of_octaves Conventional.qualities 12 None _ _
              ltac:(vm_compute; reflexivity) ltac:(vm_compute; reflexivity)
              ltac:(vm_compute; reflexivity))
    as (Hvalue & _ & Htwice).
  split; assumption.
Defined.

Lemma Interval_add_zero_witness :
  exists i,
    Intervals.Interval_init Conventional.qualities 6 (Some 4) = Ok i
    /\ Intervals.Interval_add Conventional.qualities i 0 = Ok i.
Proof.
  eexists. split; [vm_compute; reflexivity|].
  apply (Interval_add_zero Conventional.qualities 6 (Some 4)). vm_compute. reflexivity.
Defined.

Lemma Interval_add_octaves_witness :
  exists i j,
    Intervals.Interval_init Conventional.qualities 6 (Some 4) = Ok i
    /\ Intervals.Interval_add Conventional.qualities i (12 * 2) = Ok j
    /\ Intervals.value j = 6 + 12 * 2
    /\ Intervals.degree j = Intervals.degree i
    /\ Intervals.quality j = Intervals.quality i
    /\ Intervals.extended_degree j = Intervals.extended_degree i + 7 * 2 * Intervals.sign i.
Proof.
  eexists.
  destruct (Interval_add_octaves Conventional.qualities 6 (Some 4) _ 2
              ltac:(vm_compute; reflexivity) ltac:(vm_compute; discriminate)
              ltac:(reflexivity))
    as (j & H).
  exists j. split; [reflexivity | exact H].
Defined.


Lemma from_degree_offset_round_trip_witness :
  exists i,
    Intervals.from_degree Conventional.qualities 10 (-1) = Ok i
    /\ Intervals.extended_degree i = 10
    /\ IntervalMethods.offset_from_degree Conventional.qualities i 10 = Ok (-1).
Proof.
  eexists. split; [vm_compute; reflexivity|].
  destruct (from_degree_offset_round_trip Conventional.qualities 10 (-1) _
              ltac:(vm_compute; reflexivity))
    as (Hdegree & _ & Hoffset).
  split; [exact Hdegree|]. apply Hoffset. vm_compute. discriminate.
Defined.

Lemma IntervalList_invert_spec_witness :
  exists l inverted,
    Intervals.IntervalList_of_ints Conventional.qualities [0; 4; 7; 10] = Ok l
    /\ Intervals.IntervalList_invert Conventional.qualities l 2 = Ok inverted
    /\ (exists first rest,
           Intervals.items inverted = first :: rest /\ Intervals.value first = 0)
    /\ Sorted (fun a b : Intervals.Interval Conventional.qualities =>
                 Intervals.value a < Intervals.value b)
              (Intervals.items inverted).
Proof.
  eexists. eexists. split; [vm_compute; reflexivity|].
  match goal with
  | |- ?returned /\ _ => assert (Hinverted : returned) by (vm_compute; reflexivity)
  end.
  split; [exact Hinverted|].
  exact (IntervalList_invert_spec Conventional.qualities _ _ _ Hinverted).
Defined.

Lemma stack_then_unstack_witness :
  exists l stacked,
    Intervals.IntervalList_of_ints Conventional.qualities [4; 3; 4; 4] = Ok l
    /\ IntervalMethods.stack Conventional.qualities l = Ok stacked
    /\ Intervals.values_of Conventional.qualities (Intervals.items stacked) = [4; 7; 11; 15]
    /\ forall unstacked,
         IntervalMethods.unstack Conventional.qualities stacked = Ok unstacked ->
         Intervals.values_of Conventional.qualities (Intervals.items unstacked)
         = [4; 3; 4; 4].
Proof.
  eexists. eexists. split; [vm_compute; reflexivity|].
  match goal with
  | |- ?returned /\ _ => assert (Hstacked : returned) by (vm_compute; reflexivity)
  end.
  split; [exact Hstacked|]. split; [vm_compute; reflexivity|].
  exact (proj2 (stack_then_unstack Conventional.qualities _ _ Hstacked)).
Defined.

Lemma pad_then_strip_witness :
  exists l padded,
    Intervals.IntervalList_of_ints Conventional.qualities [4; 7] = Ok l
    /\ IntervalMethods.pad Conventional.qualities l true true = Ok padded
    /\ Intervals.values_of Conventional.qualities (Intervals.items padded) = [0; 4; 7; 12]
    /\ IntervalMethods.strip Conventional.qualities padded
       = Ok (Intervals.IntervalList_init Conventional.qualities (Intervals.items l)).
Proof.
  eexists. eexists. split; [vm_compute; reflexivity|].
  match goal with
  | |- ?returned /\ _ => assert (Hpadded : returned) by (vm_compute; reflexivity)
  end.
  split; [exact Hpadded|]. split; [vm_compute; reflexivity|].
  refine (pad_then_strip Conventional.qualities _ _ true true _ _ _ _ _ _ Hpadded);
    [reflexivity | reflexivity | vm_compute; discriminate | vm_compute; discriminate].
Defined.

Lemma AbstractChord_from_factors_witness :
  exists c,
    Chords.AbstractChord_init Conventional.qualities Conventional.qualifiers_api
      None (Some dominant_seventh_factors) (Some 2) None = Ok c
    /\ Chords.factors Conventional.qualities c = dominant_seventh_factors
    /\ (Chords.inversion Conventional.qualities c = 0
        \/ 0 < Chords.inversion Conventional.qualities c
           <= Chords.order dominant_seventh_factors - 1)
    /\ length (Intervals.items (Chords.root_intervals Conventional.qualities c))
       = length (Chords.items dominant_seventh_factors).
Proof.
  eexists. split; [vm_compute; reflexivity|].
  destruct (AbstractChord_from_factors Conventional.qualities Conventional.qualifiers_api
              dominant_seventh_factors (Some 2) None _ ltac:(vm_compute; reflexivity))
    as (H1 & H2 & H3 & _).
  repeat split; assumption.
Defined.

Lemma inversion_degree_is_an_index_witness :
  Chords.AbstractChord_init Conventional.qualities Conventional.qualifiers_api
    None (Some dominant_seventh_factors) None (Some 5)
  = Chords.AbstractChord_init Conventional.qualities Conventional.qualifiers_api
      None (Some dominant_seventh_factors) (Some 2) None.
Proof.
  exact (inversion_degree_is_an_index Conventional.qualities Conventional.qualifiers_api
           dominant_seventh_factors None 5
           ltac:(apply (bool_decide_unpack _); vm_compute; reflexivity)).
Defined.

Lemma ChordFactors_add_ascending_witness :
  exists f',
    Chords.ChordFactors_add minor_triad_factors
      {| Chords.add := [(9, 0)]; Chords.modify := []; Chords.remove := [] |} = Ok f'
    /\ Sorted (fun a b : Z * Z => fst a < fst b) (Chords.items f').
Proof.
  eexists.
  match goal with
  | |- ?returned /\ _ => assert (Hadded : returned) by (vm_compute; reflexivity)
  end.
  split; [exact Hadded|].
  exact (proj1 (ChordFactors_add_ascending minor_triad_factors _
                  {| Chords.add := [(9, 0)]; Chords.modify := []; Chords.remove := [] |} []
                  ltac:(apply (bool_decide_unpack _); vm_compute; reflexivity))
               Hadded).
Defined.

Lemma AbstractChord_eq_hash_witness :
  exists a b,
    Chords.AbstractChord_init Conventional.qualities Conventional.qualifiers_api
      (Some "m7") None (Some 1) None = Ok a
    /\ Chords.AbstractChord_init Conventional.qualities Conventional.qualifiers_api
         None (Some (Chords.factors Conventional.qualities a)) None (Some 3) = Ok b
    /\ ChordMethods.AbstractChord_eq Conventional.qualities a b = true
    /\ ChordMethods.AbstractChord_hash Conventional.qualities
         (fun key => Conventional.hash (map fst (fst key) ++ map snd (fst key) ++ [snd key])) a
       = ChordMethods.AbstractChord_hash Conventional.qualities
           (fun key => Conventional.hash (map fst (fst key) ++ map snd (fst key) ++ [snd key])) b.
Proof.
  eexists. eexists. split; [vm_compute; reflexivity|]. split; [vm_compute; reflexivity|].
  split; [vm_compute; reflexivity|].
  apply (AbstractChord_eq_hash Conventional.qualities);
    [repeat constructor | repeat constructor | vm_compute; reflexivity].
Defined.

Lemma distance_is_empty_iff_equal_witness :
  Chords.distance major_triad_factors major_triad_factors
  = {| Chords.add := []; Chords.modify := []; Chords.remove := [] |}
  /\ Chords.distance minor_triad_factors major_triad_factors
     <> {| Chords.add := []; Chords.modify := []; Chords.remove := [] |}.
Proof.
  split.
  - apply (distance_is_empty_iff_equal major_triad_factors major_triad_factors
             ltac:(apply (bool_decide_unpack _); vm_compute; reflexivity)
             ltac:(apply (bool_decide_unpack _); vm_compute; reflexivity)).
    vm_compute. reflexivity.
  - intros H.
    apply (distance_is_empty_iff_equal minor_triad_factors major_triad_factors
             ltac:(apply (bool_decide_unpack _); vm_compute; reflexivity)
             ltac:(apply (bool_decide_unpack _); vm_compute; reflexivity)) in H.
    vm_compute in H. discriminate H.
Defined.

Lemma distance_reversed_witness :
  Chords.remove (Chords.distance major_triad_factors minor_add9_factors)
  = keys (Chords.add (Chords.distance minor_add9_factors major_triad_factors))
  /\ forall k,
       dict_get Z.eqb (Chords.modify (Chords.distance major_triad_factors minor_add9_factors)) k
       = option_map Z.opp
           (dict_get Z.eqb
              (Chords.modify (Chords.distance minor_add9_factors major_triad_factors)) k).
Proof.
  exact (distance_reversed minor_add9_factors major_triad_factors
           ltac:(apply (bool_decide_unpack _); vm_compute; reflexivity)
           ltac:(apply (bool_decide_unpack _); vm_compute; reflexivity)).
Defined.


Lemma most_likely_chord_without_candidates_witness :
  Chords.most_likely_chord (fun notes : list string => notes) toy_candidate_for
    (fun _ _ => true) toy_precision_recall (fun _ => Ok (1 # 2)%Q) toy_key
    (fun (q : Q) (_ : Z) => q)
    [(0, ["m"; ""])] [("", major_triad_factors); ("m", minor_triad_factors)]
    [] false toy_kwargs
  = Raise IndexError.
Proof.
  apply (most_likely_chord_without_candidates
           (fun notes : list string => notes) toy_candidate_for
           (fun _ _ => true) toy_precision_recall (fun _ => Ok (1 # 2)%Q) toy_key
           (fun (q : Q) (_ : Z) => q)
           [(0, ["m"; ""])] [("", major_triad_factors); ("m", minor_triad_factors)]
           [] false toy_kwargs []);
    [vm_compute; reflexivity | left; reflexivity].
Defined.

Lemma registry_names_are_paired_witness :
  exists reg,
    conventional_registry = Ok reg
    /\ values (Chords.factors_to_chord_names Conventional.qualities reg)
       = values (Chords.intervals_to_chord_names Conventional.qualities reg)
    /\ values (Chords.factors_to_chord_names Conventional.qualities reg)
       `sublist_of` Spec.generated_names
    /\ NoDup (values (Chords.factors_to_chord_names Conventional.qualities reg)).
Proof.
  destruct conventional_registry_built as [reg Hbuild].
  exists reg. split; [exact Hbuild|].
  exact (registry_names_are_paired Conventional.qualities Conventional.qualifiers_api
           Conventional.hash reg Hbuild).
Defined.

Lemma registered_names_have_their_tier_witness :
  exists reg tier names,
    conventional_registry = Ok reg
    /\ "madd9" ∈ values (Chords.factors_to_chord_names Conventional.qualities reg)
    /\ (tier, names) ∈ Chords.chord_names_by_rarity Conventional.qualities reg
    /\ "madd9" ∈ names.
Proof.
  destruct conventional_registry_built as [reg Hbuild].
  assert (Hname : "madd9" ∈ values (Chords.factors_to_chord_names Conventional.qualities reg)).
  { apply (bool_decide_unpack _). by_registry reg Hbuild. }
  destruct (registered_names_have_their_tier Conventional.qualities
              Conventional.qualifiers_api Conventional.hash reg "madd9" Hbuild Hname)
    as (tier & names & Htier & Hin & _).
  exists reg, tier, names. repeat split; assumption.
Defined.
